(** * bench.py: a sharded counter-map microbenchmark

    A shallow embedding of [src/python/bench.py] and the properties of its
    deterministic workload generator, its sharded store and its two
    execution models.

    Conventions of the embedding:
    - Python integers are [Z]; [%], [//] and list indexing raise exactly
      where Python raises, through the result type [res];
    - a [dict] of integer keys and counters is a [gmap Z Z]; the store
      [shards] is a [list] of such maps (the list comprehension builds
      pairwise distinct dictionaries, so there is no aliasing between
      shards);
    - a generator object is represented by the value of its local [x]
      before the next resumption;
    - [read_ratio] is a binary64 float, as [argparse] parses it;
    - a run of the thread model is a schedule: the sequence of thread
      indices in the order in which their loop iterations take effect on
      the shared store; a second model takes the iteration apart into the
      acquisition of the shard's lock, the read and the assignment, and is
      shown to reach no store and no log the first one does not reach;
    - the clock, the memory reading and the interpreter's version are
      inputs of [main]; what [main] prints and how it exits is its
      result.

    The file has the program first, then the vocabulary of the
    specification and the invariants, then the lemmas, the claims [C1] to
    [C10] and runs on concrete inputs; further properties of the code,
    [X1] to [X21], come last, with runs of their own. *)

From Stdlib Require Import ZArith Lia PrimFloat SpecFloat FloatOps.
From stdpp Require Import gmap strings list.

Open Scope Z_scope.

(** ** Python exceptions and results *)

Inductive exn :=
  | ZeroDivisionError
  | IndexError
  | ValueError
  | OverflowError.

Inductive res (A : Type) :=
  | Ok (a : A)
  | Raise (e : exn).
Arguments Ok {A} a.
Arguments Raise {A} e.

#[global] Instance res_ret : MRet res := λ A a, Ok a.
#[global] Instance res_bind : MBind res := λ A B f m,
  match m with
  | Ok a => f a
  | Raise e => Raise e
  end.

Definition is_ok {A} (m : res A) : bool :=
  match m with Ok _ => true | Raise _ => false end.

(** ** Python primitives *)

(** [a % b]: floored remainder, [ZeroDivisionError] on a zero divisor. *)
Definition py_mod (a b : Z) : res Z :=
  if b =? 0 then Raise ZeroDivisionError else Ok (a mod b).

(** [a // b]: floored quotient, [ZeroDivisionError] on a zero divisor. *)
Definition py_floordiv (a b : Z) : res Z :=
  if b =? 0 then Raise ZeroDivisionError else Ok (a / b).

(** The position a Python index [i] denotes in a list of length [n]:
    negative indices count from the end, anything else is an
    [IndexError]. *)
Definition py_index (n : nat) (i : Z) : res nat :=
  if (0 <=? i) && (i <? Z.of_nat n) then Ok (Z.to_nat i)
  else if (- Z.of_nat n <=? i) && (i <? 0) then Ok (Z.to_nat (Z.of_nat n + i))
  else Raise IndexError.

(** [range(n)] *)
Definition py_range (n : Z) : list Z := seqZ 0 n.

(** The integer part of [m * 2^e]. *)
Definition SF_magnitude (m : positive) (e : Z) : Z :=
  if 0 <=? e then Z.pos m * 2 ^ e else Z.pos m / 2 ^ (- e).

(** [int(f)] for a float: truncation towards zero; [ValueError] on NaN
    and [OverflowError] on an infinity. *)
Definition py_int_of_float (f : float) : res Z :=
  match Prim2SF f with
  | S754_zero _ => Ok 0
  | S754_finite s m e =>
      Ok (if s then - SF_magnitude m e else SF_magnitude m e)
  | S754_infinity _ => Raise OverflowError
  | S754_nan => Raise ValueError
  end.

(** ** The generator [splitmix64] (lines 18-26) *)

Definition mask64 : Z := Z.shiftl 1 64 - 1.

(** Creating the generator: [x = seed & ((1 << 64) - 1)]. *)
Definition splitmix64 (seed : Z) : Z := Z.land seed mask64.

(** One pass through the body of [while True]: the value yielded and the
    [x] the generator is left with. *)
Definition splitmix64_next (x : Z) : Z * Z :=
  let x := Z.land (x + 0x9E3779B97F4A7C15) mask64 in
  let z := x in
  let z := Z.land (Z.lxor z (Z.shiftr z 30) * 0xBF58476D1CE4E5B9) mask64 in
  let z := Z.land (Z.lxor z (Z.shiftr z 27) * 0x94D049BB133111EB) mask64 in
  let z := Z.lxor z (Z.shiftr z 31) in
  (z, x).

(** The first [n] values [next(rnd)] returns. *)
Fixpoint draws (n : nat) (rnd : Z) : list Z :=
  match n with
  | O => []
  | S n => let '(z, rnd) := splitmix64_next rnd in z :: draws n rnd
  end.

(** The generator after [n] calls of [next]. *)
Fixpoint advance (n : nat) (rnd : Z) : Z :=
  match n with
  | O => rnd
  | S n => advance n (snd (splitmix64_next rnd))
  end.

(** ** Loops *)

(** [for a in l: body], threading the loop state and stopping at the
    first exception. *)
Fixpoint for_each {A St} (l : list A) (body : St → A → res St) (st : St)
  : res St :=
  match l with
  | [] => Ok st
  | a :: l => st ← body st a; for_each l body st
  end.

(** ** The sharded store *)

Inductive lock := Lock.

(** [l[i]] *)
Definition py_getitem {A} (l : list A) (i : Z) : res A :=
  n ← py_index (length l) i;
  match l !! n with
  | Some a => Ok a
  | None => Raise IndexError
  end.

(** [shards[s][k] = v]: the dictionary [shards[s]] is updated in place. *)
Definition py_setitem2 (shards : list (gmap Z Z)) (s k v : Z)
  : res (list (gmap Z Z)) :=
  n ← py_index (length shards) s;
  match shards !! n with
  | Some d => Ok (<[n := <[k := v]> d]> shards)
  | None => Raise IndexError
  end.

(** [d.get(k, 0)] *)
Definition dict_get (d : gmap Z Z) (k : Z) : Z := default 0 (d !! k).

(** [[dict() for _ in range(n)]] *)
Definition new_shards (n : Z) : list (gmap Z Z) := (λ _, ∅) <$> py_range n.

(** [[threading.Lock() for _ in range(n)]] *)
Definition new_locks (n : Z) : list lock := (λ _, Lock) <$> py_range n.

(** The prefill loop (lines 80-81 and 48-49):
    [for i in range(keys): shards[i % shardsN][i] = 0]. *)
Definition prefill (shards : list (gmap Z Z)) (keys shardsN : Z)
  : res (list (gmap Z Z)) :=
  for_each (py_range keys)
    (λ shards i, s ← py_mod i shardsN; py_setitem2 shards s i 0)
    shards.

(** ** Workers *)

(** The two kinds of operation: line 38 and line 41. *)
Inductive kind := Read | Write.

#[global] Instance kind_eq_dec : EqDecision kind.
Proof. solve_decision. Defined.

(** Lines 31 and 51: [reads = int(read_ratio * 1000)]. *)
Definition reads_of (read_ratio : float) : res Z :=
  py_int_of_float (PrimFloat.mul read_ratio 1000%float).

(** One access to the store, as a worker performs it: the operation, the
    key, the shard index the worker computed and what the dictionary
    held for the key before the access. *)
Record event := Event {
  ev_kind : kind;
  ev_key : Z;
  ev_shard : Z;
  ev_found : option Z
}.

(** The body of the loop of [worker_thread] (lines 33-41). The accesses
    to [shards[s]] happen while [locks[s]] is held, so the body takes
    effect on the shared store in one step. *)
Definition worker_thread_body (shards : list (gmap Z Z)) (locks : list lock)
    (keys reads rnd : Z) : res (list (gmap Z Z) * Z * event) :=
  let '(x, rnd) := splitmix64_next rnd in
  k ← py_mod x keys;
  let '(x, rnd) := splitmix64_next rnd in
  r ← py_mod x 1000;
  s ← py_mod k (Z.of_nat (length shards));
  if r <? reads then
    _ ← py_getitem locks s;
    d ← py_getitem shards s;
    let _ := dict_get d k in
    Ok (shards, rnd, Event Read k s (d !! k))
  else
    _ ← py_getitem locks s;
    d ← py_getitem shards s;
    shards ← py_setitem2 shards s k (dict_get d k + 1);
    Ok (shards, rnd, Event Write k s (d !! k)).

(** An iteration of the loop, with the access it makes added to the
    log of the worker. *)
Definition worker_thread_iteration (locks : list lock) (keys reads : Z)
    (st : list (gmap Z Z) * Z * list event) (_ : Z)
  : res (list (gmap Z Z) * Z * list event) :=
  let '(shards, rnd, log) := st in
  '(shards, rnd, ev) ← worker_thread_body shards locks keys reads rnd;
  Ok (shards, rnd, log ++ [ev]).

(** [worker_thread] run on its own, from its first line to its last:
    the store it leaves and the accesses it made. *)
Definition worker_thread (shards : list (gmap Z Z)) (locks : list lock)
    (keys per : Z) (read_ratio : float) (seed tid : Z)
  : res (list (gmap Z Z) * list event) :=
  let rnd := splitmix64 (seed + tid) in
  reads ← reads_of read_ratio;
  '(shards, _, log) ←
    for_each (py_range per)
      (worker_thread_iteration locks keys reads) (shards, rnd, []);
  Ok (shards, log).

(** The body of the loop of [worker_process] (lines 53-59). *)
Definition worker_process_body (shards : list (gmap Z Z))
    (keys shardsN reads rnd : Z) : res (list (gmap Z Z) * Z * event) :=
  let '(x, rnd) := splitmix64_next rnd in
  k ← py_mod x keys;
  let '(x, rnd) := splitmix64_next rnd in
  r ← py_mod x 1000;
  s ← py_mod k shardsN;
  if r <? reads then
    d ← py_getitem shards s;
    let _ := dict_get d k in
    Ok (shards, rnd, Event Read k s (d !! k))
  else
    d ← py_getitem shards s;
    shards ← py_setitem2 shards s k (dict_get d k + 1);
    Ok (shards, rnd, Event Write k s (d !! k)).

Definition worker_process_iteration (keys shardsN reads : Z)
    (st : list (gmap Z Z) * Z * list event) (_ : Z)
  : res (list (gmap Z Z) * Z * list event) :=
  let '(shards, rnd, log) := st in
  '(shards, rnd, ev) ← worker_process_body shards keys shardsN reads rnd;
  Ok (shards, rnd, log ++ [ev]).

(** The argument tuple of [worker_process]:
    [(keys, per, read_ratio, seed, pid, shardsN)]. *)
Definition process_args : Type := Z * Z * float * Z * Z * Z.

(** [worker_process] up to its [return]: the private store it built and
    the accesses it made. *)
Definition worker_process_run (args : process_args)
  : res (list (gmap Z Z) * list event) :=
  let '(keys, per, read_ratio, seed, pid, shardsN) := args in
  let shards := new_shards shardsN in
  shards ← prefill shards keys shardsN;
  let rnd := splitmix64 (seed + pid) in
  reads ← reads_of read_ratio;
  '(shards, _, log) ←
    for_each (py_range per)
      (worker_process_iteration keys shardsN reads) (shards, rnd, []);
  Ok (shards, log).

Definition worker_process (args : process_args) : res Z :=
  _ ← worker_process_run args; Ok 0.

(** ** The thread model: interleaved workers on one store *)

(** A thread of [worker_thread]: inside its loop with [todo] iterations
    to go, or dead from an exception it did not catch. *)
Inductive tstate :=
  | Running (rnd reads : Z) (todo : nat)
  | Crashed (e : exn).

Definition remaining (t : tstate) : nat :=
  match t with
  | Running _ _ todo => todo
  | Crashed _ => O
  end.

(** Lines 30-32: the thread's generator, its threshold and the number of
    iterations ahead of it. *)
Definition worker_thread_start (per : Z) (read_ratio : float) (seed tid : Z)
  : tstate :=
  let rnd := splitmix64 (seed + tid) in
  match reads_of read_ratio with
  | Ok reads => Running rnd reads (length (py_range per))
  | Raise e => Crashed e
  end.

Record config := Config {
  c_shards : list (gmap Z Z);
  c_threads : list tstate;
  c_log : list (nat * event)
}.

(** Thread [i] runs one iteration of its loop. *)
Definition thread_step (locks : list lock) (keys : Z) (c : config) (i : nat)
  : config :=
  match c_threads c !! i with
  | Some (Running rnd reads (S todo)) =>
      match worker_thread_body (c_shards c) locks keys reads rnd with
      | Ok (shards, rnd, ev) =>
          Config shards (<[i := Running rnd reads todo]> (c_threads c))
                 (c_log c ++ [(i, ev)])
      | Raise e =>
          Config (c_shards c) (<[i := Crashed e]> (c_threads c)) (c_log c)
      end
  | _ => c
  end.

Definition exec_schedule (locks : list lock) (keys : Z) (sched : list nat)
    (c : config) : config :=
  foldl (thread_step locks keys) c sched.

(** The iterations still owed when the schedule ends: [join] returns
    only after every thread has left its loop. *)
Definition drain_schedule (ts : list tstate) : list nat :=
  concat (imap (λ i t, replicate (remaining t) i) ts).

Definition run_threads (locks : list lock) (keys : Z) (sched : list nat)
    (c : config) : config :=
  let c := exec_schedule locks keys sched c in
  exec_schedule locks keys (drain_schedule (c_threads c)) c.

(** ** [main] *)

Record Args := {
  arg_threads : Z;
  arg_iterations : Z;
  arg_keys : Z;
  arg_read_ratio : float;
  arg_seed : Z;
  arg_model : string;
  arg_shards : Z
}.

(** What [main] takes from its collaborators: the interpreter's version
    string, the elapsed milliseconds and the resident set size. *)
Record Env := {
  env_version : string;
  env_duration_ms : Z;
  env_rss_bytes : Z
}.

Record Result := {
  res_runtime : string;
  res_model : string;
  res_threads : Z;
  res_iterations : Z;
  res_keys : Z;
  res_read_ratio : float;
  res_seed : Z;
  res_duration_ms : Z;
  res_rss_bytes : Z
}.

Inductive diagnostic :=
  | UnknownModel
  | Traceback (e : exn)
  | ThreadTraceback (tid : nat) (e : exn).

(** What the operator sees of a run: the record on standard output, if
    any, the error stream and the exit status. *)
Record outcome := {
  stdout : option Result;
  stderr : list diagnostic;
  exit_status : Z
}.

(** An exception that reaches the top level: traceback, status 1. *)
Definition uncaught (e : exn) : outcome :=
  {| stdout := None; stderr := [Traceback e]; exit_status := 1 |}.

(** The tracebacks [threading] prints for the threads that died (listed
    by thread index; the order in which they reach the stream depends on
    the schedule). *)
Definition thread_tracebacks (ts : list tstate) : list diagnostic :=
  omap (λ '(i, t), match t with
                   | Crashed e => Some (ThreadTraceback i e)
                   | Running _ _ _ => None
                   end) (imap pair ts).

(** Lines 97-109. *)
Definition report (args : Args) (env : Env) (per : Z)
    (err : list diagnostic) : outcome :=
  {| stdout := Some {|
       res_runtime := "python" +:+ env_version env;
       res_model := arg_model args;
       res_threads := arg_threads args;
       res_iterations := per * arg_threads args;
       res_keys := arg_keys args;
       res_read_ratio := arg_read_ratio args;
       res_seed := arg_seed args;
       res_duration_ms := env_duration_ms env;
       res_rss_bytes := env_rss_bytes env |};
     stderr := err;
     exit_status := 0 |}.

(** [pool.map(f, l)]: the results in order, or the exception of a worker
    raised again in the parent. *)
Definition pool_map {A B} (f : A → res B) (l : list A) : res (list B) :=
  for_each l (λ acc a, b ← f a; Ok (acc ++ [b])) [].

(** The configuration the threads start from (lines 78-87). *)
Definition threads_init (args : Args) (per : Z) (shards : list (gmap Z Z))
  : config :=
  Config shards
    ((λ i, worker_thread_start per (arg_read_ratio args) (arg_seed args) i)
       <$> py_range (arg_threads args))
    [].

(** Lines 78-88: the store is built and prefilled, the threads run as
    the schedule says and are joined. *)
Definition main_threads (args : Args) (per : Z) (sched : list nat)
  : res config :=
  let shards := new_shards (arg_shards args) in
  let locks := new_locks (arg_shards args) in
  shards ← prefill shards (arg_keys args) (arg_shards args);
  Ok (run_threads locks (arg_keys args) sched (threads_init args per shards)).

(** The argument tuples of line 92. *)
Definition process_jobs (args : Args) (per : Z) : list process_args :=
  (λ i, (arg_keys args, per, arg_read_ratio args, arg_seed args, i,
         arg_shards args)) <$> py_range (arg_threads args).

(** Lines 90-92: [mp.Pool] refuses a worker count below one. *)
Definition main_processes (args : Args) (per : Z) : res (list Z) :=
  if arg_threads args <? 1 then Raise ValueError
  else pool_map worker_process (process_jobs args per).

Definition main (args : Args) (env : Env) (sched : list nat) : outcome :=
  match py_floordiv (arg_iterations args) (arg_threads args) with
  | Raise e => uncaught e
  | Ok per =>
      if String.eqb (arg_model args) "threads" then
        match main_threads args per sched with
        | Raise e => uncaught e
        | Ok c => report args env per (thread_tracebacks (c_threads c))
        end
      else if String.eqb (arg_model args) "processes" then
        match main_processes args per with
        | Raise e => uncaught e
        | Ok _ => report args env per []
        end
      else
        {| stdout := None; stderr := [UnknownModel]; exit_status := 1 |}
  end.

(** A state the thread model passes through: the threads have run the
    iterations a schedule names, and are not joined yet. *)
Definition main_threads_at (args : Args) (per : Z) (sched : list nat)
  : res config :=
  let shards := new_shards (arg_shards args) in
  let locks := new_locks (arg_shards args) in
  shards ← prefill shards (arg_keys args) (arg_shards args);
  Ok (exec_schedule locks (arg_keys args) sched (threads_init args per shards)).

(** [c] is a state of the run: one the threads pass through, or the one
    they are joined in. *)
Definition threads_reach (args : Args) (per : Z) (c : config) : Prop :=
  (∃ sched, main_threads_at args per sched = Ok c) ∨
  (∃ sched, main_threads args per sched = Ok c).

(** ** The locks: an iteration in three steps *)

(** The model above takes an iteration of [worker_thread] as one step on
    the shared store. Here the iteration is taken apart the way the locks
    allow it to interleave: the draws and the acquisition of [locks[s]];
    the evaluation of [shards[s].get(k, 0)]; the assignment to
    [shards[s][k]] and the release. Every execution of these small steps
    is matched by an execution of whole iterations. *)

Inductive fstate :=
  | FRunning (rnd reads : Z) (todo : nat)
  | FHolding (rnd reads : Z) (todo : nat) (k r s : Z) (p : nat)
  | FFetched (rnd reads : Z) (todo : nat) (k s : Z) (p : nat)
             (v : Z) (found : option Z)
  | FCrashed (e : exn).

(** [f_locks] names the thread that holds each lock, if any. *)
Record fconfig := FConfig {
  f_shards : list (gmap Z Z);
  f_locks : list (option nat);
  f_threads : list fstate;
  f_log : list (nat * event)
}.

(** Lines 33-35: the two draws and the shard index. *)
Definition worker_thread_draw (nshards : nat) (keys rnd : Z)
  : res (Z * Z * Z * Z) :=
  let '(x, rnd) := splitmix64_next rnd in
  k ← py_mod x keys;
  let '(x, rnd) := splitmix64_next rnd in
  r ← py_mod x 1000;
  s ← py_mod k (Z.of_nat nshards);
  Ok (k, r, s, rnd).

(** What the thread does once it has drawn: lines 36-41. *)
Definition worker_thread_access (shards : list (gmap Z Z)) (locks : list lock)
    (reads k r s rnd : Z) : res (list (gmap Z Z) * Z * event) :=
  if r <? reads then
    _ ← py_getitem locks s;
    d ← py_getitem shards s;
    Ok (shards, rnd, Event Read k s (d !! k))
  else
    _ ← py_getitem locks s;
    d ← py_getitem shards s;
    shards ← py_setitem2 shards s k (dict_get d k + 1);
    Ok (shards, rnd, Event Write k s (d !! k)).

(** Leaving [with locks[s]] through an exception releases the lock. *)
Definition fine_crash (f : fconfig) (i : nat) (locks : list (option nat))
    (e : exn) : fconfig :=
  FConfig (f_shards f) locks (<[i := FCrashed e]> (f_threads f)) (f_log f).

Definition fine_step (keys : Z) (f : fconfig) (i : nat) : fconfig :=
  match f_threads f !! i with
  | Some (FRunning rnd reads (S todo)) =>
      match worker_thread_draw (length (f_shards f)) keys rnd with
      | Raise e => fine_crash f i (f_locks f) e
      | Ok (k, r, s, rnd) =>
          match py_index (length (f_locks f)) s with
          | Raise e => fine_crash f i (f_locks f) e
          | Ok p =>
              (* [with locks[s]]: entered when the lock is free *)
              match f_locks f !! p with
              | Some None =>
                  FConfig (f_shards f) (<[p := Some i]> (f_locks f))
                    (<[i := FHolding rnd reads todo k r s p]> (f_threads f))
                    (f_log f)
              | _ => f
              end
          end
      end
  | Some (FHolding rnd reads todo k r s p) =>
      match py_getitem (f_shards f) s with
      | Raise e => fine_crash f i (<[p := None]> (f_locks f)) e
      | Ok d =>
          if r <? reads then
            (* line 38, and the lock released *)
            FConfig (f_shards f) (<[p := None]> (f_locks f))
              (<[i := FRunning rnd reads todo]> (f_threads f))
              (f_log f ++ [(i, Event Read k s (d !! k))])
          else
            (* line 41, the right-hand side *)
            FConfig (f_shards f) (f_locks f)
              (<[i := FFetched rnd reads todo k s p (dict_get d k) (d !! k)]>
                 (f_threads f))
              (f_log f)
      end
  | Some (FFetched rnd reads todo k s p v found) =>
      (* line 41, the assignment, and the lock released *)
      match py_setitem2 (f_shards f) s k (v + 1) with
      | Raise e => fine_crash f i (<[p := None]> (f_locks f)) e
      | Ok shards =>
          FConfig shards (<[p := None]> (f_locks f))
            (<[i := FRunning rnd reads todo]> (f_threads f))
            (f_log f ++ [(i, Event Write k s found)])
      end
  | _ => f
  end.

Definition fine_exec (keys : Z) (sched : list nat) (f : fconfig) : fconfig :=
  foldl (fine_step keys) f sched.

(** A thread before its first step. *)
Definition fine_thread (t : tstate) : fstate :=
  match t with
  | Running rnd reads todo => FRunning rnd reads todo
  | Crashed e => FCrashed e
  end.

Definition fine_init (c : config) : fconfig :=
  FConfig (c_shards c) (replicate (length (c_shards c)) None)
    (fine_thread <$> c_threads c) (c_log c).

(** The thread model with the locks in it: the store is prefilled, the
    threads take the small steps a schedule names. *)
Definition main_threads_fine (args : Args) (per : Z) (fsched : list nat)
  : res fconfig :=
  let shards := new_shards (arg_shards args) in
  shards ← prefill shards (arg_keys args) (arg_shards args);
  Ok (fine_exec (arg_keys args) fsched
        (fine_init (threads_init args per shards))).

(** The store and the accesses made so far, in a state of a run of the
    thread model: after the iterations a schedule names, after the join,
    or between the small steps of the model with locks. *)
Definition threads_state (args : Args) (per : Z) (shards : list (gmap Z Z))
    (log : list event) : Prop :=
  (∃ sched c, main_threads_at args per sched = Ok c ∧
     shards = c_shards c ∧ log = (c_log c).*2) ∨
  (∃ sched c, main_threads args per sched = Ok c ∧
     shards = c_shards c ∧ log = (c_log c).*2) ∨
  (∃ fsched f, main_threads_fine args per fsched = Ok f ∧
     shards = f_shards f ∧ log = (f_log f).*2).

(** * The vocabulary of the specification *)

(** The reference generator, after the words of the specification: all
    arithmetic modulo [2^64]. *)
Module Reference.

Definition next (state : Z) : Z * Z :=
  let state := (state + 0x9E3779B97F4A7C15) mod 2 ^ 64 in
  let z := state in
  let z := Z.lxor z (Z.shiftr z 30) in
  let z := (z * 0xBF58476D1CE4E5B9) mod 2 ^ 64 in
  let z := Z.lxor z (Z.shiftr z 27) in
  let z := (z * 0x94D049BB133111EB) mod 2 ^ 64 in
  let z := Z.lxor z (Z.shiftr z 31) in
  (z, state).

Fixpoint sequence (n : nat) (state : Z) : list Z :=
  match n with
  | O => []
  | S n => let '(z, state) := next state in z :: sequence n state
  end.

End Reference.

(** The workload of the specification: per operation two draws of the
    reference generator, the key from the first, the kind from the
    second. *)
Module Workload.

Definition operation (K thr state : Z) : kind * Z * Z :=
  let '(a, state) := Reference.next state in
  let key := a mod K in
  let '(b, state) := Reference.next state in
  let r := b mod 1000 in
  (if r <? thr then Read else Write, key, state).

Fixpoint operations (n : nat) (K thr state : Z) : list (kind * Z) :=
  match n with
  | O => []
  | S n =>
      let '(op, state) := operation K thr state in
      op :: operations n K thr state
  end.

End Workload.

(** The thresholds of the specification: [floor] of the binary64 product
    [ρ * 1000]. *)
Definition SF_floor (f : spec_float) : option Z :=
  match f with
  | S754_zero _ => Some 0
  | S754_finite s m e =>
      let n := if s then Z.neg m else Z.pos m in
      Some (if 0 <=? e then n * 2 ^ e else n / 2 ^ (- e))
  | S754_infinity _ | S754_nan => None
  end.

Definition threshold (ρ : float) : option Z :=
  SF_floor (Prim2SF (PrimFloat.mul ρ 1000%float)).

Definition ev_op (ev : event) : kind * Z := (ev_kind ev, ev_key ev).

(** The prefilled store: [S] shards, shard [j] holding exactly the keys
    of [[0, K)] that are [j] modulo [S], each with counter 0. *)
Definition prefilled (K S : Z) (shards : list (gmap Z Z)) : Prop :=
  length shards = Z.to_nat S ∧
  ∀ (j : nat) d, shards !! j = Some d →
    ∀ k, d !! k = if decide (0 ≤ k < K ∧ k mod S = Z.of_nat j) then Some 0
                  else None.

(** The counter the store holds for a key, looked up in the shard the
    key routes to. *)
Definition store_get (S : Z) (shards : list (gmap Z Z)) (k : Z) : option Z :=
  shards !! Z.to_nat (k mod S) ≫= (.!! k).

(** The keys of the store. *)
Definition store_keys (shards : list (gmap Z Z)) : gset Z :=
  ⋃ (dom <$> shards).

(** The keys of a prefilled store, shard by shard. *)
Definition keys_routed (K S : Z) (shards : list (gmap Z Z)) : Prop :=
  length shards = Z.to_nat S ∧
  ∀ (j : nat) d k, shards !! j = Some d →
    (is_Some (d !! k) ↔ 0 ≤ k < K ∧ k mod S = Z.of_nat j).

(** Every key a shard holds routes to that shard. *)
Definition routed (S : Z) (shards : list (gmap Z Z)) : Prop :=
  ∀ (j : nat) d k, shards !! j = Some d → is_Some (d !! k) →
    k mod S = Z.of_nat j.

Definition ev_routed (S : Z) (ev : event) : Prop :=
  ev_shard ev = ev_key ev mod S.

Definition ev_found_in (K : Z) (ev : event) : Prop :=
  0 ≤ ev_key ev < K ∧ is_Some (ev_found ev).

(** The accesses of thread [i], in the order it made them. *)
Definition thread_log (i : nat) (log : list (nat * event)) : list event :=
  (filter (λ p, p.1 = i) log).*2.

(** The number of writes to a key among some accesses. *)
Definition writes_to (k : Z) (log : list event) : nat :=
  length (filter (λ ev, ev_kind ev = Write ∧ ev_key ev = k) log).

(** What holds of store and log whatever the threshold, with [K ≥ 1]
    keys: the key sets stay, and every counter is the number of writes
    to its key. *)
Definition counted (K S : Z) (sh : list (gmap Z Z)) (log : list event) : Prop :=
  keys_routed K S sh ∧
  ∀ k, default 0 (store_get S sh k) = Z.of_nat (writes_to k log).

(** A fatal error, as the operator sees it: no record, a diagnostic on
    the error stream, a non-zero exit status. *)
Definition fatal (o : outcome) : Prop :=
  stdout o = None ∧ stderr o ≠ [] ∧ exit_status o ≠ 0.

(** * Invariants *)

Definition drain_from (o : nat) (ts : list tstate) : list nat :=
  concat (imap (λ i t, replicate (remaining t) (o + i)%nat) ts).

(** An iteration keeps [P], a property of the store and of the accesses
    made so far, for thresholds that satisfy [R]. *)
Definition body_preserves (K S : Z) (R : Z → Prop)
    (P : list (gmap Z Z) → list event → Prop) : Prop :=
  ∀ sh log rnd reads sh' rnd' ev,
    1 ≤ S → length sh = Z.to_nat S → R reads → P sh log →
    worker_process_body sh K S reads rnd = Ok (sh', rnd', ev) →
    P sh' (log ++ [ev]).

(** An invariant of the store and the log, for threads whose
    thresholds satisfy [R]. *)
Definition store_inv (locks : list lock) (R : Z → Prop)
    (P : list (gmap Z Z) → list (nat * event) → Prop) (c : config) : Prop :=
  length (c_shards c) = length locks ∧
  (∀ i rnd reads todo,
     c_threads c !! i = Some (Running rnd reads todo) → R reads) ∧
  P (c_shards c) (c_log c).

(** Where each thread is in its stream of operations. *)
Definition trace_inv (locks : list lock) (K reads0 thr : Z) (n : nat)
    (seed : Z) (c : config) : Prop :=
  length (c_shards c) = length locks ∧
  ∀ i rnd reads todo,
    c_threads c !! i = Some (Running rnd reads todo) →
    let st := splitmix64 (seed + Z.of_nat i) in
    reads = reads0 ∧ (todo ≤ n)%nat ∧
    rnd = advance (2 * (n - todo)) st ∧
    ev_op <$> thread_log i (c_log c) = Workload.operations (n - todo) K thr st.

(** With a key count other than zero and [S ≥ 1] shards and locks, no
    thread dies. *)
Definition alive_inv (S : Z) (c : config) : Prop :=
  length (c_shards c) = Z.to_nat S ∧
  ∀ i e, c_threads c !! i ≠ Some (Crashed e).

(** The lock a thread holds, if it is inside [with]. *)
Definition in_section (ft : fstate) (p : nat) : Prop :=
  match ft with
  | FHolding _ _ _ _ _ _ p' | FFetched _ _ _ _ _ p' _ _ => p' = p
  | FRunning _ _ _ | FCrashed _ => False
  end.

(** A thread inside [with locks[s]] has not made its access yet: seen
    from outside it is still at the head of its loop. *)
Definition thread_rel (keys : Z) (f : fconfig) (i : nat) (ft : fstate)
    (ct : tstate) : Prop :=
  match ft with
  | FRunning rnd reads todo => ct = Running rnd reads todo
  | FCrashed e => ct = Crashed e
  | FHolding rnd' reads todo k r s p =>
      ∃ rnd, ct = Running rnd reads (S todo) ∧
        worker_thread_draw (length (f_shards f)) keys rnd = Ok (k, r, s, rnd') ∧
        py_index (length (f_shards f)) s = Ok p ∧
        f_locks f !! p = Some (Some i)
  | FFetched rnd' reads todo k s p v found =>
      ∃ rnd r d, ct = Running rnd reads (S todo) ∧
        worker_thread_draw (length (f_shards f)) keys rnd = Ok (k, r, s, rnd') ∧
        (r <? reads) = false ∧
        py_index (length (f_shards f)) s = Ok p ∧
        f_locks f !! p = Some (Some i) ∧
        f_shards f !! p = Some d ∧ v = dict_get d k ∧ found = d !! k
  end.

Definition fine_rel (locks : list lock) (keys : Z) (f : fconfig) (c : config)
  : Prop :=
  c_shards c = f_shards f ∧ c_log c = f_log f ∧
  length (f_locks f) = length (f_shards f) ∧
  length locks = length (f_shards f) ∧
  (∀ i ft, f_threads f !! i = Some ft →
     ∃ ct, c_threads c !! i = Some ct ∧ thread_rel keys f i ft ct) ∧
  (∀ p i, f_locks f !! p = Some (Some i) →
     ∃ ft, f_threads f !! i = Some ft ∧ in_section ft p).

(** * Concrete inputs *)

(** Two workers on ten keys and two shards, half of the operations
    reads. *)
Definition demo_args : Args :=
  {| arg_threads := 2; arg_iterations := 8; arg_keys := 10;
     arg_read_ratio := 0.5; arg_seed := 1; arg_model := "threads";
     arg_shards := 2 |}.

Definition demo_env : Env :=
  {| env_version := "3.12.0"; env_duration_ms := 12; env_rss_bytes := 4096 |}.

(** The scenario of the specification: ten keys, two shards, seed 1, one
    worker, four iterations, writes only. *)
Definition scenario_args : Args :=
  {| arg_threads := 1; arg_iterations := 4; arg_keys := 10;
     arg_read_ratio := 0; arg_seed := 1; arg_model := "threads";
     arg_shards := 2 |}.

(** One worker writing three times to the only key there is. *)
Definition one_key_args : Args :=
  {| arg_threads := 1; arg_iterations := 3; arg_keys := 1;
     arg_read_ratio := 0; arg_seed := 7; arg_model := "threads";
     arg_shards := 2 |}.

Definition read_only_args : Args :=
  {| arg_threads := 2; arg_iterations := 8; arg_keys := 10;
     arg_read_ratio := 1; arg_seed := 1; arg_model := "threads";
     arg_shards := 2 |}.

(** Seven iterations over three workers. *)
Definition uneven_args : Args :=
  {| arg_threads := 3; arg_iterations := 7; arg_keys := 10;
     arg_read_ratio := 0.5; arg_seed := 42; arg_model := "processes";
     arg_shards := 4 |}.

Definition gevent_args : Args :=
  {| arg_threads := 8; arg_iterations := 100; arg_keys := 10;
     arg_read_ratio := 0.5; arg_seed := 42; arg_model := "gevent";
     arg_shards := 4 |}.

(** No key, in the thread model. *)
Definition no_keys_args : Args :=
  {| arg_threads := 1; arg_iterations := 1; arg_keys := 0;
     arg_read_ratio := 0.5; arg_seed := 42; arg_model := "threads";
     arg_shards := 64 |}.

(** The same counts, in the process model. *)
Definition no_keys_sibling_args : Args :=
  {| arg_threads := 1; arg_iterations := 1; arg_keys := 0;
     arg_read_ratio := 0.5; arg_seed := 42; arg_model := "processes";
     arg_shards := 64 |}.

(** No key, in the process model. *)
Definition no_keys_processes_args : Args :=
  {| arg_threads := 2; arg_iterations := 4; arg_keys := 0;
     arg_read_ratio := 0.5; arg_seed := 42; arg_model := "processes";
     arg_shards := 4 |}.

(** * Further vocabulary *)

(** ** The generator as a permutation of the 64-bit values *)

(** Lines 23-25 on their own: what [splitmix64] yields for the [x] that
    line 22 has just computed. *)
Definition splitmix64_mix (x : Z) : Z :=
  let z := x in
  let z := Z.land (Z.lxor z (Z.shiftr z 30) * 0xBF58476D1CE4E5B9) mask64 in
  let z := Z.land (Z.lxor z (Z.shiftr z 27) * 0x94D049BB133111EB) mask64 in
  Z.lxor z (Z.shiftr z 31).

(** Undoing [z ^ (z >> s)] on a 64-bit value, for a shift [s] with
    [3 * s ≥ 64]. *)
Definition unxorshift (s z : Z) : Z :=
  Z.lxor z (Z.lxor (Z.shiftr z s) (Z.shiftr z (2 * s))).

(** Lines 25, 24 and 23 undone in this order; the two constants are the
    inverses modulo [2^64] of the multipliers of lines 24 and 23. *)
Definition splitmix64_unmix (z : Z) : Z :=
  let z := unxorshift 31 z in
  let z := Z.land (z * 0x319642B2D24D8EC3) mask64 in
  let z := unxorshift 27 z in
  let z := Z.land (z * 0x96DE1B173F119089) mask64 in
  unxorshift 30 z.

(** ** States of a run *)

(** The store and the accesses made so far in a state of a run, in
    either model: a state of the thread model, or what a worker process
    returns with. *)
Definition run_state (args : Args) (per : Z) (sh : list (gmap Z Z))
    (log : list event) : Prop :=
  threads_state args per sh log ∨
  ∃ job, job ∈ process_jobs args per ∧ worker_process_run job = Ok (sh, log).

(** ** Counting writes *)

(** The number of writes to a key among some operations. *)
Definition op_writes (k : Z) (ops : list (kind * Z)) : nat :=
  length (filter (λ op, op = (Write, k)) ops).

(** The operations of worker [i]: [per] operations of the workload of
    the specification, from the seed [seed + i]. *)
Definition worker_ops (args : Args) (per thr i : Z) : list (kind * Z) :=
  Workload.operations (Z.to_nat per) (arg_keys args) thr
    ((arg_seed args + i) mod 2 ^ 64).

(** The writes to a key of all the workers together. *)
Definition total_writes (args : Args) (per thr k : Z) : Z :=
  Z.of_nat (sum_list ((λ i, op_writes k (worker_ops args per thr i))
                        <$> py_range (arg_threads args))).

(** The counters of a key in several stores, added up. *)
Definition counter_sum (S : Z) (stores : list (list (gmap Z Z))) (k : Z) : Z :=
  foldr (λ sh acc, default 0 (store_get S sh k) + acc) 0 stores.

(** ** Work left in the model with locks *)

(** The small steps a thread still has to take, at most: three for each
    iteration ahead, two once it holds the lock, one once it has read. *)
Definition fine_todo (ft : fstate) : nat :=
  match ft with
  | FRunning _ _ todo => 3 * todo
  | FHolding _ _ todo _ _ _ _ => 3 * todo + 2
  | FFetched _ _ todo _ _ _ _ _ => 3 * todo + 1
  | FCrashed _ => 0
  end.

(** ** Further inputs *)

(** A read ratio that is not a number. *)
Definition nan_args : Args :=
  {| arg_threads := 2; arg_iterations := 8; arg_keys := 10;
     arg_read_ratio := nan; arg_seed := 1; arg_model := "threads";
     arg_shards := 2 |}.

(** A negative worker count. *)
Definition negative_threads_args : Args :=
  {| arg_threads := -8; arg_iterations := 100; arg_keys := 10;
     arg_read_ratio := 0.5; arg_seed := 42; arg_model := "threads";
     arg_shards := 4 |}.

(** A negative key count, writes only. *)
Definition negative_keys_args : Args :=
  {| arg_threads := 2; arg_iterations := 8; arg_keys := -10;
     arg_read_ratio := 0; arg_seed := 1; arg_model := "threads";
     arg_shards := 2 |}.

(** A read ratio of 2. *)
Definition saturated_args : Args :=
  {| arg_threads := 2; arg_iterations := 8; arg_keys := 10;
     arg_read_ratio := 2; arg_seed := 1; arg_model := "threads";
     arg_shards := 2 |}.

(** Two writers on the only key of the only shard. *)
Definition two_writers_args : Args :=
  {| arg_threads := 2; arg_iterations := 2; arg_keys := 1;
     arg_read_ratio := 0; arg_seed := 3; arg_model := "threads";
     arg_shards := 1 |}.

(** * Properties *)

(** ** The result monad and the Python primitives *)

Lemma bind_Ok {A B} (a : A) (f : A → res B) : (Ok a ≫= f) = f a.
Proof. reflexivity. Qed.

Lemma bind_Raise {A B} (e : exn) (f : A → res B) : (Raise e ≫= f) = Raise e.
Proof. reflexivity. Qed.

Lemma bind_Ok_inv {A B} (m : res A) (f : A → res B) (b : B) :
  (m ≫= f) = Ok b → ∃ a, m = Ok a ∧ f a = Ok b.
Proof. destruct m as [a|e]; [eauto | discriminate]. Qed.

Lemma py_mod_Ok a b : b ≠ 0 → py_mod a b = Ok (a mod b).
Proof. intros Hb. unfold py_mod. by apply Z.eqb_neq in Hb as ->. Qed.

Lemma py_mod_zero a : py_mod a 0 = Raise ZeroDivisionError.
Proof. reflexivity. Qed.

Lemma py_mod_Ok_inv a b r : py_mod a b = Ok r → b ≠ 0 ∧ r = a mod b.
Proof.
  unfold py_mod. destruct (Z.eqb_spec b 0); [discriminate|].
  by intros [= <-].
Qed.

Lemma py_floordiv_Ok a b : b ≠ 0 → py_floordiv a b = Ok (a / b).
Proof. intros Hb. unfold py_floordiv. by apply Z.eqb_neq in Hb as ->. Qed.

Lemma py_index_nonneg n i :
  0 ≤ i < Z.of_nat n → py_index n i = Ok (Z.to_nat i).
Proof.
  intros [H1 H2]. unfold py_index.
  apply Z.leb_le in H1 as ->. by apply Z.ltb_lt in H2 as ->.
Qed.

Lemma py_index_Ok_inv n i p : py_index n i = Ok p → (p < n)%nat.
Proof.
  unfold py_index.
  destruct (Z.leb_spec 0 i), (Z.ltb_spec i (Z.of_nat n)); simpl;
    try (intros [= <-]; lia);
    destruct (Z.leb_spec (- Z.of_nat n) i), (Z.ltb_spec i 0); simpl;
    try discriminate; intros [= <-]; lia.
Qed.

Lemma py_getitem_nonneg {A} (l : list A) i a :
  0 ≤ i → l !! Z.to_nat i = Some a → py_getitem l i = Ok a.
Proof.
  intros Hi Hl. unfold py_getitem.
  rewrite py_index_nonneg, bind_Ok, Hl; [done|].
  apply lookup_lt_Some in Hl. lia.
Qed.

Lemma py_getitem_Ok_inv {A} (l : list A) i a :
  py_getitem l i = Ok a →
  ∃ p, py_index (length l) i = Ok p ∧ l !! p = Some a.
Proof.
  unfold py_getitem. intros (p & Hp & H)%bind_Ok_inv.
  exists p. split; [done|]. destruct (l !! p); by inversion H.
Qed.

(** Two lists of one length accept the same indices. *)
Lemma py_getitem_is_ok {A B} (l : list A) (l' : list B) i :
  length l = length l' → is_ok (py_getitem l i) = is_ok (py_getitem l' i).
Proof.
  intros Hlen. unfold py_getitem. rewrite Hlen.
  destruct (py_index (length l') i) as [p|e] eqn:Hp; [|done].
  rewrite !bind_Ok. apply py_index_Ok_inv in Hp.
  destruct (lookup_lt_is_Some_2 l p) as [a ->]; [lia|].
  by destruct (lookup_lt_is_Some_2 l' p) as [b ->].
Qed.

Lemma py_getitem_Raise {A} (l : list A) i e :
  py_getitem l i = Raise e → e = IndexError.
Proof.
  unfold py_getitem.
  destruct (py_index (length l) i) as [p|e'] eqn:Hp.
  - rewrite bind_Ok. destruct (l !! p); [discriminate | by intros [= <-]].
  - rewrite bind_Raise. intros [= <-].
    unfold py_index in Hp. repeat case_match; congruence.
Qed.

(** ** The generator *)

Lemma land_mask64 a : Z.land a mask64 = a mod 2 ^ 64.
Proof. change mask64 with (Z.ones 64). by rewrite Z.land_ones. Qed.

Lemma splitmix64_next_reference x : splitmix64_next x = Reference.next x.
Proof.
  unfold splitmix64_next, Reference.next. cbv zeta.
  by rewrite !land_mask64.
Qed.

Lemma draws_reference n x : draws n x = Reference.sequence n x.
Proof.
  revert x. induction n as [|n IH]; intros x; [done|].
  cbn [draws Reference.sequence]. rewrite splitmix64_next_reference.
  destruct (Reference.next x) as [z x']. by rewrite IH.
Qed.

Lemma splitmix64_next_range x :
  0 ≤ (splitmix64_next x).1 < 2 ^ 64 ∧ 0 ≤ (splitmix64_next x).2 < 2 ^ 64.
Proof.
  unfold splitmix64_next. cbv zeta. cbn [fst snd].
  rewrite !land_mask64.
  set (x1 := (x + _) mod 2 ^ 64).
  set (z1 := (Z.lxor x1 _ * _) mod 2 ^ 64).
  set (z2 := (Z.lxor z1 _ * _) mod 2 ^ 64).
  assert (0 ≤ x1 < 2 ^ 64) by (apply Z.mod_pos_bound; lia).
  assert (Hz2 : 0 ≤ z2 < 2 ^ 64) by (apply Z.mod_pos_bound; lia).
  split; [|done].
  assert (Hsh : 0 ≤ z2 ≫ 31 < 2 ^ 64).
  { rewrite Z.shiftr_div_pow2 by lia. split.
    - apply Z.div_pos; lia.
    - apply Z.div_lt_upper_bound; lia. }
  split.
  - apply Z.lxor_nonneg. lia.
  - destruct (Z.eq_dec (Z.lxor z2 (z2 ≫ 31)) 0) as [->|Hne]; [lia|].
    apply Z.log2_lt_pow2.
    + assert (0 ≤ Z.lxor z2 (z2 ≫ 31)) by (apply Z.lxor_nonneg; lia). lia.
    + eapply Z.le_lt_trans; [apply Z.log2_lxor; lia|].
      destruct (Z.eq_dec z2 0) as [->|Hz]; [done|].
      apply Z.max_lub_lt.
      * apply Z.log2_lt_pow2; lia.
      * destruct (Z.eq_dec (z2 ≫ 31) 0) as [->|Hs]; [done|].
        apply Z.log2_lt_pow2; lia.
Qed.

Lemma advance_add n m x : advance (n + m) x = advance m (advance n x).
Proof. revert x. induction n as [|n IH]; intros x; [done|]. apply IH. Qed.

(** ** The threshold *)

Lemma SF_magnitude_nonneg m e : 0 ≤ SF_magnitude m e.
Proof.
  unfold SF_magnitude. destruct (Z.leb_spec 0 e).
  - apply Z.mul_nonneg_nonneg; [lia|]. apply Z.pow_nonneg. lia.
  - apply Z.div_pos; [lia|]. apply Z.pow_pos_nonneg; lia.
Qed.

(** [int] truncates and the specification floors: on the remainders a
    worker compares with the threshold, the two agree. *)
Lemma int_threshold f reads :
  py_int_of_float f = Ok reads →
  ∃ thr, SF_floor (Prim2SF f) = Some thr ∧
         ∀ r, 0 ≤ r → (r <? reads) = (r <? thr).
Proof.
  unfold py_int_of_float, SF_floor.
  destruct (Prim2SF f) as [s|s| |s m e]; try discriminate.
  - intros [= <-]. eauto.
  - intros [= <-]. eexists. split; [done|]. intros r Hr.
    pose proof (SF_magnitude_nonneg m e) as Hmag.
    destruct s.
    + assert ((if 0 <=? e then Z.neg m * 2 ^ e else Z.neg m / 2 ^ (- e)) ≤ 0).
      { destruct (Z.leb_spec 0 e).
        - assert (0 ≤ 2 ^ e) by (apply Z.pow_nonneg; lia). nia.
        - assert (0 < 2 ^ (- e)) by (apply Z.pow_pos_nonneg; lia).
          assert (Z.neg m / 2 ^ (- e) < 1); [|lia].
          apply Z.div_lt_upper_bound; lia. }
      destruct (Z.ltb_spec r (- SF_magnitude m e)),
               (Z.ltb_spec r (if 0 <=? e then Z.neg m * 2 ^ e
                              else Z.neg m / 2 ^ (- e))); lia.
    + done.
Qed.

Lemma threshold_int ρ thr :
  threshold ρ = Some thr →
  ∃ reads, reads_of ρ = Ok reads ∧
           ∀ r, 0 ≤ r → (r <? reads) = (r <? thr).
Proof.
  unfold threshold. intros Hthr.
  destruct (reads_of ρ) as [reads|e] eqn:Hint.
  - exists reads. split; [done|].
    destruct (int_threshold _ _ Hint) as (thr' & Hthr' & Hcmp).
    by assert (thr' = thr) as -> by congruence.
  - unfold reads_of, py_int_of_float, SF_floor in *.
    destruct (Prim2SF (PrimFloat.mul ρ 1000)); discriminate.
Qed.

(** ** Loops *)

Lemma for_each_app {A St} (l1 l2 : list A) (body : St → A → res St) st :
  for_each (l1 ++ l2) body st =
  (st ← for_each l1 body st; for_each l2 body st).
Proof.
  revert st. induction l1 as [|a l1 IH]; intros st; [done|].
  cbn [for_each app]. destruct (body st a) as [st'|e]; [|done].
  rewrite !bind_Ok. apply IH.
Qed.

(** A loop invariant: what holds before the loop and is kept by every
    iteration that returns, holds after a loop that returns. *)
Lemma for_each_invariant {A St} (P : St → Prop) (l : list A)
    (body : St → A → res St) st st' :
  (∀ st a st', a ∈ l → P st → body st a = Ok st' → P st') →
  P st → for_each l body st = Ok st' → P st'.
Proof.
  revert st. induction l as [|a l IH]; intros st Hbody HP; cbn [for_each].
  - by intros [= <-].
  - intros (st1 & H1 & H2)%bind_Ok_inv.
    eapply IH; [|apply (Hbody st a st1); [left|done..]|done].
    intros ??? Hin. apply Hbody. by right.
Qed.

Lemma py_range_length n : length (py_range n) = Z.to_nat n.
Proof. apply length_seqZ. Qed.

Lemma py_range_nonpos n : n ≤ 0 → py_range n = [].
Proof.
  intros Hn. apply nil_length_inv. rewrite py_range_length. lia.
Qed.

Lemma py_range_succ (n : nat) :
  py_range (Z.of_nat (S n)) = py_range (Z.of_nat n) ++ [Z.of_nat n].
Proof.
  unfold py_range.
  replace (Z.of_nat (S n)) with (Z.of_nat n + 1) by lia.
  rewrite seqZ_app by lia. done.
Qed.

Lemma py_range_first n : 1 ≤ n → ∃ l, py_range n = 0 :: l.
Proof.
  intros Hn. unfold py_range. rewrite seqZ_cons by lia. eauto.
Qed.

Lemma new_shards_length n : length (new_shards n) = Z.to_nat n.
Proof. unfold new_shards. by rewrite length_fmap, py_range_length. Qed.

Lemma new_locks_length n : length (new_locks n) = Z.to_nat n.
Proof. unfold new_locks. by rewrite length_fmap, py_range_length. Qed.

Lemma new_shards_lookup n j d : new_shards n !! j = Some d → d = ∅.
Proof.
  unfold new_shards. rewrite list_lookup_fmap.
  destruct (py_range n !! j); by intros [= <-].
Qed.

(** ** One iteration of a worker *)

Lemma py_setitem2_Ok_inv shards s k v shards' :
  py_setitem2 shards s k v = Ok shards' →
  ∃ p d, py_index (length shards) s = Ok p ∧ shards !! p = Some d ∧
         shards' = <[p := <[k := v]> d]> shards.
Proof.
  unfold py_setitem2. intros (p & Hp & H)%bind_Ok_inv.
  exists p. destruct (shards !! p) as [d|]; [|done].
  exists d. by inversion H.
Qed.

Lemma py_setitem2_length shards s k v shards' :
  py_setitem2 shards s k v = Ok shards' → length shards' = length shards.
Proof.
  intros (p & d & _ & _ & ->)%py_setitem2_Ok_inv. apply length_insert.
Qed.

(** What an iteration that returns has done: two draws, the key from
    the first and the kind from the second, one access to the shard the
    key selects. *)
Lemma worker_process_body_inv shards keys shardsN reads rnd shards' rnd' ev :
  worker_process_body shards keys shardsN reads rnd = Ok (shards', rnd', ev) →
  let x1 := (splitmix64_next rnd).1 in
  let x2 := (splitmix64_next (splitmix64_next rnd).2).1 in
  let k := x1 mod keys in
  let r := x2 mod 1000 in
  let s := k mod shardsN in
  keys ≠ 0 ∧ shardsN ≠ 0 ∧ rnd' = advance 2 rnd ∧
  ∃ p d, py_index (length shards) s = Ok p ∧ shards !! p = Some d ∧
    ev = Event (if r <? reads then Read else Write) k s (d !! k) ∧
    shards' = if r <? reads then shards
              else <[p := <[k := dict_get d k + 1]> d]> shards.
Proof.
  unfold worker_process_body. cbn [advance].
  destruct (splitmix64_next rnd) as [x1 rnd1]. cbn [fst snd].
  destruct (splitmix64_next rnd1) as [x2 rnd2]. cbn [fst snd].
  intros (k & [Hkeys ->]%py_mod_Ok_inv & H)%bind_Ok_inv.
  apply bind_Ok_inv in H as (r & [_ ->]%py_mod_Ok_inv & H).
  apply bind_Ok_inv in H as (s & [HS ->]%py_mod_Ok_inv & H).
  cbv zeta. do 2 (split; [done|]).
  destruct (x2 mod 1000 <? reads).
  - apply bind_Ok_inv in H as (d & (p & Hp & Hd)%py_getitem_Ok_inv & H).
    inversion H; subst. split; [done|]. eauto 10.
  - apply bind_Ok_inv in H as (d & (p & Hp & Hd)%py_getitem_Ok_inv & H).
    apply bind_Ok_inv in H as (sh & Hset & H).
    apply py_setitem2_Ok_inv in Hset as (p' & d' & Hp' & Hd' & ->).
    assert (p' = p) as -> by congruence.
    assert (d' = d) as -> by congruence.
    inversion H; subst. split; [done|]. eauto 10.
Qed.

(** With a key count other than zero and as many shards as [shardsN]
    says, an iteration returns. *)
Lemma worker_process_body_Ok shards keys shardsN reads rnd :
  keys ≠ 0 → 1 ≤ shardsN → length shards = Z.to_nat shardsN →
  is_ok (worker_process_body shards keys shardsN reads rnd) = true.
Proof.
  intros Hkeys HS Hlen. unfold worker_process_body.
  destruct (splitmix64_next rnd) as [x1 rnd1].
  destruct (splitmix64_next rnd1) as [x2 rnd2].
  rewrite (py_mod_Ok x1), bind_Ok by lia.
  rewrite (py_mod_Ok x2), bind_Ok by lia.
  rewrite py_mod_Ok, bind_Ok by lia.
  set (k := x1 mod keys). set (s := k mod shardsN).
  assert (Hs : 0 ≤ s < shardsN) by (apply Z.mod_pos_bound; lia).
  destruct (lookup_lt_is_Some_2 shards (Z.to_nat s)) as [d Hd]; [lia|].
  rewrite (py_getitem_nonneg _ _ d), !bind_Ok by (done || lia).
  destruct (_ <? reads); [done|].
  unfold py_setitem2. rewrite py_index_nonneg, bind_Ok, Hd by lia. done.
Qed.

(** The thread's iteration is the process's, on a store of
    [len(shards)] shards with one lock each. *)
Lemma worker_thread_body_process shards locks keys reads rnd :
  length locks = length shards →
  worker_thread_body shards locks keys reads rnd =
  worker_process_body shards keys (Z.of_nat (length shards)) reads rnd.
Proof.
  intros Hlen. unfold worker_thread_body, worker_process_body.
  destruct (splitmix64_next rnd) as [x1 rnd1].
  destruct (splitmix64_next rnd1) as [x2 rnd2].
  destruct (py_mod x1 keys) as [k|e]; [|done]. rewrite !bind_Ok.
  destruct (py_mod x2 1000) as [r|e]; [|done]. rewrite !bind_Ok.
  destruct (py_mod k _) as [s|e]; [|done]. rewrite !bind_Ok.
  pose proof (py_getitem_is_ok locks shards s Hlen) as Hok.
  destruct (py_getitem locks s) as [l|e] eqn:Hl,
           (py_getitem shards s) as [d|e'] eqn:Hd; try discriminate.
  - by rewrite !bind_Ok.
  - apply py_getitem_Raise in Hl as ->. apply py_getitem_Raise in Hd as ->.
    by destruct (r <? reads).
Qed.

Lemma worker_process_body_length shards keys shardsN reads rnd shards' rnd' ev :
  worker_process_body shards keys shardsN reads rnd = Ok (shards', rnd', ev) →
  length shards' = length shards.
Proof.
  intros H. apply worker_process_body_inv in H
    as (_ & _ & _ & p & d & _ & _ & _ & ->).
  destruct (_ <? reads); [done|]. apply length_insert.
Qed.

(** ** Prefill *)

Lemma prefilled_unique K S shards shards' :
  prefilled K S shards → prefilled K S shards' → shards = shards'.
Proof.
  intros [Hlen H] [Hlen' H']. apply list_eq_same_length with (Z.to_nat S);
    [done..|].
  intros j d d' _ Hd Hd'. apply map_eq. intros k.
  by rewrite (H j d Hd), (H' j d' Hd').
Qed.

Lemma prefill_nat (n : nat) S :
  1 ≤ S →
  ∃ shards, prefill (new_shards S) (Z.of_nat n) S = Ok shards ∧
            prefilled (Z.of_nat n) S shards.
Proof.
  intros HS. unfold prefill. induction n as [|n (sh & Hsh & Hlen & Hpre)].
  - exists (new_shards S). split; [done|]. split; [apply new_shards_length|].
    intros j d ->%new_shards_lookup k. rewrite lookup_empty.
    case_decide; [lia|done].
  - rewrite py_range_succ, for_each_app, Hsh, bind_Ok. cbn [for_each].
    rewrite py_mod_Ok, bind_Ok by lia.
    assert (Hs : 0 ≤ Z.of_nat n mod S < S) by (apply Z.mod_pos_bound; lia).
    set (p := Z.to_nat (Z.of_nat n mod S)).
    destruct (lookup_lt_is_Some_2 sh p) as [d Hd]; [lia|].
    unfold py_setitem2. rewrite py_index_nonneg, bind_Ok by lia.
    fold p. rewrite Hd, bind_Ok. eexists. split; [done|].
    split; [by rewrite length_insert|].
    intros j d' Hd' k. destruct (decide (j = p)) as [->|Hj].
    + rewrite list_lookup_insert_eq in Hd' by (subst p; lia).
      injection Hd' as <-. destruct (decide (k = Z.of_nat n)) as [->|Hk].
      * rewrite lookup_insert_eq. case_decide; [done|]. subst p. lia.
      * rewrite lookup_insert_ne, (Hpre p d Hd) by done.
        repeat case_decide; (done || lia).
    + rewrite list_lookup_insert_ne in Hd' by done.
      rewrite (Hpre j d' Hd'). subst p.
      destruct (decide (k = Z.of_nat n)) as [->|Hk];
        repeat case_decide; (done || lia).
Qed.

Lemma prefill_prefilled K S :
  1 ≤ S →
  ∃ shards, prefill (new_shards S) K S = Ok shards ∧ prefilled K S shards.
Proof.
  intros HS. destruct (Z.le_gt_cases 0 K) as [HK|HK].
  - destruct (prefill_nat (Z.to_nat K) S HS) as (sh & Hsh & Hpre).
    rewrite Z2Nat.id in Hsh, Hpre by done. eauto.
  - destruct (prefill_nat 0 S HS) as (sh & Hsh & Hlen & Hpre).
    exists sh. unfold prefill in *. rewrite py_range_nonpos by lia.
    rewrite py_range_nonpos in Hsh by lia. split; [done|].
    split; [done|]. intros j d Hd k. rewrite (Hpre j d Hd).
    repeat case_decide; (done || lia).
Qed.

(** Prefill changes no length, whatever the counts. *)
Lemma prefill_length shards K S shards' :
  prefill shards K S = Ok shards' → length shards' = length shards.
Proof.
  unfold prefill.
  apply (for_each_invariant (λ sh, length sh = length shards)); [|done].
  intros sh i sh' _ Hlen (s & _ & Hset)%bind_Ok_inv.
  apply py_setitem2_length in Hset. congruence.
Qed.

(** ** The operations of a worker *)

Lemma operation_advance K thr st : (Workload.operation K thr st).2 = advance 2 st.
Proof.
  unfold Workload.operation. cbn [advance].
  rewrite <- !splitmix64_next_reference.
  destruct (splitmix64_next st) as [a st1]. cbn [snd].
  rewrite <- !splitmix64_next_reference.
  by destruct (splitmix64_next st1) as [b st2].
Qed.

Lemma operations_S n K thr st :
  Workload.operations (S n) K thr st =
  (Workload.operation K thr st).1 ::
    Workload.operations n K thr (Workload.operation K thr st).2.
Proof. cbn [Workload.operations]. by destruct (Workload.operation K thr st). Qed.

Lemma operations_snoc n K thr st :
  Workload.operations (S n) K thr st =
  Workload.operations n K thr st ++
    [(Workload.operation K thr (advance (2 * n) st)).1].
Proof.
  revert st. induction n as [|n IH]; intros st.
  - by rewrite operations_S.
  - rewrite (operations_S (S n)), IH, (operations_S n K thr st).
    cbn [app]. do 4 f_equal.
    rewrite operation_advance, <- advance_add. do 2 f_equal. lia.
Qed.

Lemma operations_length n K thr st :
  length (Workload.operations n K thr st) = n.
Proof.
  revert st. induction n as [|n IH]; intros st; [done|].
  cbn [Workload.operations]. destruct (Workload.operation K thr st).
  cbn [length]. by rewrite IH.
Qed.

(** The access an iteration makes is the operation the workload of the
    specification draws from the same generator state. *)
Lemma worker_process_body_operation shards keys shardsN reads thr rnd
    shards' rnd' ev :
  (∀ r, 0 ≤ r → (r <? reads) = (r <? thr)) →
  worker_process_body shards keys shardsN reads rnd = Ok (shards', rnd', ev) →
  Workload.operation keys thr rnd = (ev_op ev, rnd').
Proof.
  intros Hthr H. apply worker_process_body_inv in H
    as (_ & _ & -> & p & d & _ & _ & -> & _).
  unfold Workload.operation, ev_op. cbn [advance ev_kind ev_key].
  rewrite <- !splitmix64_next_reference.
  destruct (splitmix64_next rnd) as [a st1]. cbn [fst snd].
  rewrite <- !splitmix64_next_reference.
  destruct (splitmix64_next st1) as [b st2]. cbn [fst snd].
  rewrite Hthr; [done|]. apply Z.mod_pos_bound. lia.
Qed.

(** ** The effect of one iteration on the store *)

(** On a store of [S ≥ 1] shards an iteration that returns touched one
    dictionary, the one at position [key mod S]: a read left it as it
    was, a write set the key's counter to one more than it held, or to 1
    when the key was absent. *)
Lemma worker_process_body_effect shards keys S reads rnd shards' rnd' ev :
  1 ≤ S → length shards = Z.to_nat S →
  worker_process_body shards keys S reads rnd = Ok (shards', rnd', ev) →
  let k := ev_key ev in
  let p := Z.to_nat (k mod S) in
  k = (splitmix64_next rnd).1 mod keys ∧
  ev_shard ev = k mod S ∧
  ev_kind ev =
    (if (splitmix64_next (splitmix64_next rnd).2).1 mod 1000 <? reads
     then Read else Write) ∧
  ∃ d, shards !! p = Some d ∧ ev_found ev = d !! k ∧
    shards' = match ev_kind ev with
              | Read => shards
              | Write => <[p := <[k := dict_get d k + 1]> d]> shards
              end.
Proof.
  intros HS Hlen H. apply worker_process_body_inv in H
    as (_ & _ & _ & p & d & Hp & Hd & -> & ->).
  cbn [ev_key ev_shard ev_kind ev_found].
  set (k := (splitmix64_next rnd).1 mod keys) in *.
  assert (Hs : 0 ≤ k mod S < S) by (apply Z.mod_pos_bound; lia).
  rewrite py_index_nonneg in Hp by lia. injection Hp as <-.
  do 3 (split; [done|]). exists d. do 2 (split; [done|]).
  by destruct (_ <? reads).
Qed.

Lemma worker_process_body_get shards keys S reads rnd shards' rnd' ev k :
  1 ≤ S → length shards = Z.to_nat S →
  worker_process_body shards keys S reads rnd = Ok (shards', rnd', ev) →
  store_get S shards' k =
    match ev_kind ev with
    | Write =>
        if decide (ev_key ev = k)
        then Some (default 0 (store_get S shards k) + 1)
        else store_get S shards k
    | Read => store_get S shards k
    end.
Proof.
  intros HS Hlen H.
  apply worker_process_body_effect in H as (_ & _ & _ & d & Hd & _ & ->);
    [|done..].
  destruct (ev_kind ev); [done|]. unfold store_get.
  set (p := Z.to_nat (ev_key ev mod S)) in *.
  assert (Hp : (p < length shards)%nat) by by eapply lookup_lt_Some.
  case_decide as Hk.
  - subst k. fold p. rewrite Hd, list_lookup_insert_eq by done. cbn.
    by rewrite lookup_insert_eq.
  - destruct (decide (Z.to_nat (k mod S) = p)) as [->|Hp'].
    + rewrite Hd, list_lookup_insert_eq by done. cbn.
      by rewrite lookup_insert_ne.
    + by rewrite list_lookup_insert_ne.
Qed.

Lemma prefilled_keys_routed K S shards :
  prefilled K S shards → keys_routed K S shards.
Proof.
  intros [Hlen H]. split; [done|]. intros j d k Hd. rewrite (H j d Hd).
  case_decide; [by split|]. split; [by intros []|done].
Qed.

Lemma keys_routed_store_keys K S shards :
  1 ≤ S → keys_routed K S shards →
  store_keys shards = list_to_set (seqZ 0 K).
Proof.
  intros HS [Hlen H]. apply set_eq. intros k. unfold store_keys.
  rewrite elem_of_union_list, elem_of_list_to_set, elem_of_seqZ. split.
  - intros (X & (d & -> & (j & Hd)%list_elem_of_lookup)%list_elem_of_fmap
              & Hk%elem_of_dom).
    apply (H j d k Hd) in Hk. lia.
  - intros Hk. assert (Hs : 0 ≤ k mod S < S) by (apply Z.mod_pos_bound; lia).
    destruct (lookup_lt_is_Some_2 shards (Z.to_nat (k mod S))) as [d Hd]; [lia|].
    exists (dom d). split.
    + apply list_elem_of_fmap. exists d. split; [done|].
      by eapply list_elem_of_lookup_2.
    + apply elem_of_dom, (H _ d k Hd). lia.
Qed.

(** An iteration draws its key inside [[0, K)], finds it in the store
    and leaves the key sets of the shards as they were. *)
Lemma worker_process_body_keys shards K S reads rnd shards' rnd' ev :
  1 ≤ K → 1 ≤ S → keys_routed K S shards →
  worker_process_body shards K S reads rnd = Ok (shards', rnd', ev) →
  keys_routed K S shards' ∧ 0 ≤ ev_key ev < K ∧ is_Some (ev_found ev).
Proof.
  intros HK HS [Hlen Hkeys] H.
  apply worker_process_body_effect in H as (Hk & _ & _ & d & Hd & Hf & ->);
    [|done..].
  assert (Hrange : 0 ≤ ev_key ev < K)
    by (rewrite Hk; apply Z.mod_pos_bound; lia).
  assert (Hs : 0 ≤ ev_key ev mod S < S) by (apply Z.mod_pos_bound; lia).
  assert (Hfound : is_Some (d !! ev_key ev)) by (apply (Hkeys _ d _ Hd); lia).
  split; [|by rewrite Hf].
  destruct (ev_kind ev); [done|]. split; [by rewrite length_insert|].
  intros j d' k Hd'.
  destruct (decide (j = Z.to_nat (ev_key ev mod S))) as [->|Hj].
  - rewrite list_lookup_insert_eq in Hd' by lia. injection Hd' as <-.
    rewrite <- (Hkeys _ d k Hd).
    destruct (decide (k = ev_key ev)) as [->|Hne].
    + rewrite lookup_insert_eq. split; [done|]. by eexists.
    + by rewrite lookup_insert_ne.
  - rewrite list_lookup_insert_ne in Hd' by done. by apply Hkeys.
Qed.

(** ** Steps and schedules of the thread model *)

Section schedules.
Context (locks : list lock) (keys : Z).

Lemma thread_step_inv c i :
  length (c_shards c) = length locks →
  thread_step locks keys c i = c ∨
  ∃ rnd reads todo,
    c_threads c !! i = Some (Running rnd reads (S todo)) ∧
    ((∃ e, worker_process_body (c_shards c) keys
             (Z.of_nat (length (c_shards c))) reads rnd = Raise e ∧
           thread_step locks keys c i =
             Config (c_shards c) (<[i := Crashed e]> (c_threads c)) (c_log c))
     ∨ (∃ shards rnd' ev,
           worker_process_body (c_shards c) keys
             (Z.of_nat (length (c_shards c))) reads rnd
             = Ok (shards, rnd', ev) ∧
           thread_step locks keys c i =
             Config shards (<[i := Running rnd' reads todo]> (c_threads c))
                    (c_log c ++ [(i, ev)]))).
Proof.
  intros Hlen. unfold thread_step.
  destruct (c_threads c !! i) as [[rnd reads [|todo]|e]|] eqn:Ht; auto.
  right. exists rnd, reads, todo. split; [done|].
  rewrite worker_thread_body_process by done.
  destruct (worker_process_body _ _ _ _ _) as [[[sh rnd'] ev]|e]; eauto 10.
Qed.

Lemma thread_step_length c i :
  length (c_shards c) = length locks →
  length (c_shards (thread_step locks keys c i)) = length locks.
Proof.
  intros Hlen.
  destruct (thread_step_inv c i Hlen)
    as [->|(rnd & reads & todo & _ & [(e & _ & ->)|(sh & rnd' & ev & H & ->)])];
    [done..|].
  cbn. apply worker_process_body_length in H. congruence.
Qed.

Lemma thread_step_threads_length c i :
  length (c_threads (thread_step locks keys c i)) = length (c_threads c).
Proof.
  unfold thread_step.
  destruct (c_threads c !! i) as [[rnd reads [|todo]|e]|]; try done.
  destruct (worker_thread_body _ _ _ _ _) as [[[sh rnd'] ev]|e];
    cbn; apply length_insert.
Qed.

(** A step of thread [i] leaves the other threads where they were. *)
Lemma thread_step_other c i j :
  i ≠ j → c_threads (thread_step locks keys c i) !! j = c_threads c !! j.
Proof.
  intros Hij. unfold thread_step.
  destruct (c_threads c !! i) as [[rnd reads [|todo]|e]|]; try done.
  destruct (worker_thread_body _ _ _ _ _) as [[[sh rnd'] ev]|e];
    cbn; by apply list_lookup_insert_ne.
Qed.

(** A step of a thread with iterations ahead uses one of them up, or
    kills the thread. *)
Lemma thread_step_remaining c i t :
  c_threads c !! i = Some t →
  ∃ t', c_threads (thread_step locks keys c i) !! i = Some t' ∧
        remaining t' = pred (remaining t) ∨
        c_threads (thread_step locks keys c i) !! i = Some t' ∧
        remaining t' = O.
Proof.
  intros Ht. pose proof (lookup_lt_Some _ _ _ Ht) as Hi.
  unfold thread_step. rewrite Ht.
  destruct t as [rnd reads [|todo]|e]; [eauto..| |eauto].
  destruct (worker_thread_body _ _ _ _ _) as [[[sh rnd'] ev]|e]; cbn;
    rewrite list_lookup_insert_eq by done; eauto.
Qed.

Lemma exec_schedule_app sched1 sched2 c :
  exec_schedule locks keys (sched1 ++ sched2) c =
  exec_schedule locks keys sched2 (exec_schedule locks keys sched1 c).
Proof. apply foldl_app. Qed.

(** What every step keeps, every schedule keeps. *)
Lemma exec_schedule_invariant (I : config → Prop) sched c :
  (∀ c i, I c → I (thread_step locks keys c i)) →
  I c → I (exec_schedule locks keys sched c).
Proof.
  intros Hstep. revert c.
  induction sched as [|i sched IH]; intros c HI; [done|].
  cbn. apply IH, Hstep, HI.
Qed.

Lemma run_threads_invariant (I : config → Prop) sched c :
  (∀ c i, I c → I (thread_step locks keys c i)) →
  I c → I (run_threads locks keys sched c).
Proof.
  intros Hstep HI. unfold run_threads.
  apply exec_schedule_invariant; [done|].
  by apply exec_schedule_invariant.
Qed.

(** Thread [i] run [n] times in a row has at most [remaining - n]
    iterations left; the other threads have not moved. *)
Lemma exec_replicate_remaining n i c t :
  c_threads c !! i = Some t →
  ∃ t', c_threads (exec_schedule locks keys (replicate n i) c) !! i = Some t' ∧
        (remaining t' ≤ remaining t - n)%nat.
Proof.
  revert c t. induction n as [|n IH]; intros c t Ht.
  - exists t. split; [done|]. lia.
  - cbn [replicate]. change (exec_schedule locks keys (i :: replicate n i) c)
      with (exec_schedule locks keys (replicate n i) (thread_step locks keys c i)).
    destruct (thread_step_remaining c i t Ht) as (t1 & [[Ht1 Hr]|[Ht1 Hr]]);
      destruct (IH _ _ Ht1) as (t' & Ht' & Hr'); exists t';
      (split; [done|lia]).
Qed.

Lemma exec_replicate_other n i j c :
  i ≠ j →
  c_threads (exec_schedule locks keys (replicate n i) c) !! j
  = c_threads c !! j.
Proof.
  intros Hij. revert c. induction n as [|n IH]; intros c; [done|].
  cbn [replicate]. change (exec_schedule locks keys (i :: replicate n i) c)
    with (exec_schedule locks keys (replicate n i) (thread_step locks keys c i)).
  by rewrite IH, thread_step_other.
Qed.

Lemma exec_schedule_threads_length sched c :
  length (c_threads (exec_schedule locks keys sched c)) = length (c_threads c).
Proof.
  apply (exec_schedule_invariant
           (λ c', length (c_threads c') = length (c_threads c))); [|done].
  intros c' i <-. apply thread_step_threads_length.
Qed.

End schedules.

(** ** Every thread leaves its loop *)

Section termination.
Context (locks : list lock) (keys : Z).

Lemma drain_from_cons o t ts :
  drain_from o (t :: ts) = replicate (remaining t) o ++ drain_from (S o) ts.
Proof.
  unfold drain_from. rewrite imap_cons. cbn [concat].
  rewrite Nat.add_0_r. do 2 f_equal. apply imap_ext.
  intros i x _. cbn. f_equal. lia.
Qed.

Lemma exec_drain_from ts o c :
  (∀ i t, ts !! i = Some t → c_threads c !! (o + i)%nat = Some t) →
  let c' := exec_schedule locks keys (drain_from o ts) c in
  (∀ i, (i < length ts)%nat →
     ∃ t', c_threads c' !! (o + i)%nat = Some t' ∧ remaining t' = O) ∧
  (∀ j, (j < o)%nat → c_threads c' !! j = c_threads c !! j).
Proof.
  revert o c. induction ts as [|t ts IH]; intros o c Hts; cbn zeta.
  - split; [|done]. cbn [length]. lia.
  - rewrite drain_from_cons, exec_schedule_app.
    set (c1 := exec_schedule locks keys (replicate (remaining t) o) c).
    assert (Ho : c_threads c !! o = Some t).
    { rewrite <- (Nat.add_0_r o). by apply Hts. }
    destruct (exec_replicate_remaining locks keys (remaining t) o c t Ho)
      as (t1 & Ht1 & Hr1). fold c1 in Ht1.
    destruct (IH (S o) c1) as [Hdone Hkeep].
    { intros i t' Ht'. unfold c1.
      rewrite exec_replicate_other by lia.
      replace (S o + i)%nat with (o + S i)%nat by lia. by apply Hts. }
    split.
    + intros [|i] Hi.
      * exists t1. rewrite Nat.add_0_r, Hkeep by lia. split; [done|lia].
      * cbn [length] in Hi. destruct (Hdone i) as (t' & Ht' & Hr'); [lia|].
        exists t'. by replace (o + S i)%nat with (S o + i)%nat by lia.
    + intros j Hj. rewrite Hkeep by lia. unfold c1.
      apply exec_replicate_other. lia.
Qed.

(** When [run_threads] returns, no thread has an iteration left. *)
Lemma run_threads_finished sched c i t :
  c_threads (run_threads locks keys sched c) !! i = Some t →
  remaining t = O.
Proof.
  unfold run_threads. set (c1 := exec_schedule locks keys sched c).
  intros Ht. pose proof (lookup_lt_Some _ _ _ Ht) as Hi.
  rewrite exec_schedule_threads_length in Hi.
  destruct (exec_drain_from (c_threads c1) O c1) as [Hdone _]; [done|].
  destruct (Hdone i Hi) as (t' & Ht' & Hr). cbn [Nat.add] in Ht'.
  change (drain_from 0 (c_threads c1)) with (drain_schedule (c_threads c1))
    in Ht'.
  congruence.
Qed.

End termination.

(** ** Invariants of the thread model *)

Lemma thread_log_snoc i j ev log :
  thread_log i (log ++ [(j, ev)]) =
  thread_log i log ++ (if decide (j = i) then [ev] else []).
Proof.
  unfold thread_log. rewrite filter_app, fmap_app. f_equal.
  rewrite filter_cons, filter_nil. cbn [fst].
  by destruct (decide (j = i)).
Qed.

Section thread_invariants.
Context (locks : list lock) (K : Z).

Lemma store_inv_step R P c i :
  (∀ sh log j rnd reads sh' rnd' ev,
     length sh = length locks → R reads → P sh log →
     worker_process_body sh K (Z.of_nat (length sh)) reads rnd
       = Ok (sh', rnd', ev) →
     P sh' (log ++ [(j, ev)])) →
  store_inv locks R P c → store_inv locks R P (thread_step locks K c i).
Proof.
  intros Hbody (Hlen & HR & HP).
  destruct (thread_step_inv locks K c i Hlen)
    as [->|(rnd & reads & todo & Ht &
            [(e & _ & ->)|(sh & rnd' & ev & H & ->)])]; [done|..].
  - split; [done|]. split; [|done]. cbn [c_threads].
    intros j rnd1 reads1 todo1 Hj.
    destruct (decide (i = j)) as [<-|Hij].
    + rewrite list_lookup_insert_eq in Hj by by eapply lookup_lt_Some.
      done.
    + rewrite list_lookup_insert_ne in Hj by done. eauto.
  - pose proof (worker_process_body_length _ _ _ _ _ _ _ _ H) as Hl.
    split; [|split]; cbn [c_shards c_threads c_log].
    + congruence.
    + intros j rnd1 reads1 todo1 Hj.
      destruct (decide (i = j)) as [<-|Hij].
      * rewrite list_lookup_insert_eq in Hj by by eapply lookup_lt_Some.
        injection Hj as <- <- <-. eauto.
      * rewrite list_lookup_insert_ne in Hj by done. eauto.
    + eapply Hbody; eauto.
Qed.

Lemma trace_inv_step reads0 thr n seed c i :
  (∀ r, 0 ≤ r → (r <? reads0) = (r <? thr)) →
  trace_inv locks K reads0 thr n seed c →
  trace_inv locks K reads0 thr n seed (thread_step locks K c i).
Proof.
  intros Hthr (Hlen & Hinv).
  destruct (thread_step_inv locks K c i Hlen)
    as [->|(rnd & reads & todo & Ht &
            [(e & _ & ->)|(sh & rnd' & ev & H & ->)])]; [done|..].
  - split; [done|]. cbn [c_threads c_log]. intros j rnd1 reads1 todo1 Hj.
    destruct (decide (i = j)) as [<-|Hij].
    + rewrite list_lookup_insert_eq in Hj by by eapply lookup_lt_Some.
      done.
    + rewrite list_lookup_insert_ne in Hj by done. eauto.
  - pose proof (worker_process_body_length _ _ _ _ _ _ _ _ H) as Hl.
    split; cbn [c_shards c_threads c_log]; [congruence|].
    intros j rnd1 reads1 todo1 Hj.
    rewrite thread_log_snoc.
    destruct (decide (i = j)) as [<-|Hij].
    + rewrite list_lookup_insert_eq in Hj by by eapply lookup_lt_Some.
      injection Hj as <- <- <-.
      destruct (Hinv i rnd reads (S todo) Ht) as (-> & Hn & Hrnd & Hlog).
      pose proof (worker_process_body_operation _ _ _ _ thr _ _ _ _ Hthr H)
        as Hop.
      pose proof (operation_advance K thr rnd) as Hadv.
      rewrite Hop in Hadv. cbn [snd] in Hadv.
      replace (n - todo)%nat with (S (n - S todo)) by lia.
      split; [done|]. split; [lia|]. split.
      * rewrite Hadv, Hrnd, <- advance_add. f_equal. lia.
      * rewrite operations_snoc, fmap_app, Hlog, <- Hrnd, Hop. done.
    + rewrite list_lookup_insert_ne in Hj by done.
      rewrite app_nil_r. eauto.
Qed.

Lemma alive_inv_step S c i :
  K ≠ 0 → 1 ≤ S → length locks = Z.to_nat S →
  alive_inv S c → alive_inv S (thread_step locks K c i).
Proof.
  intros HK HS Hlocks (Hlen & Hinv).
  destruct (thread_step_inv locks K c i)
    as [->|(rnd & reads & todo & Ht &
            [(e & He & _)|(sh & rnd' & ev & H & ->)])];
    [congruence|done|..].
  - pose proof (worker_process_body_Ok (c_shards c) K
                  (Z.of_nat (length (c_shards c))) reads rnd) as Hok.
    rewrite He in Hok. discriminate Hok; lia.
  - pose proof (worker_process_body_length _ _ _ _ _ _ _ _ H) as Hl.
    split; cbn [c_shards c_threads c_log]; [congruence|].
    intros j e Hj. destruct (decide (i = j)) as [<-|Hij].
    + rewrite list_lookup_insert_eq in Hj by by eapply lookup_lt_Some.
      done.
    + rewrite list_lookup_insert_ne in Hj by done. by eapply Hinv.
Qed.

End thread_invariants.

(** ** The loop of a worker process *)

Lemma worker_process_iteration_inv K S reads sh rnd log a sh' rnd' log' :
  worker_process_iteration K S reads (sh, rnd, log) a = Ok (sh', rnd', log') →
  ∃ ev, worker_process_body sh K S reads rnd = Ok (sh', rnd', ev) ∧
        log' = log ++ [ev].
Proof.
  unfold worker_process_iteration.
  intros ([[sh1 rnd1] ev] & H & [= <- <- <-])%bind_Ok_inv. eauto.
Qed.

(** What every iteration keeps, the loop keeps. *)
Lemma worker_process_loop_invariant
    (P : list (gmap Z Z) → Z → list event → Prop) l K S reads
    sh rnd log sh' rnd' log' :
  (∀ sh rnd log sh' rnd' ev,
     P sh rnd log →
     worker_process_body sh K S reads rnd = Ok (sh', rnd', ev) →
     P sh' rnd' (log ++ [ev])) →
  P sh rnd log →
  for_each l (worker_process_iteration K S reads) (sh, rnd, log)
    = Ok (sh', rnd', log') →
  P sh' rnd' log'.
Proof.
  intros Hbody HP.
  apply (for_each_invariant (λ st, P st.1.1 st.1.2 st.2) l _
           (sh, rnd, log) (sh', rnd', log')); [|done].
  intros [[sh1 rnd1] log1] a [[sh2 rnd2] log2] _ HP1
         (ev & Hev & ->)%worker_process_iteration_inv.
  cbn [fst snd] in *. eauto.
Qed.

Lemma worker_process_loop_length l K S reads sh rnd log sh' rnd' log' :
  for_each l (worker_process_iteration K S reads) (sh, rnd, log)
    = Ok (sh', rnd', log') →
  length log' = (length log + length l)%nat.
Proof.
  revert sh rnd log. induction l as [|a l IH]; intros sh rnd log; cbn [for_each].
  - intros [= <- <- <-]. cbn. lia.
  - intros ([[sh1 rnd1] log1] & H1 & H2)%bind_Ok_inv.
    apply worker_process_iteration_inv in H1 as (ev & _ & ->).
    apply IH in H2. rewrite H2, length_app. cbn. lia.
Qed.

Lemma worker_process_loop_Ok l K S reads sh rnd log :
  K ≠ 0 → 1 ≤ S → length sh = Z.to_nat S →
  is_ok (for_each l (worker_process_iteration K S reads) (sh, rnd, log)) = true.
Proof.
  intros HK HS. revert sh rnd log.
  induction l as [|a l IH]; intros sh rnd log Hlen; [done|].
  cbn [for_each]. unfold worker_process_iteration at 2.
  pose proof (worker_process_body_Ok sh K S reads rnd HK HS Hlen) as Hok.
  destruct (worker_process_body sh K S reads rnd) as [[[sh1 rnd1] ev]|e] eqn:Hb;
    [|done].
  rewrite !bind_Ok. apply IH.
  apply worker_process_body_length in Hb. congruence.
Qed.

(** The log of the loop is the workload of the specification, drawn
    from the generator the loop started with. *)
Lemma worker_process_loop_operations l K S reads thr sh rnd sh' rnd' log' :
  (∀ r, 0 ≤ r → (r <? reads) = (r <? thr)) →
  for_each l (worker_process_iteration K S reads) (sh, rnd, [])
    = Ok (sh', rnd', log') →
  ev_op <$> log' = Workload.operations (length l) K thr rnd.
Proof.
  intros Hthr Hloop.
  pose proof (worker_process_loop_length _ _ _ _ _ _ _ _ _ _ Hloop) as Hlen.
  cbn in Hlen. rewrite <- Hlen.
  enough (rnd' = advance (2 * length log') rnd ∧
          ev_op <$> log' = Workload.operations (length log') K thr rnd)
    as [_ ?]; [done|].
  revert Hloop. apply worker_process_loop_invariant
    with (P := λ _ rnd1 log, rnd1 = advance (2 * length log) rnd ∧
       ev_op <$> log = Workload.operations (length log) K thr rnd); [|done].
  intros sh1 rnd1 log1 sh2 rnd2 ev [-> Hlog] Hb.
  pose proof (worker_process_body_operation _ _ _ _ thr _ _ _ _ Hthr Hb) as Hop.
  pose proof (operation_advance K thr (advance (2 * length log1) rnd)) as Hadv.
  rewrite Hop in Hadv. cbn [snd] in Hadv.
  rewrite length_app, Nat.add_1_r. split.
  - rewrite Hadv, <- advance_add. f_equal. lia.
  - by rewrite operations_snoc, fmap_app, Hlog, Hop.
Qed.

(** The loop does not look at its counter: its state after [j] of its
    [per] iterations is the state a run of [j] iterations ends in. What
    holds at the end of every run therefore holds throughout each. *)
Lemma worker_process_loop_counter (l l' : list Z) K S reads st :
  length l = length l' →
  for_each l (worker_process_iteration K S reads) st
  = for_each l' (worker_process_iteration K S reads) st.
Proof.
  revert l' st. induction l as [|a l IH]; intros [|a' l'] st Hlen; try done.
  cbn [for_each].
  change (worker_process_iteration K S reads st a')
    with (worker_process_iteration K S reads st a).
  destruct (worker_process_iteration K S reads st a) as [st'|e]; [|done].
  rewrite !bind_Ok. apply IH. by injection Hlen.
Qed.

Lemma worker_process_loop_prefix K S reads per j st :
  0 ≤ j ≤ per →
  for_each (py_range per) (worker_process_iteration K S reads) st =
  (st ← for_each (py_range j) (worker_process_iteration K S reads) st;
   for_each (drop (Z.to_nat j) (py_range per))
     (worker_process_iteration K S reads) st).
Proof.
  intros Hj.
  rewrite <- (take_drop (Z.to_nat j) (py_range per)) at 1.
  rewrite for_each_app. f_equal. apply worker_process_loop_counter.
  rewrite length_take, !py_range_length. lia.
Qed.

Lemma worker_process_run_inv K per ρ seed pid S sh log :
  worker_process_run (K, per, ρ, seed, pid, S) = Ok (sh, log) →
  ∃ sh0 reads rnd',
    prefill (new_shards S) K S = Ok sh0 ∧
    reads_of ρ = Ok reads ∧
    for_each (py_range per) (worker_process_iteration K S reads)
      (sh0, splitmix64 (seed + pid), []) = Ok (sh, rnd', log).
Proof.
  unfold worker_process_run.
  intros (sh0 & Hpre & H)%bind_Ok_inv.
  apply bind_Ok_inv in H as (reads & Hint & H).
  apply bind_Ok_inv in H as ([[sh1 rnd1] log1] & Hloop & [= <- <-]).
  eauto 10.
Qed.

Lemma worker_process_run_Ok K per ρ seed pid S reads :
  K ≠ 0 → 1 ≤ S →
  reads_of ρ = Ok reads →
  is_ok (worker_process_run (K, per, ρ, seed, pid, S)) = true.
Proof.
  intros HK HS Hint. unfold worker_process_run.
  destruct (prefill_prefilled K S HS) as (sh0 & -> & Hlen & _).
  rewrite bind_Ok, Hint, bind_Ok.
  pose proof (worker_process_loop_Ok (py_range per) K S reads sh0
                (splitmix64 (seed + pid)) [] HK HS Hlen) as Hok.
  by destruct (for_each _ _ _) as [[[sh1 rnd1] log1]|e].
Qed.

(** ** The threads [main] starts *)

Lemma py_range_lookup n i x :
  py_range n !! i = Some x ↔ x = Z.of_nat i ∧ Z.of_nat i < n.
Proof. unfold py_range. rewrite lookup_seqZ. by rewrite Z.add_0_l. Qed.

Lemma threads_init_lookup args per sh i t :
  c_threads (threads_init args per sh) !! i = Some t ↔
  t = worker_thread_start per (arg_read_ratio args) (arg_seed args) (Z.of_nat i)
  ∧ Z.of_nat i < arg_threads args.
Proof.
  unfold threads_init. cbn [c_threads]. rewrite list_lookup_fmap. split.
  - destruct (py_range (arg_threads args) !! i) as [x|] eqn:Hx; [|done].
    apply py_range_lookup in Hx as [-> Hi]. by intros [= <-].
  - intros [-> Hi].
    by rewrite (proj2 (py_range_lookup (arg_threads args) i _) (conj eq_refl Hi)).
Qed.

Lemma threads_init_length args per sh :
  length (c_threads (threads_init args per sh)) = Z.to_nat (arg_threads args).
Proof.
  unfold threads_init. cbn [c_threads].
  by rewrite length_fmap, py_range_length.
Qed.

Lemma worker_thread_start_Running per ρ seed tid reads :
  reads_of ρ = Ok reads →
  worker_thread_start per ρ seed tid =
  Running (splitmix64 (seed + tid)) reads (Z.to_nat per).
Proof.
  intros Hint. unfold worker_thread_start.
  by rewrite Hint, py_range_length.
Qed.

Lemma worker_thread_start_reads per ρ seed tid rnd reads todo :
  worker_thread_start per ρ seed tid = Running rnd reads todo →
  reads_of ρ = Ok reads.
Proof.
  unfold worker_thread_start.
  destruct (reads_of _); [|done]. by intros [= _ <- _].
Qed.

(** A joined run is a state the model passes through, at the end of a
    longer schedule. *)
Lemma main_threads_is_at args per sched c :
  main_threads args per sched = Ok c →
  ∃ sched', main_threads_at args per sched' = Ok c.
Proof.
  unfold main_threads, main_threads_at.
  intros (sh & Hsh & [= <-])%bind_Ok_inv.
  unfold run_threads. eexists (sched ++ _).
  by rewrite Hsh, bind_Ok, exec_schedule_app.
Qed.

Lemma main_threads_Ok args per sched :
  1 ≤ arg_shards args → is_ok (main_threads args per sched) = true.
Proof.
  intros HS. unfold main_threads.
  by destruct (prefill_prefilled (arg_keys args) _ HS) as (sh & -> & _).
Qed.

(** An iteration that returns had a shard to go to. *)
Lemma worker_process_body_shards sh K S N reads rnd sh' rnd' ev :
  length sh = Z.to_nat S → N = S ∨ N = Z.of_nat (length sh) →
  worker_process_body sh K N reads rnd = Ok (sh', rnd', ev) →
  1 ≤ S ∧ N = S.
Proof.
  intros Hlen HN H. apply worker_process_body_inv in H
    as (_ & HN0 & _ & p & d & Hp%py_index_Ok_inv & _).
  destruct HN as [->| ->]; lia.
Qed.

(** What the prefilled store has and every iteration keeps holds in
    every state of the thread model. *)
Lemma main_threads_at_invariant (R : Z → Prop)
    (P : list (gmap Z Z) → list event → Prop) args per sched c :
  (∀ reads,
     reads_of (arg_read_ratio args)
       = Ok reads → R reads) →
  (∀ sh, prefill (new_shards (arg_shards args)) (arg_keys args)
           (arg_shards args) = Ok sh → P sh []) →
  body_preserves (arg_keys args) (arg_shards args) R P →
  main_threads_at args per sched = Ok c →
  P (c_shards c) (c_log c).*2.
Proof.
  intros HR Hinit Hbody. unfold main_threads_at.
  intros (sh & Hsh & [= <-])%bind_Ok_inv.
  set (locks := new_locks (arg_shards args)).
  enough (store_inv locks R (λ sh log, P sh log.*2)
            (exec_schedule locks (arg_keys args) sched
               (threads_init args per sh))) as (_ & _ & ?); [done|].
  assert (Hlocks : length locks = Z.to_nat (arg_shards args))
    by apply new_locks_length.
  apply exec_schedule_invariant.
  - intros c i. apply store_inv_step.
    intros sh1 log j rnd reads sh' rnd' ev Hlen HRr HP Hb.
    rewrite Hlocks in Hlen.
    destruct (worker_process_body_shards _ _ _ _ _ _ _ _ _ Hlen
                (or_intror eq_refl) Hb) as [HS HN].
    rewrite HN in Hb. rewrite fmap_app. by eapply Hbody.
  - split; [|split].
    + cbn. apply prefill_length in Hsh.
      by rewrite Hsh, new_shards_length, Hlocks.
    + intros i rnd reads todo [Hstart _]%threads_init_lookup.
      symmetry in Hstart. eapply HR, worker_thread_start_reads, Hstart.
    + by apply Hinit.
Qed.

(** The same for a worker process and its private store. *)
Lemma worker_process_run_invariant (R : Z → Prop)
    (P : list (gmap Z Z) → list event → Prop) K per ρ seed pid S sh log :
  (∀ reads, reads_of ρ = Ok reads → R reads) →
  (∀ sh, prefill (new_shards S) K S = Ok sh → P sh []) →
  body_preserves K S R P →
  worker_process_run (K, per, ρ, seed, pid, S) = Ok (sh, log) →
  P sh log.
Proof.
  intros HR Hinit Hbody
    (sh0 & reads & rnd' & Hpre & Hint & Hloop)%worker_process_run_inv.
  enough (length sh = Z.to_nat S ∧ P sh log) as [_ ?]; [done|].
  revert Hloop. apply worker_process_loop_invariant
    with (P := λ sh _ log, length sh = Z.to_nat S ∧ P sh log).
  - intros sh1 rnd1 log1 sh2 rnd2 ev [Hlen HP] Hb.
    destruct (worker_process_body_shards _ _ _ _ _ _ _ _ _ Hlen
                (or_introl eq_refl) Hb) as [HS _].
    split; [|by eapply Hbody; eauto].
    apply worker_process_body_length in Hb. congruence.
  - split; [|by apply Hinit].
    apply prefill_length in Hpre. by rewrite Hpre, new_shards_length.
Qed.

Lemma process_jobs_elem args per job :
  job ∈ process_jobs args per →
  ∃ i, job = (arg_keys args, per, arg_read_ratio args, arg_seed args, i,
              arg_shards args).
Proof.
  unfold process_jobs. intros (i & -> & _)%list_elem_of_fmap. eauto.
Qed.

Lemma run_threads_threads_length locks keys sched c :
  length (c_threads (run_threads locks keys sched c)) = length (c_threads c).
Proof.
  unfold run_threads. by rewrite !exec_schedule_threads_length.
Qed.

(** In a run of the thread model with a key count other than zero and
    at least one shard, every thread goes through its whole loop, and
    what it did is the workload drawn from its own generator. *)
Lemma main_threads_trace args per sched thr reads :
  arg_keys args ≠ 0 → 1 ≤ arg_shards args →
  reads_of (arg_read_ratio args) = Ok reads →
  (∀ r, 0 ≤ r → (r <? reads) = (r <? thr)) →
  ∃ c, main_threads args per sched = Ok c ∧
    ∀ i : nat, Z.of_nat i < arg_threads args →
      (∃ rnd, c_threads c !! i = Some (Running rnd reads O)) ∧
      ev_op <$> thread_log i (c_log c) =
        Workload.operations (Z.to_nat per) (arg_keys args) thr
          (splitmix64 (arg_seed args + Z.of_nat i)).
Proof.
  intros HK HS Hint Hthr. unfold main_threads.
  destruct (prefill_prefilled (arg_keys args) _ HS) as (sh & -> & Hlen & _).
  rewrite bind_Ok. eexists. split; [done|].
  set (locks := new_locks (arg_shards args)).
  set (c0 := threads_init args per sh).
  set (c := run_threads locks (arg_keys args) sched c0).
  assert (Hlocks : length locks = Z.to_nat (arg_shards args))
    by apply new_locks_length.
  assert (Hinv : trace_inv locks (arg_keys args) reads thr (Z.to_nat per)
                   (arg_seed args) c ∧ alive_inv (arg_shards args) c).
  { apply run_threads_invariant.
    - intros c' i [Htr Hal]. split.
      + by apply trace_inv_step.
      + by apply alive_inv_step.
    - split; split; cbn [c0 threads_init c_shards c_log]; try congruence.
      + intros i rnd reads' todo [Hstart _]%threads_init_lookup.
        rewrite (worker_thread_start_Running _ _ _ _ reads Hint) in Hstart.
        injection Hstart as <- <- <-. rewrite Nat.sub_diag.
        repeat split; (done || lia).
      + intros i e [Hstart _]%threads_init_lookup.
        by rewrite (worker_thread_start_Running _ _ _ _ reads Hint) in Hstart. }
  destruct Hinv as [[_ Htr] [_ Hal]]. intros i Hi.
  destruct (lookup_lt_is_Some_2 (c_threads c) i) as [t Ht].
  { unfold c. rewrite run_threads_threads_length.
    unfold c0. rewrite threads_init_length. lia. }
  pose proof (run_threads_finished _ _ _ _ _ _ Ht) as Hfin.
  destruct t as [rnd reads' todo|e]; [|by destruct (Hal i e)].
  cbn in Hfin. subst todo.
  destruct (Htr i rnd reads' O Ht) as (-> & _ & _ & Hlog).
  rewrite Nat.sub_0_r in Hlog. eauto.
Qed.

(** ** Outcomes of [main] *)

Lemma uncaught_fatal e : fatal (uncaught e).
Proof. by repeat split. Qed.

Lemma pool_map_Raise {A B} (f : A → res B) a l e :
  f a = Raise e → pool_map f (a :: l) = Raise e.
Proof. intros H. unfold pool_map. cbn [for_each]. by rewrite H. Qed.

Lemma process_jobs_first args per :
  1 ≤ arg_threads args →
  ∃ l, process_jobs args per =
       (arg_keys args, per, arg_read_ratio args, arg_seed args, 0,
        arg_shards args) :: l.
Proof.
  intros Ht. unfold process_jobs.
  destruct (py_range_first _ Ht) as [l ->]. by eexists.
Qed.

(** No shard and a key to insert: prefill divides by zero, or finds no
    list element to index when the shard count is negative. *)
Lemma prefill_no_shards K S :
  S ≤ 0 → 1 ≤ K → ∃ e, prefill (new_shards S) K S = Raise e.
Proof.
  intros HS HK. unfold prefill. destruct (py_range_first K HK) as [l ->].
  cbn [for_each]. unfold py_mod. destruct (Z.eqb_spec S 0); [by eexists|].
  rewrite bind_Ok. unfold py_setitem2.
  assert (Hlen : length (new_shards S) = O)
    by (rewrite new_shards_length; lia).
  rewrite Hlen, Zmod_0_l. by eexists.
Qed.

(** No key and an iteration to run: the worker process raises. *)
Lemma worker_process_no_keys per ρ seed pid S :
  1 ≤ per → ∃ e, worker_process (0, per, ρ, seed, pid, S) = Raise e.
Proof.
  intros Hper. unfold worker_process, worker_process_run, prefill.
  rewrite (py_range_nonpos 0) by lia. cbn [for_each]. rewrite bind_Ok.
  destruct (reads_of _) as [reads|e]; [|by eexists].
  rewrite bind_Ok. destruct (py_range_first per Hper) as [l ->].
  cbn [for_each]. unfold worker_process_iteration at 2.
  unfold worker_process_body.
  destruct (splitmix64_next _) as [x1 rnd1].
  rewrite py_mod_zero. by eexists.
Qed.

(** ** What the iterations keep *)

Lemma prefilled_routed K S shards : prefilled K S shards → routed S shards.
Proof.
  intros [_ H] j d k Hd Hk. rewrite (H j d Hd) in Hk.
  case_decide as Hdec; [by destruct Hdec|by destruct Hk].
Qed.

Lemma body_preserves_routed K S :
  body_preserves K S (λ _, True)
    (λ sh log, routed S sh ∧ Forall (ev_routed S) log).
Proof.
  intros sh log rnd reads sh' rnd' ev HS Hlen _ [Hr Hlog] Hb.
  apply worker_process_body_effect in Hb as (_ & Hs & _ & d & Hd & _ & ->);
    [|done..].
  assert (Hrange : 0 ≤ ev_key ev mod S < S) by (apply Z.mod_pos_bound; lia).
  split; [|apply Forall_app; split; [done|by repeat constructor]].
  destruct (ev_kind ev); [done|]. intros j d' k Hd' Hk.
  destruct (decide (j = Z.to_nat (ev_key ev mod S))) as [->|Hj].
  - rewrite list_lookup_insert_eq in Hd' by lia. injection Hd' as <-.
    destruct (decide (k = ev_key ev)) as [->|Hne]; [lia|].
    rewrite lookup_insert_ne in Hk by done. by apply (Hr _ d).
  - rewrite list_lookup_insert_ne in Hd' by done. by apply (Hr _ d').
Qed.

Lemma body_preserves_keys K S :
  1 ≤ K →
  body_preserves K S (λ _, True)
    (λ sh log, keys_routed K S sh ∧ Forall (ev_found_in K) log).
Proof.
  intros HK sh log rnd reads sh' rnd' ev HS Hlen _ [Hkeys Hlog] Hb.
  apply worker_process_body_keys in Hb as (Hkeys' & ? & ?); [|done..].
  split; [done|]. apply Forall_app. split; [done|].
  by apply Forall_singleton.
Qed.

(** A threshold of 1000 or more: every operation is a read and the
    store stays as it is. *)
Lemma body_preserves_reads K S sh0 :
  body_preserves K S (λ reads, 1000 ≤ reads)
    (λ sh log, sh = sh0 ∧ Forall (λ ev, ev_kind ev = Read) log).
Proof.
  intros sh log rnd reads sh' rnd' ev HS Hlen Hreads [-> Hlog] Hb.
  apply worker_process_body_effect in Hb as (_ & _ & Hkind & d & _ & _ & ->);
    [|done..].
  set (r := _ mod 1000) in Hkind.
  assert (Hr : 0 ≤ r < 1000) by (apply Z.mod_pos_bound; lia).
  destruct (Z.ltb_spec r reads); [|lia]. rewrite Hkind.
  split; [done|]. apply Forall_app. split; [done|]. by repeat constructor.
Qed.

Lemma writes_to_snoc k log ev :
  writes_to k (log ++ [ev]) =
  (writes_to k log +
   if decide (ev_kind ev = Write ∧ ev_key ev = k) then 1 else 0)%nat.
Proof.
  unfold writes_to. rewrite filter_app, length_app, filter_cons, filter_nil.
  by case_decide.
Qed.

(** A threshold of zero or less: every operation is a write; and
    whatever the threshold, the counter of a key is the counter it was
    prefilled with plus the number of writes to the key: no write is
    lost. *)
Lemma body_preserves_writes K S :
  body_preserves K S (λ reads, reads ≤ 0)
    (λ sh log, Forall (λ ev, ev_kind ev = Write) log).
Proof.
  intros sh log rnd reads sh' rnd' ev HS Hlen Hreads Hlog Hb.
  apply worker_process_body_effect in Hb as (_ & _ & Hkind & _); [|done..].
  set (r := _ mod 1000) in Hkind.
  assert (Hr : 0 ≤ r < 1000) by (apply Z.mod_pos_bound; lia).
  destruct (Z.ltb_spec r reads); [lia|].
  apply Forall_app. split; [done|]. by repeat constructor.
Qed.

Lemma body_preserves_count K S (base : Z → Z) :
  body_preserves K S (λ _, True)
    (λ sh log, ∀ k,
       default 0 (store_get S sh k) = base k + Z.of_nat (writes_to k log)).
Proof.
  intros sh log rnd reads sh' rnd' ev HS Hlen _ Hcount Hb k.
  rewrite (worker_process_body_get _ _ _ _ _ _ _ _ k HS Hlen Hb).
  rewrite writes_to_snoc. specialize (Hcount k).
  set (v := default 0 (store_get S sh k)) in *.
  destruct (ev_kind ev).
  - rewrite decide_False by by intros [? _]. lia.
  - destruct (decide (ev_key ev = k)) as [Hk|Hk].
    + rewrite decide_True by done. cbn [default from_option]. unfold id. lia.
    + rewrite decide_False by by intros [_ ?]. lia.
Qed.

Lemma body_preserves_and K S R P Q :
  body_preserves K S R P → body_preserves K S R Q →
  body_preserves K S R (λ sh log, P sh log ∧ Q sh log).
Proof.
  intros HP HQ sh log rnd reads sh' rnd' ev HS Hlen HR [??] Hb.
  split; [eapply HP|eapply HQ]; eauto.
Qed.

(** ** States of a run of the thread model *)

Lemma threads_reach_at args per c :
  threads_reach args per c → ∃ sched, main_threads_at args per sched = Ok c.
Proof. intros [?|[sched ?%main_threads_is_at]]; done. Qed.

Lemma threads_reach_prefill args per c :
  threads_reach args per c →
  ∃ sh0, prefill (new_shards (arg_shards args)) (arg_keys args)
           (arg_shards args) = Ok sh0.
Proof.
  intros [sched H]%threads_reach_at. unfold main_threads_at in H.
  apply bind_Ok_inv in H as (sh0 & ? & _). eauto.
Qed.

Lemma threads_reach_invariant (R : Z → Prop)
    (P : list (gmap Z Z) → list event → Prop) args per c :
  (∀ reads,
     reads_of (arg_read_ratio args)
       = Ok reads → R reads) →
  (∀ sh, prefill (new_shards (arg_shards args)) (arg_keys args)
           (arg_shards args) = Ok sh → P sh []) →
  body_preserves (arg_keys args) (arg_shards args) R P →
  threads_reach args per c →
  P (c_shards c) (c_log c).*2.
Proof.
  intros HR Hinit Hbody [sched H]%threads_reach_at.
  by eapply main_threads_at_invariant.
Qed.

(** Threads with no iteration ahead do nothing. *)
Lemma thread_step_done locks keys c i :
  (∀ j t, c_threads c !! j = Some t → remaining t = O) →
  thread_step locks keys c i = c.
Proof.
  intros Hdone. unfold thread_step.
  destruct (c_threads c !! i) as [[rnd reads [|todo]|e]|] eqn:Ht; try done.
  by apply Hdone in Ht.
Qed.

Lemma exec_schedule_done locks keys sched c :
  (∀ j t, c_threads c !! j = Some t → remaining t = O) →
  exec_schedule locks keys sched c = c.
Proof.
  intros Hdone.
  apply (exec_schedule_invariant locks keys (λ c', c' = c)); [|done].
  intros c' i ->. by apply thread_step_done.
Qed.

Lemma threads_init_done args per sh j t :
  per ≤ 0 →
  c_threads (threads_init args per sh) !! j = Some t → remaining t = O.
Proof.
  intros Hper [-> _]%threads_init_lookup. unfold worker_thread_start.
  destruct (reads_of _); [|done]. cbn.
  rewrite py_range_length. lia.
Qed.

Lemma prefilled_store_get K S sh k :
  1 ≤ S → prefilled K S sh → 0 ≤ k < K → store_get S sh k = Some 0.
Proof.
  intros HS [Hlen H] Hk. unfold store_get.
  assert (Hs : 0 ≤ k mod S < S) by (apply Z.mod_pos_bound; lia).
  destruct (lookup_lt_is_Some_2 sh (Z.to_nat (k mod S))) as [d Hd]; [lia|].
  rewrite Hd. cbn. rewrite (H _ d Hd). rewrite decide_True; [done|lia].
Qed.

(** ** A thread on its own *)

Lemma exec_replicate_crashed locks keys n sh e log :
  exec_schedule locks keys (replicate n O) (Config sh [Crashed e] log)
  = Config sh [Crashed e] log.
Proof. by apply exec_schedule_done; intros [|[|j]] t [= <-]. Qed.

(** The steps of a single thread, one after the other, are the loop of
    [worker_thread]. *)
Lemma exec_replicate_alone locks keys reads (l : list Z) sh rnd log :
  let c := exec_schedule locks keys (replicate (length l) O)
             (Config sh [Running rnd reads (length l)] log) in
  match for_each l (worker_thread_iteration locks keys reads)
          (sh, rnd, log.*2) with
  | Ok (sh', rnd', log') =>
      c_shards c = sh' ∧ c_threads c = [Running rnd' reads O] ∧
      (c_log c).*2 = log'
  | Raise e => c_threads c = [Crashed e]
  end.
Proof.
  revert sh rnd log. induction l as [|a l IH]; intros sh rnd log; [done|].
  cbn [length replicate for_each].
  change (exec_schedule locks keys (O :: ?s) ?c)
    with (exec_schedule locks keys s (thread_step locks keys c O)).
  unfold thread_step, worker_thread_iteration at 2. cbn [c_threads lookup].
  cbn [list_lookup c_shards c_log].
  destruct (worker_thread_body sh locks keys reads rnd)
    as [[[sh1 rnd1] ev]|e]; rewrite ?bind_Ok, ?bind_Raise.
  - cbn [insert list_insert]. specialize (IH sh1 rnd1 (log ++ [(O, ev)])).
    by rewrite fmap_app in IH.
  - cbn [insert list_insert]. by rewrite exec_replicate_crashed.
Qed.

Lemma worker_thread_alone shards locks keys per ρ seed tid :
  let c := run_threads locks keys []
             (Config shards [worker_thread_start per ρ seed tid] []) in
  match worker_thread shards locks keys per ρ seed tid with
  | Ok (shards', log) =>
      c_shards c = shards' ∧ (c_log c).*2 = log ∧
      ∃ rnd reads, c_threads c = [Running rnd reads O]
  | Raise e => c_threads c = [Crashed e]
  end.
Proof.
  unfold run_threads, worker_thread, worker_thread_start.
  cbn [exec_schedule foldl c_threads].
  destruct (reads_of _) as [reads|e]; rewrite ?bind_Ok, ?bind_Raise.
  - unfold drain_schedule. cbn [imap concat remaining]. rewrite app_nil_r.
    pose proof (exec_replicate_alone locks keys reads (py_range per) shards
                  (splitmix64 (seed + tid)) []) as H.
    cbn zeta in H. cbn [fmap list_fmap] in H.
    destruct (for_each _ _ _) as [[[sh' rnd'] log']|e];
      rewrite ?bind_Ok, ?bind_Raise; [|done].
    destruct H as (? & ? & ?). eauto 10.
  - done.
Qed.

(** ** The model with locks refines the model of whole iterations *)

Lemma worker_thread_body_draw shards locks keys reads rnd :
  worker_thread_body shards locks keys reads rnd =
  ('(k, r, s, rnd) ← worker_thread_draw (length shards) keys rnd;
   worker_thread_access shards locks reads k r s rnd).
Proof.
  unfold worker_thread_body, worker_thread_draw, worker_thread_access.
  destruct (splitmix64_next rnd) as [x1 rnd1].
  destruct (py_mod x1 keys) as [k|e]; [|done]. rewrite !bind_Ok.
  destruct (splitmix64_next rnd1) as [x2 rnd2].
  destruct (py_mod x2 1000) as [r|e]; [|done]. rewrite !bind_Ok.
  by destruct (py_mod k _) as [s|e].
Qed.

Lemma thread_step_Ok locks keys c i rnd reads todo sh rnd' ev :
  c_threads c !! i = Some (Running rnd reads (S todo)) →
  worker_thread_body (c_shards c) locks keys reads rnd = Ok (sh, rnd', ev) →
  thread_step locks keys c i =
  Config sh (<[i := Running rnd' reads todo]> (c_threads c))
         (c_log c ++ [(i, ev)]).
Proof. intros Ht Hb. unfold thread_step. by rewrite Ht, Hb. Qed.

Lemma thread_step_Raise locks keys c i rnd reads todo e :
  c_threads c !! i = Some (Running rnd reads (S todo)) →
  worker_thread_body (c_shards c) locks keys reads rnd = Raise e →
  thread_step locks keys c i =
  Config (c_shards c) (<[i := Crashed e]> (c_threads c)) (c_log c).
Proof. intros Ht Hb. unfold thread_step. by rewrite Ht, Hb. Qed.

Lemma py_getitem_index {A} (l : list A) i p a :
  py_index (length l) i = Ok p → l !! p = Some a → py_getitem l i = Ok a.
Proof. intros Hp Ha. unfold py_getitem. by rewrite Hp, bind_Ok, Ha. Qed.

Lemma py_getitem_index_Raise {A} (l : list A) i e :
  py_index (length l) i = Raise e → py_getitem l i = Raise e.
Proof. intros Hp. unfold py_getitem. by rewrite Hp. Qed.

Section refinement.
Context (locks : list lock) (keys : Z).

(** The relation of a thread survives what another thread does, as long
    as its own lock and the shard under it are left alone. *)
Lemma thread_rel_other f f' j ft ct :
  thread_rel keys f j ft ct →
  length (f_shards f') = length (f_shards f) →
  (∀ p, f_locks f !! p = Some (Some j) → f_locks f' !! p = Some (Some j)) →
  (∀ p, f_locks f !! p = Some (Some j) → f_shards f' !! p = f_shards f !! p) →
  thread_rel keys f' j ft ct.
Proof.
  intros Hrel Hlen Hlocks Hshards. destruct ft; cbn in *; [done| | |done].
  - destruct Hrel as (rnd0 & -> & Hdraw & Hp & Hl).
    exists rnd0. rewrite Hlen. eauto.
  - destruct Hrel as (rnd0 & r & d & -> & Hdraw & Hr & Hp & Hl & Hd & -> & ->).
    exists rnd0, r, d. rewrite Hlen, (Hshards p Hl). eauto 10.
Qed.

Lemma fine_rel_update f c f' c' i ft' ct' :
  fine_rel locks keys f c →
  (i < length (f_threads f))%nat →
  f_threads f' = <[i := ft']> (f_threads f) →
  c_threads c' = <[i := ct']> (c_threads c) →
  c_shards c' = f_shards f' → c_log c' = f_log f' →
  length (f_locks f') = length (f_locks f) →
  length (f_shards f') = length (f_shards f) →
  thread_rel keys f' i ft' ct' →
  (∀ j p, j ≠ i → f_locks f !! p = Some (Some j) →
     f_locks f' !! p = Some (Some j) ∧ f_shards f' !! p = f_shards f !! p) →
  (∀ p j, f_locks f' !! p = Some (Some j) →
     (j = i ∧ in_section ft' p) ∨ (j ≠ i ∧ f_locks f !! p = Some (Some j))) →
  fine_rel locks keys f' c'.
Proof.
  intros (Hsh & Hlog & Hll & Hlk & Hth & Hown) Hi Hft Hct Hsh' Hlog' Hll' Hlen'
         Hrel Hother Hown'.
  assert (Hic : (i < length (c_threads c))%nat).
  { destruct (lookup_lt_is_Some_2 _ _ Hi) as [ft Hfti].
    destruct (Hth i ft Hfti) as (ct & Hcti & _). by eapply lookup_lt_Some. }
  repeat split; [done|done|congruence|congruence|..].
  - intros j ft Hj. rewrite Hft in Hj. rewrite Hct.
    destruct (decide (i = j)) as [<-|Hij].
    + rewrite list_lookup_insert_eq in Hj by done. injection Hj as <-.
      exists ct'. by rewrite list_lookup_insert_eq.
    + rewrite list_lookup_insert_ne in Hj by done.
      destruct (Hth j ft Hj) as (ct & Hctj & Hrelj).
      exists ct. rewrite list_lookup_insert_ne by done. split; [done|].
      eapply thread_rel_other; [done|done|..];
        intros p Hp; by destruct (Hother j p ltac:(done) Hp).
  - intros p j Hp. rewrite Hft.
    destruct (Hown' p j Hp) as [[-> Hin]|[Hji Hold]].
    + exists ft'. by rewrite list_lookup_insert_eq.
    + destruct (Hown p j Hold) as (ft & Hftj & Hin).
      exists ft. by rewrite list_lookup_insert_ne.
Qed.

(** A small step is a whole iteration of the same thread, or nothing
    the other model can see. *)
Lemma fine_step_simulation f c i :
  fine_rel locks keys f c →
  ∃ c', (c' = c ∨ c' = thread_step locks keys c i) ∧
        fine_rel locks keys (fine_step keys f i) c'.
Proof.
  intros Hrel. pose proof Hrel as (Hsh & Hlog & Hll & Hlk & Hth & Hown).
  unfold fine_step.
  destruct (f_threads f !! i) as [ft|] eqn:Hft; [|by exists c; auto].
  pose proof (lookup_lt_Some _ _ _ Hft) as Hi.
  destruct (Hth i ft Hft) as (ct & Hct & Hreli).
  assert (Hfree : ∀ rnd reads todo p,
            ft = FRunning rnd reads todo → f_locks f !! p ≠ Some (Some i)).
  { intros rnd reads todo p -> Hp.
    destruct (Hown p i Hp) as (ft & Hft' & Hin).
    rewrite Hft in Hft'. by injection Hft' as <-. }
  destruct ft as [rnd reads [|todo]|rnd' reads todo k r s p
                 |rnd' reads todo k s p v found|e]; [by exists c; auto| | | |
                 by exists c; auto].
  - (* the draws and the lock *)
    cbn [thread_rel] in Hreli. subst ct.
    pose proof (worker_thread_body_draw (c_shards c) locks keys reads rnd)
      as Hbody. rewrite Hsh in Hbody.
    destruct (worker_thread_draw _ keys rnd) as [[[[k r] s] rnd']|e] eqn:Hdraw.
    + rewrite bind_Ok in Hbody.
      destruct (py_index (length (f_locks f)) s) as [p|e] eqn:Hp.
      * destruct (f_locks f !! p) as [[j|]|] eqn:Hlock; [by exists c; auto|
          |by exists c; auto].
        exists c. split; [by left|].
        eapply (fine_rel_update f c _ c i _ (Running rnd reads (S todo)));
          cbn [f_threads f_shards f_locks f_log]; try done.
        -- by rewrite list_insert_id.
        -- by rewrite length_insert.
        -- cbn [thread_rel f_shards f_locks].
           exists rnd. split; [done|]. split; [done|].
           split; [by rewrite <- Hll|]. apply list_lookup_insert_eq.
           by eapply lookup_lt_Some.
        -- intros j q Hji Hq. split; [|done].
           rewrite list_lookup_insert_ne; [done|]. intros <-. congruence.
        -- intros q j Hq. destruct (decide (q = p)) as [->|Hqp].
           ++ rewrite list_lookup_insert_eq in Hq
                by by eapply lookup_lt_Some.
              injection Hq as <-. by left.
           ++ rewrite list_lookup_insert_ne in Hq by done. right.
              split; [|done]. intros ->. by eapply Hfree.
      * (* no such lock *)
        assert (Hb : worker_thread_body (c_shards c) locks keys reads rnd
                     = Raise e).
        { rewrite Hsh, Hbody. unfold worker_thread_access.
          rewrite (py_getitem_index_Raise locks s e) by congruence.
          by destruct (r <? reads). }
        exists (thread_step locks keys c i). split; [by right|].
        rewrite (thread_step_Raise _ _ _ _ _ _ _ _ Hct Hb).
        eapply (fine_rel_update f c _ _ i _ (Crashed e));
          cbn [f_threads f_shards f_locks f_log c_threads c_shards c_log
               fine_crash]; try done.
        intros q j Hq. right. split; [|done]. intros ->. by eapply Hfree.
    + assert (Hb : worker_thread_body (c_shards c) locks keys reads rnd
                   = Raise e) by by rewrite Hsh, Hbody.
      exists (thread_step locks keys c i). split; [by right|].
      rewrite (thread_step_Raise _ _ _ _ _ _ _ _ Hct Hb).
      eapply (fine_rel_update f c _ _ i _ (Crashed e));
        cbn [f_threads f_shards f_locks f_log c_threads c_shards c_log
             fine_crash]; try done.
      intros q j Hq. right. split; [|done]. intros ->. by eapply Hfree.
  - (* inside [with], before the access *)
    cbn [thread_rel] in Hreli. destruct Hreli as (rnd & -> & Hdraw & Hp & Hlock).
    pose proof (py_index_Ok_inv _ _ _ Hp) as Hplt.
    destruct (lookup_lt_is_Some_2 (f_shards f) p Hplt) as [d Hd].
    rewrite (py_getitem_index _ _ _ _ Hp Hd).
    assert (Hother : ∀ j q, j ≠ i → f_locks f !! q = Some (Some j) →
              <[p := None]> (f_locks f) !! q = Some (Some j)).
    { intros j q Hji Hq. rewrite list_lookup_insert_ne; [done|].
      intros <-. congruence. }
    destruct (r <? reads) eqn:Hr.
    + (* a read *)
      destruct (lookup_lt_is_Some_2 locks p) as [l Hl]; [congruence|].
      assert (Hb : worker_thread_body (c_shards c) locks keys reads rnd
                   = Ok (f_shards f, rnd', Event Read k s (d !! k))).
      { rewrite worker_thread_body_draw, Hsh, Hdraw, bind_Ok.
        unfold worker_thread_access. rewrite Hr.
        rewrite (py_getitem_index locks s p l), bind_Ok by congruence.
        by rewrite (py_getitem_index _ _ _ _ Hp Hd). }
      exists (thread_step locks keys c i). split; [by right|].
      rewrite (thread_step_Ok _ _ _ _ _ _ _ _ _ _ Hct Hb).
      eapply (fine_rel_update f _ _ _ i _ (Running rnd' reads todo));
        cbn [f_threads f_shards f_locks f_log c_threads c_shards c_log];
        try done.
      * congruence.
      * by rewrite length_insert.
      * intros j q Hji Hq. split; [by eapply Hother|done].
      * intros q j Hq. destruct (decide (q = p)) as [->|Hqp].
        -- rewrite list_lookup_insert_eq in Hq by congruence. done.
        -- rewrite list_lookup_insert_ne in Hq by done. right.
           split; [|done]. intros ->.
           destruct (Hown q i Hq) as (ft & Hft' & Hin).
           rewrite Hft in Hft'. injection Hft' as <-. by cbn in Hin.
    + (* a write: the counter is fetched *)
      exists c. split; [by left|].
      eapply (fine_rel_update f c _ c i _ (Running rnd reads (S todo)));
        cbn [f_threads f_shards f_locks f_log]; try done.
      * by rewrite list_insert_id.
      * cbn [thread_rel f_shards f_locks]. exists rnd, r, d. eauto 10.
      * intros q j Hq. destruct (decide (j = i)) as [->|Hji]; [|by right].
        left. split; [done|]. destruct (Hown q i Hq) as (ft & Hft' & Hin).
        rewrite Hft in Hft'. by injection Hft' as <-.
  - (* the assignment *)
    cbn [thread_rel] in Hreli.
    destruct Hreli as (rnd & r & d & -> & Hdraw & Hr & Hp & Hlock & Hd & -> & ->).
    pose proof (py_index_Ok_inv _ _ _ Hp) as Hplt.
    assert (Hset : py_setitem2 (f_shards f) s k (dict_get d k + 1)
                   = Ok (<[p := <[k := dict_get d k + 1]> d]> (f_shards f))).
    { unfold py_setitem2. by rewrite Hp, bind_Ok, Hd. }
    rewrite Hset.
    destruct (lookup_lt_is_Some_2 locks p) as [l Hl]; [congruence|].
    assert (Hb : worker_thread_body (c_shards c) locks keys reads rnd
                 = Ok (<[p := <[k := dict_get d k + 1]> d]> (f_shards f), rnd',
                       Event Write k s (d !! k))).
    { rewrite worker_thread_body_draw, Hsh, Hdraw, bind_Ok.
      unfold worker_thread_access. rewrite Hr.
      rewrite (py_getitem_index locks s p l), bind_Ok by congruence.
      by rewrite (py_getitem_index _ _ _ _ Hp Hd), bind_Ok, Hset. }
    exists (thread_step locks keys c i). split; [by right|].
    rewrite (thread_step_Ok _ _ _ _ _ _ _ _ _ _ Hct Hb).
    eapply (fine_rel_update f _ _ _ i _ (Running rnd' reads todo));
      cbn [f_threads f_shards f_locks f_log c_threads c_shards c_log];
      try done.
    + congruence.
    + by rewrite length_insert.
    + by rewrite length_insert.
    + intros j q Hji Hq.
      assert (q ≠ p) by (intros ->; congruence).
      by rewrite !list_lookup_insert_ne.
    + intros q j Hq. destruct (decide (q = p)) as [->|Hqp].
      * rewrite list_lookup_insert_eq in Hq by congruence. done.
      * rewrite list_lookup_insert_ne in Hq by done. right.
        split; [|done]. intros ->.
        destruct (Hown q i Hq) as (ft & Hft' & Hin).
        rewrite Hft in Hft'. injection Hft' as <-. by cbn in Hin.
Qed.

Lemma fine_init_rel c :
  length locks = length (c_shards c) → fine_rel locks keys (fine_init c) c.
Proof.
  intros Hlen. unfold fine_init. repeat split; cbn; try done.
  - by rewrite length_replicate.
  - intros i ft. rewrite list_lookup_fmap.
    destruct (c_threads c !! i) as [ct|]; [|done]. intros [= <-].
    exists ct. split; [done|]. by destruct ct.
  - intros p i [? _]%lookup_replicate. done.
Qed.

Lemma fine_exec_simulation fsched f c :
  fine_rel locks keys f c →
  ∃ sched, fine_rel locks keys (fine_exec keys fsched f)
             (exec_schedule locks keys sched c).
Proof.
  revert f c. induction fsched as [|i fsched IH]; intros f c Hrel.
  - by exists [].
  - destruct (fine_step_simulation f c i Hrel) as (c' & [->| ->] & Hrel').
    + destruct (IH _ _ Hrel') as [sched Hsched]. by exists sched.
    + destruct (IH _ _ Hrel') as [sched Hsched]. by exists (i :: sched).
Qed.

(** Two threads are never inside [with] on the same lock. *)
Lemma fine_rel_exclusion f c i j fi fj p :
  fine_rel locks keys f c →
  f_threads f !! i = Some fi → f_threads f !! j = Some fj →
  in_section fi p → in_section fj p → i = j.
Proof.
  intros (_ & _ & _ & _ & Hth & _) Hi Hj Hpi Hpj.
  destruct (Hth i fi Hi) as (cti & _ & Hreli).
  destruct (Hth j fj Hj) as (ctj & _ & Hrelj).
  assert (Hli : f_locks f !! p = Some (Some i)).
  { destruct fi; cbn in Hpi, Hreli; try done; subst;
      [by destruct Hreli as (? & _ & _ & _ & ?)
      |by destruct Hreli as (? & ? & ? & _ & _ & _ & _ & ? & _)]. }
  assert (Hlj : f_locks f !! p = Some (Some j)).
  { destruct fj; cbn in Hpj, Hrelj; try done; subst;
      [by destruct Hrelj as (? & _ & _ & _ & ?)
      |by destruct Hrelj as (? & ? & ? & _ & _ & _ & _ & ? & _)]. }
  congruence.
Qed.

End refinement.

(** Store and log of every state of the model with locks are store and
    log of a state of the model of whole iterations; no two threads hold
    the same lock. *)
Lemma main_threads_fine_refines args per fsched f :
  main_threads_fine args per fsched = Ok f →
  (∃ c, threads_reach args per c ∧
        f_shards f = c_shards c ∧ f_log f = c_log c) ∧
  (∀ i j fi fj p,
     f_threads f !! i = Some fi → f_threads f !! j = Some fj →
     in_section fi p → in_section fj p → i = j).
Proof.
  unfold main_threads_fine. intros (sh & Hsh & [= <-])%bind_Ok_inv.
  set (locks := new_locks (arg_shards args)).
  set (c0 := threads_init args per sh).
  assert (Hlen : length locks = length (c_shards c0)).
  { unfold locks, c0. cbn. apply prefill_length in Hsh.
    by rewrite Hsh, new_shards_length, new_locks_length. }
  destruct (fine_exec_simulation locks (arg_keys args) fsched _ _
              (fine_init_rel locks (arg_keys args) c0 Hlen)) as [sched Hrel].
  split.
  - exists (exec_schedule locks (arg_keys args) sched c0). split.
    + left. exists sched. unfold main_threads_at. by rewrite Hsh.
    + by destruct Hrel as (<- & <- & _).
  - intros i j fi fj p. by eapply fine_rel_exclusion.
Qed.

Lemma threads_state_reach args per sh log :
  threads_state args per sh log →
  ∃ c, threads_reach args per c ∧ sh = c_shards c ∧ log = (c_log c).*2.
Proof.
  intros [(sched & c & Hc & -> & ->)|[(sched & c & Hc & -> & ->)
         |(fsched & f & Hf & -> & ->)]].
  - exists c. split; [left; eauto|done].
  - exists c. split; [right; eauto|done].
  - destruct (main_threads_fine_refines _ _ _ _ Hf)
      as [(c & Hc & -> & ->) _]. eauto.
Qed.

(** ** Writes are counted *)

Lemma run_threads_tids locks keys sched c :
  length (c_shards c) = length locks → c_log c = [] →
  Forall (λ p, (p.1 < length (c_threads c))%nat)
    (c_log (run_threads locks keys sched c)).
Proof.
  intros Hlen Hlog.
  enough (length (c_shards (run_threads locks keys sched c)) = length locks ∧
          length (c_threads (run_threads locks keys sched c))
            = length (c_threads c) ∧
          Forall (λ p, (p.1 < length (c_threads c))%nat)
            (c_log (run_threads locks keys sched c))) as (_ & _ & ?); [done|].
  apply (run_threads_invariant locks keys
           (λ c', length (c_shards c') = length locks ∧
                  length (c_threads c') = length (c_threads c) ∧
                  Forall (λ p, (p.1 < length (c_threads c))%nat) (c_log c'))).
  - intros c' i (Hl & Ht & Hf).
    split; [by apply thread_step_length|].
    split; [by rewrite thread_step_threads_length|].
    destruct (thread_step_inv locks keys c' i Hl)
      as [->|(rnd & reads & todo & Hi &
              [(e & _ & ->)|(sh & rnd' & ev & _ & ->)])]; [done..|].
    cbn [c_log]. apply Forall_app. split; [done|].
    apply Forall_singleton. cbn. apply lookup_lt_Some in Hi. lia.
  - rewrite Hlog. by repeat split.
Qed.

Lemma thread_log_all i (log : list (nat * event)) :
  Forall (λ p, p.1 = i) log → thread_log i log = log.*2.
Proof.
  intros Hall. unfold thread_log. f_equal.
  induction Hall as [|p log Hp _ IH]; [done|].
  by rewrite filter_cons, decide_True, IH.
Qed.

Lemma writes_to_all k (log : list event) :
  Forall (λ ev, ev_kind ev = Write ∧ ev_key ev = k) log →
  writes_to k log = length log.
Proof.
  intros Hall. unfold writes_to.
  induction Hall as [|ev log Hev _ IH]; [done|].
  rewrite filter_cons, decide_True by done. cbn. by rewrite IH.
Qed.

(** A log of writes whose operations all name the key [k]. *)
Lemma writes_to_operations k (log : list event) (ops : list (kind * Z)) :
  ev_op <$> log = ops →
  Forall (λ ev, ev_kind ev = Write) log → Forall (λ op, op.2 = k) ops →
  writes_to k log = length ops.
Proof.
  intros <- Hw Hk. rewrite length_fmap. apply writes_to_all.
  apply Forall_fmap in Hk. rewrite Forall_forall in Hw, Hk.
  apply Forall_forall. intros ev Hev. split; [by apply Hw|by apply Hk].
Qed.

Lemma prefilled_store_get_default K S sh k :
  prefilled K S sh → default 0 (store_get S sh k) = 0.
Proof.
  intros [_ H]. unfold store_get.
  destruct (sh !! Z.to_nat (k mod S)) as [d|] eqn:Hd; [|done].
  cbn. rewrite (H _ d Hd). by case_decide.
Qed.

Lemma keys_routed_store_get K S sh k :
  1 ≤ S → keys_routed K S sh → 0 ≤ k < K → is_Some (store_get S sh k).
Proof.
  intros HS [Hlen H] Hk. unfold store_get.
  assert (Hs : 0 ≤ k mod S < S) by (apply Z.mod_pos_bound; lia).
  destruct (lookup_lt_is_Some_2 sh (Z.to_nat (k mod S))) as [d Hd]; [lia|].
  rewrite Hd. cbn. apply (H _ d k Hd). lia.
Qed.

Lemma body_preserves_counted K S R :
  1 ≤ K → body_preserves K S R (counted K S).
Proof.
  intros HK sh log rnd reads sh' rnd' ev HS Hlen _ [Hkeys Hcount] Hb. split.
  - by destruct (body_preserves_keys K S HK sh [] rnd reads sh' rnd' ev).
  - intros k.
    by rewrite (body_preserves_count K S (λ _, 0)
                  sh log rnd reads sh' rnd' ev HS Hlen I Hcount Hb).
Qed.

Lemma prefill_counted K S sh :
  1 ≤ S → prefill (new_shards S) K S = Ok sh → counted K S sh [].
Proof.
  intros HS Hsh. destruct (prefill_prefilled K S HS) as (sh0 & Hsh0 & Hpre).
  assert (sh = sh0) as -> by congruence. split.
  - by apply prefilled_keys_routed.
  - intros k. by rewrite (prefilled_store_get_default K S sh0 k).
Qed.

Lemma counted_store_get K S sh log k :
  1 ≤ S → counted K S sh log → 0 ≤ k < K →
  store_get S sh k = Some (Z.of_nat (writes_to k log)).
Proof.
  intros HS [Hkeys Hcount] Hk. specialize (Hcount k).
  by destruct (keys_routed_store_get K S sh k HS Hkeys Hk) as [v Hv];
    rewrite Hv in Hcount |- *; cbn in Hcount; subst.
Qed.

(** * The claims *)

(** C1. In both execution models worker [i] performs the operations the
    workload of the specification draws from a generator of its own,
    seeded with [seed + i]: one operation per iteration, two draws per
    operation, the key from the first draw modulo the key count, the kind
    from the second draw modulo 1000 compared with [floor (ρ * 1000)]. *)
Theorem C1_worker_operations args per sched thr :
  arg_keys args ≠ 0 → 1 ≤ arg_shards args →
  threshold (arg_read_ratio args) = Some thr →
  let stream (i : nat) :=
    Workload.operations (Z.to_nat per) (arg_keys args) thr
      ((arg_seed args + Z.of_nat i) mod 2 ^ 64) in
  (∃ c, main_threads args per sched = Ok c ∧
     ∀ i : nat, Z.of_nat i < arg_threads args →
       ev_op <$> thread_log i (c_log c) = stream i) ∧
  (∀ (i : nat) job, process_jobs args per !! i = Some job →
     ∃ shards log, worker_process_run job = Ok (shards, log) ∧
       ev_op <$> log = stream i).
Proof.
  intros HK HS Hthr stream.
  destruct (threshold_int _ _ Hthr) as (reads & Hint & Hcmp). split.
  - destruct (main_threads_trace args per sched thr reads HK HS Hint Hcmp)
      as (c & Hc & Htrace).
    exists c. split; [done|]. intros i Hi.
    destruct (Htrace i Hi) as [_ ->]. unfold stream, splitmix64.
    by rewrite land_mask64.
  - intros i job. unfold process_jobs. rewrite list_lookup_fmap.
    destruct (py_range (arg_threads args) !! i) as [x|] eqn:Hx; [|done].
    apply py_range_lookup in Hx as [-> Hi]. intros [= <-].
    pose proof (worker_process_run_Ok (arg_keys args) per (arg_read_ratio args)
                  (arg_seed args) (Z.of_nat i) (arg_shards args) reads
                  HK HS Hint) as Hok.
    destruct (worker_process_run _) as [[sh log]|e] eqn:Hrun; [|done].
    exists sh, log. split; [done|].
    apply worker_process_run_inv in Hrun
      as (sh0 & reads' & rnd' & _ & Hint' & Hloop).
    assert (reads' = reads) as -> by congruence.
    rewrite (worker_process_loop_operations _ _ _ _ thr _ _ _ _ _ Hcmp Hloop).
    unfold stream, splitmix64. by rewrite py_range_length, land_mask64.
Qed.

(** C2. One step of [splitmix64] is the step of the specification: add
    [0x9E3779B97F4A7C15] modulo [2^64], then mix with the two xor-shift
    and multiply rounds and the final xor-shift; so for every seed the
    values the generator yields are the reference sequence started from
    the seed reduced modulo [2^64]. *)
Theorem C2_splitmix64_is_reference :
  (∀ x, splitmix64_next x = Reference.next x) ∧
  (∀ seed n, draws n (splitmix64 seed) = Reference.sequence n (seed mod 2 ^ 64)).
Proof.
  split.
  - apply splitmix64_next_reference.
  - intros seed n. unfold splitmix64.
    by rewrite land_mask64, draws_reference.
Qed.

(** C3. With [S ≥ 1] shards, prefill puts key [i] into the shard at
    position [i mod S]; in every state of a run, in both execution models,
    every key a shard holds routes to that shard, and every access a
    worker made went to the shard [key mod S]. *)
Theorem C3_routing args per :
  1 ≤ arg_shards args →
  let K := arg_keys args in
  let S := arg_shards args in
  (∃ sh0, prefill (new_shards S) K S = Ok sh0 ∧
     ∀ i, 0 ≤ i < K →
       ∃ d, sh0 !! Z.to_nat (i mod S) = Some d ∧ d !! i = Some 0) ∧
  (∀ sh log, threads_state args per sh log →
     routed S sh ∧ Forall (ev_routed S) log) ∧
  (∀ job sh log, job ∈ process_jobs args per →
     worker_process_run job = Ok (sh, log) →
     routed S sh ∧ Forall (ev_routed S) log).
Proof.
  intros HS K S.
  destruct (prefill_prefilled K S HS) as (sh0 & Hsh0 & Hpre).
  split; [|split].
  - exists sh0. split; [done|]. intros i Hi.
    pose proof (prefilled_store_get K S sh0 i HS Hpre Hi) as Hget.
    unfold store_get in Hget.
    destruct (sh0 !! Z.to_nat (i mod S)) as [d|]; [|done]. eauto.
  - intros sh log (c & Hc & -> & ->)%threads_state_reach. revert Hc.
    apply threads_reach_invariant with (R := λ _, True)
      (P := λ sh log, routed S sh ∧ Forall (ev_routed S) log); [done| |].
    + intros sh Hsh. assert (sh = sh0) as -> by (unfold K, S in *; congruence).
      split; [by eapply prefilled_routed|done].
    + apply body_preserves_routed.
  - intros job sh log [i ->]%process_jobs_elem.
    apply worker_process_run_invariant with (R := λ _, True)
      (P := λ sh log, routed S sh ∧ Forall (ev_routed S) log); [done| |].
    + intros sh1 Hsh. assert (sh1 = sh0) as -> by (unfold K, S in *; congruence).
      split; [by eapply prefilled_routed|done].
    + apply body_preserves_routed.
Qed.

(** C4. With [S ≥ 1] shards, prefill returns the store in which shard
    [j] holds exactly the keys of [[0, K)] that are [j] modulo [S], each
    with counter 0: the keys of the store are [0 .. K-1] and nothing
    else. This is the store the threads start from, and the store a run
    with zero iterations per worker ends with, in both models. *)
Theorem C4_prefill args sched :
  1 ≤ arg_shards args →
  let K := arg_keys args in
  let S := arg_shards args in
  ∃ sh0, prefill (new_shards S) K S = Ok sh0 ∧
    prefilled K S sh0 ∧
    store_keys sh0 = list_to_set (seqZ 0 K) ∧
    (∀ k, 0 ≤ k < K → store_get S sh0 k = Some 0) ∧
    (∀ per, main_threads_at args per [] = Ok (threads_init args per sh0)) ∧
    (∃ c, main_threads args 0 sched = Ok c ∧ c_shards c = sh0 ∧ c_log c = []) ∧
    (∀ job, job ∈ process_jobs args 0 →
       (∀ sh log, worker_process_run job = Ok (sh, log) → sh = sh0 ∧ log = []) ∧
       (is_ok (reads_of (arg_read_ratio args))
          = true →
        is_ok (worker_process_run job) = true)).
Proof.
  intros HS K S.
  destruct (prefill_prefilled K S HS) as (sh0 & Hsh0 & Hpre).
  exists sh0. split; [done|]. split; [done|]. split; [|split; [|split; [|split]]].
  - apply (keys_routed_store_keys K S); [done|].
    by apply prefilled_keys_routed.
  - intros k. by apply prefilled_store_get.
  - intros per. unfold main_threads_at. fold K S. by rewrite Hsh0.
  - unfold main_threads. fold K S. rewrite Hsh0, bind_Ok.
    eexists. split; [done|]. unfold run_threads.
    rewrite !exec_schedule_done; [done|..];
      try rewrite exec_schedule_done;
      by (intros j t; apply threads_init_done).
  - intros job [i ->]%process_jobs_elem. fold K S.
    unfold worker_process_run. rewrite Hsh0, bind_Ok.
    destruct (reads_of _) as [reads|e]; [|done].
    rewrite bind_Ok, (py_range_nonpos 0) by lia. cbn [for_each].
    rewrite !bind_Ok. split; [|done]. by intros sh log [= <- <-].
Qed.

(** C5. When [main] emits a record, its [iterations] field is the worker
    count times the quotient of the total iterations by the worker count;
    for at least one worker and a total that is not negative the floored
    quotient of [//] is the truncated one. *)
Theorem C5_reported_iterations args env sched r :
  1 ≤ arg_threads args → 0 ≤ arg_iterations args →
  stdout (main args env sched) = Some r →
  res_iterations r = arg_threads args * (arg_iterations args / arg_threads args)
  ∧ res_iterations r
    = arg_threads args * (arg_iterations args ÷ arg_threads args).
Proof.
  intros Ht Hi. rewrite Z.quot_div_nonneg by lia.
  unfold main. rewrite py_floordiv_Ok by lia.
  destruct (String.eqb _ "threads").
  - destruct (main_threads _ _ _); [|done].
    intros [= <-]. cbn. lia.
  - destruct (String.eqb _ "processes"); [|done].
    destruct (main_processes _ _); [|done].
    intros [= <-]. cbn. lia.
Qed.

(** C6. With [read_ratio = 0] the threshold is 0: every access, in both
    models, is a write. A write, by a thread or by a process, leaves the
    key with one more than the counter it had, or with 1 when the key was
    absent, and touches no other key; so in every state of a run each
    counter is the number of writes made to its key. Hence a single
    worker whose [per] operations all name the key [k] leaves [k] with the
    counter [per]. *)
Theorem C6_writes_only args per :
  arg_read_ratio args = 0%float →
  1 ≤ arg_keys args → 1 ≤ arg_shards args →
  let K := arg_keys args in
  let S := arg_shards args in
  let ops i :=
    Workload.operations (Z.to_nat per) K 0 ((arg_seed args + i) mod 2 ^ 64) in
  reads_of (arg_read_ratio args) = Ok 0 ∧
  (∀ sh locks reads rnd sh' rnd' ev,
     length sh = Z.to_nat S → length locks = length sh →
     worker_thread_body sh locks K reads rnd = Ok (sh', rnd', ev) ∨
     worker_process_body sh K S reads rnd = Ok (sh', rnd', ev) →
     ev_kind ev = Write →
     store_get S sh' (ev_key ev)
       = Some (default 0 (store_get S sh (ev_key ev)) + 1) ∧
     ∀ k, k ≠ ev_key ev → store_get S sh' k = store_get S sh k) ∧
  (∀ sh log, threads_state args per sh log →
     Forall (λ ev, ev_kind ev = Write) log ∧
     ∀ k, 0 ≤ k < K → store_get S sh k = Some (Z.of_nat (writes_to k log))) ∧
  (∀ job sh log, job ∈ process_jobs args per →
     worker_process_run job = Ok (sh, log) →
     Forall (λ ev, ev_kind ev = Write) log ∧
     ∀ k, 0 ≤ k < K → store_get S sh k = Some (Z.of_nat (writes_to k log))) ∧
  (∀ k sched, arg_threads args = 1 → 0 ≤ per → 0 ≤ k < K →
     Forall (λ op, op.2 = k) (ops 0) →
     ∃ c, main_threads args per sched = Ok c ∧
          store_get S (c_shards c) k = Some per) ∧
  (∀ k i, 0 ≤ per → 0 ≤ k < K → Forall (λ op, op.2 = k) (ops i) →
     ∃ sh log,
       worker_process_run (K, per, arg_read_ratio args, arg_seed args, i, S)
         = Ok (sh, log) ∧
       store_get S sh k = Some per).
Proof.
  intros Hρ HK HS K S ops.
  assert (Hint : reads_of (arg_read_ratio args)
                 = Ok 0) by (rewrite Hρ; vm_compute; reflexivity).
  assert (HR : ∀ reads,
            reads_of (arg_read_ratio args)
              = Ok reads → reads ≤ 0).
  { intros reads Hreads. rewrite Hint in Hreads. injection Hreads as <-. lia. }
  assert (Hbody : body_preserves K S (λ reads, reads ≤ 0)
            (λ sh log, Forall (λ ev, ev_kind ev = Write) log ∧ counted K S sh log)).
  { apply body_preserves_and;
      [apply body_preserves_writes|by apply body_preserves_counted]. }
  assert (Hinit : ∀ sh, prefill (new_shards S) K S = Ok sh →
            Forall (λ ev, ev_kind ev = Write) [] ∧ counted K S sh []).
  { intros sh Hsh. split; [done|]. by apply prefill_counted. }
  assert (Hthreads : ∀ c, threads_reach args per c →
            Forall (λ ev, ev_kind ev = Write) (c_log c).*2 ∧
            counted K S (c_shards c) (c_log c).*2).
  { intros c. by apply threads_reach_invariant with (R := λ reads, reads ≤ 0)
      (P := λ sh log, Forall (λ ev, ev_kind ev = Write) log ∧ counted K S sh log). }
  assert (Hprocess : ∀ i sh log,
            worker_process_run (K, per, arg_read_ratio args, arg_seed args, i, S)
              = Ok (sh, log) →
            Forall (λ ev, ev_kind ev = Write) log ∧ counted K S sh log).
  { intros i sh log.
    by apply worker_process_run_invariant with (R := λ reads, reads ≤ 0)
      (P := λ sh log, Forall (λ ev, ev_kind ev = Write) log ∧ counted K S sh log). }
  split; [done|]. split; [|split; [|split; [|split]]].
  - intros sh locks reads rnd sh' rnd' ev Hlen Hlocks Hb' Hw.
    assert (Hb : worker_process_body sh K S reads rnd = Ok (sh', rnd', ev)).
    { destruct Hb' as [Hb|Hb]; [|done].
      rewrite worker_thread_body_process in Hb by done.
      by rewrite Hlen, Z2Nat.id in Hb by lia. }
    pose proof (λ k, worker_process_body_get _ _ _ _ _ _ _ _ k HS Hlen Hb) as Hget.
    rewrite Hw in Hget. split.
    + by rewrite Hget, decide_True.
    + intros k Hk. by rewrite Hget, decide_False.
  - intros sh log (c & [Hw Hcount]%Hthreads & -> & ->)%threads_state_reach.
    split; [done|]. intros k Hk. by eapply counted_store_get.
  - intros job sh log [i ->]%process_jobs_elem [Hw Hcount]%Hprocess.
    split; [done|]. intros k Hk. by eapply counted_store_get.
  - intros k sched Hone Hper Hk Hops.
    destruct (main_threads_trace args per sched 0 0) as (c & Hc & Htrace);
      [unfold K in HK; lia|done..|].
    exists c. split; [done|].
    destruct (Hthreads c) as [Hw Hcount]; [right; eauto|].
    rewrite (counted_store_get K S _ _ k HS Hcount Hk). do 2 f_equal.
    destruct (Htrace O) as [_ Hlog]; [lia|].
    assert (Htid : Forall (λ p : nat * event, p.1 = O) (c_log c)).
    { unfold main_threads in Hc.
      apply bind_Ok_inv in Hc as (sh0 & Hsh0 & [= <-]).
      eapply Forall_impl; [apply run_threads_tids|].
      - cbn. apply prefill_length in Hsh0.
        by rewrite Hsh0, new_shards_length, new_locks_length.
      - done.
      - intros [j ev]. rewrite threads_init_length, Hone. cbn. lia. }
    rewrite (thread_log_all _ _ Htid) in Hlog.
    rewrite (writes_to_operations k _ _ Hlog Hw).
    + rewrite operations_length. lia.
    + unfold ops in Hops. unfold splitmix64. by rewrite land_mask64.
  - intros k i Hper Hk Hops.
    pose proof (worker_process_run_Ok K per (arg_read_ratio args)
                  (arg_seed args) i S 0) as Hok.
    destruct (worker_process_run _) as [[sh log]|e] eqn:Hrun;
      [|discriminate Hok; (done || unfold K in HK; lia)].
    exists sh, log. split; [done|].
    destruct (Hprocess i sh log Hrun) as [Hw Hcount].
    rewrite (counted_store_get K S _ _ k HS Hcount Hk). do 2 f_equal.
    apply worker_process_run_inv in Hrun
      as (sh0 & reads & rnd' & _ & Hint' & Hloop).
    assert (reads = 0) as -> by congruence.
    pose proof (worker_process_loop_operations _ _ _ _ 0 _ _ _ _ _
                  ltac:(done) Hloop) as Hlog.
    rewrite py_range_length in Hlog.
    rewrite (writes_to_operations k _ _ Hlog Hw).
    + rewrite operations_length. lia.
    + unfold ops in Hops. unfold splitmix64. by rewrite land_mask64.
Qed.

(** C7. With [read_ratio = 1.0] the threshold is 1000, above every
    remainder modulo 1000: in both models every access is a read, and in
    every state of a run the store is the prefilled store. A run of the
    thread model returns whenever there is a shard; so does a worker
    process when the key count is not zero. *)
Theorem C7_read_only args per :
  arg_read_ratio args = 1%float →
  let K := arg_keys args in
  let S := arg_shards args in
  reads_of (arg_read_ratio args) = Ok 1000 ∧
  (∀ sh log, threads_state args per sh log →
     prefill (new_shards S) K S = Ok sh ∧
     Forall (λ ev, ev_kind ev = Read) log) ∧
  (∀ job sh log, job ∈ process_jobs args per →
     worker_process_run job = Ok (sh, log) →
     prefill (new_shards S) K S = Ok sh ∧
     Forall (λ ev, ev_kind ev = Read) log) ∧
  (1 ≤ S →
   (∀ sched, is_ok (main_threads args per sched) = true) ∧
   (K ≠ 0 → ∀ job, job ∈ process_jobs args per →
      is_ok (worker_process_run job) = true)).
Proof.
  intros Hρ K S.
  assert (Hint : reads_of (arg_read_ratio args)
                 = Ok 1000) by (rewrite Hρ; vm_compute; reflexivity).
  assert (HR : ∀ reads,
            reads_of (arg_read_ratio args)
              = Ok reads → 1000 ≤ reads).
  { intros reads Hreads. rewrite Hint in Hreads. injection Hreads as <-. lia. }
  split; [done|]. split; [|split].
  - intros sh log (c & Hc & -> & ->)%threads_state_reach.
    destruct (threads_reach_prefill _ _ _ Hc) as [sh0 Hsh0].
    fold K S in Hsh0. rewrite Hsh0.
    revert Hc. apply threads_reach_invariant with (R := λ reads, 1000 ≤ reads)
      (P := λ sh log, Ok sh0 = Ok sh ∧ Forall (λ ev, ev_kind ev = Read) log);
      [done| |].
    + intros sh Hsh. fold K S in Hsh. by rewrite <- Hsh, Hsh0.
    + intros sh log rnd reads sh' rnd' ev HS Hlen Hreads [[= <-] Hlog] Hb.
      destruct (body_preserves_reads K S sh0 sh0 log rnd reads sh' rnd' ev)
        as [-> ?]; done.
  - intros job sh log [i ->]%process_jobs_elem Hrun.
    destruct (worker_process_run_inv _ _ _ _ _ _ _ _ Hrun)
      as (sh0 & _ & _ & Hsh0 & _). fold K S in Hsh0. rewrite Hsh0.
    revert Hrun.
    apply worker_process_run_invariant with (R := λ reads, 1000 ≤ reads)
      (P := λ sh log, Ok sh0 = Ok sh ∧ Forall (λ ev, ev_kind ev = Read) log);
      [done| |].
    + intros sh1 Hsh. fold K S in Hsh. by rewrite <- Hsh, Hsh0.
    + intros sh1 log1 rnd reads sh' rnd' ev HS Hlen Hreads [[= <-] Hlog] Hb.
      destruct (body_preserves_reads K S sh0 sh0 log1 rnd reads sh' rnd' ev)
        as [-> ?]; done.
  - intros HS. split.
    + intros sched. by apply main_threads_Ok.
    + intros HK job [i ->]%process_jobs_elem.
      by eapply worker_process_run_Ok.
Qed.

(** C8. The code breaks the claim at a key count of zero in the thread
    model. With one worker, one iteration and no key, the division by
    zero of line 33 is raised inside the worker thread and kills that
    thread alone, before any access to the store; [threading] prints its
    traceback, and [main] goes on to print the record, which reports the
    one iteration that never ran, and ends with status 0: under no
    schedule is the run fatal. The process model, on the same counts,
    does what the claim says: the exception of the worker reaches
    [main], no record is printed and the status is 1. *)
Theorem C8_zero_keys_not_fatal :
  arg_keys no_keys_args = 0 ∧
  main no_keys_args demo_env []
  = {| stdout := Some {| res_runtime := "python3.12.0"; res_model := "threads";
                         res_threads := 1; res_iterations := 1; res_keys := 0;
                         res_read_ratio := 0.5; res_seed := 42;
                         res_duration_ms := 12; res_rss_bytes := 4096 |};
       stderr := [ThreadTraceback 0 ZeroDivisionError];
       exit_status := 0 |} ∧
  (∃ c, main_threads no_keys_args 1 [] = Ok c ∧
     c_threads c = [Crashed ZeroDivisionError] ∧ c_log c = []) ∧
  (∀ sched, ¬ fatal (main no_keys_args demo_env sched)) ∧
  (∀ sched, main no_keys_sibling_args demo_env sched
            = uncaught ZeroDivisionError ∧
            fatal (main no_keys_sibling_args demo_env sched)).
Proof.
  split; [reflexivity|]. split; [vm_compute; reflexivity|].
  split; [eexists; split; [vm_compute; reflexivity|]; split; reflexivity|].
  split.
  - intros sched (Hout & _). unfold main in Hout.
    change (py_floordiv (arg_iterations no_keys_args) (arg_threads no_keys_args))
      with (Ok 1 : res Z) in Hout.
    change (String.eqb (arg_model no_keys_args) "threads") with true in Hout.
    pose proof (main_threads_Ok no_keys_args 1 sched) as Hok.
    destruct (main_threads no_keys_args 1 sched) as [c|e];
      [discriminate Hout|].
    discriminate Hok. vm_compute. discriminate.
  - intros sched.
    assert (Hmain : main no_keys_sibling_args demo_env sched
                    = uncaught ZeroDivisionError)
      by (vm_compute; reflexivity).
    split; [exact Hmain|]. rewrite Hmain. apply uncaught_fatal.
Qed.

(** C9. With a model that is neither ["threads"] nor ["processes"] the
    run is fatal: no record on standard output, a diagnostic on the
    error stream, a non-zero exit status; unless the worker count is zero
    (then line 74 has raised already) the diagnostic is [unknown model]
    and the status is 1. *)
Theorem C9_unknown_model args env sched :
  arg_model args ≠ "threads" → arg_model args ≠ "processes" →
  let o := main args env sched in
  stdout o = None ∧ stderr o ≠ [] ∧ exit_status o ≠ 0 ∧
  (arg_threads args ≠ 0 → stderr o = [UnknownModel] ∧ exit_status o = 1).
Proof.
  intros Ht%String.eqb_neq Hp%String.eqb_neq. cbn zeta. unfold main.
  destruct (Z.eq_dec (arg_threads args) 0) as [H0|H0].
  - rewrite H0. by cbn.
  - by rewrite py_floordiv_Ok, Ht, Hp.
Qed.

(** C10. With [K ≥ 1] keys and [S ≥ 1] shards, in every state of a run
    and in both models, the keys of the store are exactly [0 .. K-1];
    every key a worker accessed was in [[0, K)] and the dictionary held
    it, so no read fell back on the default and every write updated a
    counter that was there. *)
Theorem C10_key_set args per :
  1 ≤ arg_keys args → 1 ≤ arg_shards args →
  let K := arg_keys args in
  (∀ sh log, threads_state args per sh log →
     store_keys sh = list_to_set (seqZ 0 K) ∧ Forall (ev_found_in K) log) ∧
  (∀ job sh log, job ∈ process_jobs args per →
     worker_process_run job = Ok (sh, log) →
     store_keys sh = list_to_set (seqZ 0 K) ∧ Forall (ev_found_in K) log) ∧
  (∀ sched, is_ok (main_threads args per sched) = true) ∧
  (∀ job, job ∈ process_jobs args per →
     is_ok (reads_of (arg_read_ratio args))
       = true →
     is_ok (worker_process_run job) = true).
Proof.
  intros HK HS K. set (S := arg_shards args).
  assert (Hinit : ∀ sh, prefill (new_shards S) K S = Ok sh →
            keys_routed K S sh ∧ Forall (ev_found_in K) []).
  { intros sh Hsh. destruct (prefill_prefilled K S HS) as (sh0 & Hsh0 & Hpre).
    assert (sh = sh0) as -> by congruence.
    split; [by apply prefilled_keys_routed|done]. }
  split; [|split; [|split]].
  - intros sh log (c & Hc & -> & ->)%threads_state_reach.
    enough (keys_routed K S (c_shards c) ∧ Forall (ev_found_in K) (c_log c).*2)
      as [Hkeys ?]; [by split; [eapply keys_routed_store_keys|]|].
    revert Hc. apply threads_reach_invariant with (R := λ _, True)
      (P := λ sh log, keys_routed K S sh ∧ Forall (ev_found_in K) log);
      [done|done|]. by apply body_preserves_keys.
  - intros job sh log [i ->]%process_jobs_elem Hrun.
    enough (keys_routed K S sh ∧ Forall (ev_found_in K) log)
      as [Hkeys ?]; [by split; [eapply keys_routed_store_keys|]|].
    revert Hrun. apply worker_process_run_invariant with (R := λ _, True)
      (P := λ sh log, keys_routed K S sh ∧ Forall (ev_found_in K) log);
      [done|done|]. by apply body_preserves_keys.
  - intros sched. by apply main_threads_Ok.
  - intros job [i ->]%process_jobs_elem Hok.
    destruct (reads_of _) as [reads|e] eqn:Hint; [|done].
    eapply worker_process_run_Ok; [|done..]. unfold K in HK. lia.
Qed.

(** * Runs on concrete inputs *)

(** The first values [splitmix64(0)] yields, as the reference
    implementations of splitmix64 list them. *)
Example splitmix64_seed_0 :
  draws 3 (splitmix64 0)
  = [0xE220A8397B1DCDAF; 0x6E789E6AA1B965F4; 0x06C45D188009454F].
Proof. vm_compute. reflexivity. Qed.

(** The scenario of the specification: the four draws of keys select 5,
    0, 1 and 5 again. *)
Example scenario_store :
  ∃ c, main_threads scenario_args 4 [] = Ok c ∧
    (c_log c).*2 = [Event Write 5 1 (Some 0); Event Write 0 0 (Some 0);
                    Event Write 1 1 (Some 0); Event Write 5 1 (Some 1)] ∧
    (λ k, store_get 2 (c_shards c) k) <$> seqZ 0 10
    = [Some 1; Some 1; Some 0; Some 0; Some 0;
       Some 2; Some 0; Some 0; Some 0; Some 0].
Proof. eexists. split; [vm_compute; reflexivity|]. split; vm_compute; reflexivity. Qed.

(** A worker process does the same on its private store. *)
Example scenario_process :
  ∃ sh log, worker_process_run (10, 4, 0%float, 1, 0, 2) = Ok (sh, log) ∧
    ev_op <$> log = [(Write, 5); (Write, 0); (Write, 1); (Write, 5)] ∧
    store_get 2 sh 5 = Some 2.
Proof. do 2 eexists. split; [vm_compute; reflexivity|]. split; vm_compute; reflexivity. Qed.

(** Two threads writing to the same key under the same lock: the second
    finds the lock taken until the first has assigned, and no write is
    lost. *)
Example two_writers :
  ∃ f, main_threads_fine
         {| arg_threads := 2; arg_iterations := 2; arg_keys := 1;
            arg_read_ratio := 0; arg_seed := 3; arg_model := "threads";
            arg_shards := 1 |} 1 [0; 1; 0; 1; 0; 1; 1; 1]%nat = Ok f ∧
    f_locks f = [None] ∧
    f_threads f = [FRunning (advance 2 (splitmix64 3)) 0 0;
                   FRunning (advance 2 (splitmix64 4)) 0 0] ∧
    f_log f = [(0%nat, Event Write 0 0 (Some 0));
               (1%nat, Event Write 0 0 (Some 1))] ∧
    store_get 1 (f_shards f) 0 = Some 2.
Proof.
  eexists. split; [vm_compute; reflexivity|].
  repeat split; vm_compute; reflexivity.
Qed.

Lemma C1_witness :
  ∃ c, main_threads demo_args 4 [1; 0; 0; 1]%nat = Ok c ∧
       ev_op <$> thread_log 1 (c_log c)
       = Workload.operations 4 10 500 ((1 + 1) mod 2 ^ 64).
Proof.
  destruct (C1_worker_operations demo_args 4 [1; 0; 0; 1]%nat 500)
    as [(c & Hc & Hlog) _];
    [vm_compute; discriminate | vm_compute; discriminate
    | vm_compute; reflexivity |].
  exists c. split; [exact Hc|]. apply (Hlog 1%nat). reflexivity.
Defined.

Lemma C3_witness :
  ∃ sh0, prefill (new_shards 2) 10 2 = Ok sh0 ∧
    ∀ i, 0 ≤ i < 10 →
      ∃ d, sh0 !! Z.to_nat (i mod 2) = Some d ∧ d !! i = Some 0.
Proof.
  apply (C3_routing demo_args 4). vm_compute. discriminate.
Defined.

Lemma C4_witness :
  ∃ sh0, prefill (new_shards 2) 10 2 = Ok sh0 ∧
    prefilled 10 2 sh0 ∧ store_keys sh0 = list_to_set (seqZ 0 10).
Proof.
  destruct (C4_prefill demo_args []) as (sh0 & H1 & H2 & H3 & _);
    [vm_compute; discriminate|].
  exists sh0. split; [exact H1|]. split; [exact H2|exact H3].
Defined.

Lemma C5_witness :
  ∃ r, stdout (main uneven_args demo_env []) = Some r ∧ res_iterations r = 6.
Proof.
  eexists. split; [vm_compute; reflexivity|].
  apply (C5_reported_iterations uneven_args demo_env []);
    [vm_compute; discriminate | vm_compute; discriminate | reflexivity].
Defined.

Lemma C6_witness :
  ∃ c, main_threads one_key_args 3 [] = Ok c ∧
       store_get 2 (c_shards c) 0 = Some 3.
Proof.
  destruct (C6_writes_only one_key_args 3) as (_ & _ & _ & _ & H & _);
    [reflexivity | vm_compute; discriminate | vm_compute; discriminate |].
  apply (H 0 []); [reflexivity | vm_compute; discriminate | by vm_compute |].
  vm_compute. repeat constructor.
Defined.

Lemma C7_witness :
  ∃ c, main_threads read_only_args 4 [0; 1; 1; 0]%nat = Ok c ∧
       prefill (new_shards 2) 10 2 = Ok (c_shards c) ∧
       Forall (λ ev, ev_kind ev = Read) (c_log c).*2.
Proof.
  destruct (C7_read_only read_only_args 4) as (_ & H & _ & Hok); [reflexivity|].
  destruct Hok as [Hok _]; [vm_compute; discriminate|].
  specialize (Hok [0; 1; 1; 0]%nat).
  destruct (main_threads read_only_args 4 [0; 1; 1; 0]%nat) as [c|e] eqn:Hc;
    [|discriminate Hok].
  exists c. split; [reflexivity|]. apply (H (c_shards c) (c_log c).*2).
  right. left. exists [0; 1; 1; 0]%nat, c.
  split; [exact Hc|]. split; reflexivity.
Defined.

Lemma C9_witness :
  stdout (main gevent_args demo_env []) = None ∧
  stderr (main gevent_args demo_env []) = [UnknownModel] ∧
  exit_status (main gevent_args demo_env []) = 1.
Proof.
  destruct (C9_unknown_model gevent_args demo_env [])
    as (Hout & _ & _ & H); [discriminate | discriminate |].
  split; [exact Hout|]. apply H. vm_compute. discriminate.
Defined.

Lemma C10_witness :
  ∃ c, main_threads demo_args 4 [1; 0; 0; 1]%nat = Ok c ∧
       store_keys (c_shards c) = list_to_set (seqZ 0 10) ∧
       Forall (ev_found_in 10) (c_log c).*2.
Proof.
  destruct (C10_key_set demo_args 4) as (H & _ & Hok & _);
    [vm_compute; discriminate | vm_compute; discriminate |].
  specialize (Hok [1; 0; 0; 1]%nat).
  destruct (main_threads demo_args 4 [1; 0; 0; 1]%nat) as [c|e] eqn:Hc;
    [|discriminate Hok].
  exists c. split; [reflexivity|]. apply (H (c_shards c) (c_log c).*2).
  right. left. exists [1; 0; 0; 1]%nat, c.
  split; [exact Hc|]. split; reflexivity.
Defined.

(** * Further properties *)

(** ** The generator: 64-bit values and their bits *)

Lemma testbit_high z n : 0 ≤ z < 2 ^ 64 → 64 ≤ n → Z.testbit z n = false.
Proof.
  intros Hz Hn. rewrite <- (Z.mod_small z (2 ^ 64)) by lia.
  apply Z.mod_pow2_bits_high. lia.
Qed.

Lemma range_of_bits z :
  0 ≤ z → (∀ n, 64 ≤ n → Z.testbit z n = false) → 0 ≤ z < 2 ^ 64.
Proof.
  intros Hz Hb. split; [done|].
  assert (z mod 2 ^ 64 = z) as <-; [|apply Z.mod_pos_bound; lia].
  apply Z.bits_inj'. intros n Hn.
  destruct (decide (n < 64)).
  - apply Z.mod_pow2_bits_low. lia.
  - rewrite Z.mod_pow2_bits_high by lia. symmetry. apply Hb. lia.
Qed.

Lemma lxor_range a b :
  0 ≤ a < 2 ^ 64 → 0 ≤ b < 2 ^ 64 → 0 ≤ Z.lxor a b < 2 ^ 64.
Proof.
  intros Ha Hb. apply range_of_bits.
  - apply Z.lxor_nonneg. lia.
  - intros n Hn. by rewrite Z.lxor_spec, !testbit_high.
Qed.

Lemma shiftr_range a s : 0 ≤ a < 2 ^ 64 → 0 ≤ s → 0 ≤ a ≫ s < 2 ^ 64.
Proof.
  intros Ha Hs. apply range_of_bits.
  - apply Z.shiftr_nonneg. lia.
  - intros n Hn. rewrite Z.shiftr_spec by lia. apply testbit_high; lia.
Qed.

Lemma unxorshift_range s z : 0 ≤ z < 2 ^ 64 → 0 ≤ s → 0 ≤ unxorshift s z < 2 ^ 64.
Proof.
  intros Hz Hs. unfold unxorshift.
  apply lxor_range; [done|]. apply lxor_range; apply shiftr_range; lia.
Qed.

Lemma unxorshift_xorshift s z :
  0 ≤ z < 2 ^ 64 → 22 ≤ s → unxorshift s (Z.lxor z (z ≫ s)) = z.
Proof.
  intros Hz Hs. unfold unxorshift. apply Z.bits_inj'. intros n Hn.
  rewrite !Z.lxor_spec, !Z.shiftr_spec, !Z.lxor_spec, !Z.shiftr_spec by lia.
  replace (n + 2 * s + s) with (n + s + s + s) by lia.
  replace (n + 2 * s) with (n + s + s) by lia.
  rewrite (testbit_high z (n + s + s + s)) by lia.
  by destruct (Z.testbit z n), (Z.testbit z (n + s)),
    (Z.testbit z (n + s + s)).
Qed.

Lemma xorshift_unxorshift s z :
  0 ≤ z < 2 ^ 64 → 22 ≤ s →
  Z.lxor (unxorshift s z) (unxorshift s z ≫ s) = z.
Proof.
  intros Hz Hs. unfold unxorshift. apply Z.bits_inj'. intros n Hn.
  rewrite !Z.lxor_spec, !Z.shiftr_spec, !Z.lxor_spec, !Z.shiftr_spec by lia.
  replace (n + s + 2 * s) with (n + s + s + s) by lia.
  replace (n + 2 * s) with (n + s + s) by lia.
  rewrite (testbit_high z (n + s + s + s)) by lia.
  by destruct (Z.testbit z n), (Z.testbit z (n + s)),
    (Z.testbit z (n + s + s)).
Qed.

Lemma mul_inverse_mask64 c c' a :
  (c * c') mod 2 ^ 64 = 1 → 0 ≤ a < 2 ^ 64 →
  Z.land (Z.land (a * c) mask64 * c') mask64 = a.
Proof.
  intros Hc Ha. rewrite !land_mask64.
  rewrite Z.mul_mod_idemp_l, <- Z.mul_assoc by lia.
  rewrite <- Z.mul_mod_idemp_r, Hc, Z.mul_1_r by lia.
  apply Z.mod_small. lia.
Qed.

Lemma splitmix64_next_mix x :
  splitmix64_next x
  = (splitmix64_mix (Z.land (x + 0x9E3779B97F4A7C15) mask64),
     Z.land (x + 0x9E3779B97F4A7C15) mask64).
Proof. reflexivity. Qed.

Lemma splitmix64_unmix_mix x :
  0 ≤ x < 2 ^ 64 → splitmix64_unmix (splitmix64_mix x) = x.
Proof.
  intros Hx. unfold splitmix64_unmix, splitmix64_mix. cbv zeta.
  set (a := Z.lxor x (x ≫ 30)).
  assert (Ha : 0 ≤ a < 2 ^ 64) by (apply lxor_range, shiftr_range; lia).
  set (z1 := Z.land (a * _) mask64).
  assert (Hz1 : 0 ≤ z1 < 2 ^ 64).
  { unfold z1. rewrite land_mask64. apply Z.mod_pos_bound. lia. }
  set (b := Z.lxor z1 (z1 ≫ 27)).
  assert (Hb : 0 ≤ b < 2 ^ 64) by (apply lxor_range, shiftr_range; lia).
  set (z2 := Z.land (b * _) mask64).
  assert (Hz2 : 0 ≤ z2 < 2 ^ 64).
  { unfold z2. rewrite land_mask64. apply Z.mod_pos_bound. lia. }
  rewrite unxorshift_xorshift by lia.
  unfold z2. rewrite mul_inverse_mask64 by done.
  unfold b. rewrite unxorshift_xorshift by lia.
  unfold z1. rewrite mul_inverse_mask64 by done.
  unfold a. apply unxorshift_xorshift; lia.
Qed.

Lemma splitmix64_mix_unmix z :
  0 ≤ z < 2 ^ 64 → splitmix64_mix (splitmix64_unmix z) = z.
Proof.
  intros Hz. unfold splitmix64_unmix, splitmix64_mix. cbv zeta.
  set (a := unxorshift 31 z).
  assert (Ha : 0 ≤ a < 2 ^ 64) by (apply unxorshift_range; lia).
  set (z1 := Z.land (a * _) mask64).
  assert (Hz1 : 0 ≤ z1 < 2 ^ 64).
  { unfold z1. rewrite land_mask64. apply Z.mod_pos_bound. lia. }
  set (b := unxorshift 27 z1).
  assert (Hb : 0 ≤ b < 2 ^ 64) by (apply unxorshift_range; lia).
  set (z2 := Z.land (b * _) mask64).
  assert (Hz2 : 0 ≤ z2 < 2 ^ 64).
  { unfold z2. rewrite land_mask64. apply Z.mod_pos_bound. lia. }
  rewrite xorshift_unxorshift by lia.
  unfold z2. rewrite mul_inverse_mask64 by done.
  unfold b. rewrite xorshift_unxorshift by lia.
  unfold z1. rewrite mul_inverse_mask64 by done.
  unfold a. apply xorshift_unxorshift; lia.
Qed.

Lemma splitmix64_unmix_range z :
  0 ≤ z < 2 ^ 64 → 0 ≤ splitmix64_unmix z < 2 ^ 64.
Proof.
  intros Hz. unfold splitmix64_unmix. cbv zeta.
  apply unxorshift_range; [|lia].
  rewrite land_mask64. apply Z.mod_pos_bound. lia.
Qed.

Lemma splitmix64_range seed : 0 ≤ splitmix64 seed < 2 ^ 64.
Proof.
  unfold splitmix64. rewrite land_mask64. apply Z.mod_pos_bound. lia.
Qed.

Lemma advance_closed_form n x :
  0 ≤ x < 2 ^ 64 →
  advance n x = (x + Z.of_nat n * 0x9E3779B97F4A7C15) mod 2 ^ 64.
Proof.
  revert x. induction n as [|n IH]; intros x Hx.
  - cbn [advance]. rewrite Z.mul_0_l, Z.add_0_r, Z.mod_small; lia.
  - cbn [advance]. rewrite splitmix64_next_mix. cbn [snd].
    rewrite land_mask64, IH by (apply Z.mod_pos_bound; lia).
    rewrite Z.add_mod_idemp_l by lia. f_equal. lia.
Qed.

Lemma draws_lookup n x i :
  (i < n)%nat →
  draws n x !! i
  = Some (splitmix64_mix
            ((x + (Z.of_nat i + 1) * 0x9E3779B97F4A7C15) mod 2 ^ 64)).
Proof.
  revert x i. induction n as [|n IH]; intros x i Hi; [lia|].
  cbn [draws]. rewrite splitmix64_next_mix, land_mask64.
  destruct i as [|i]; cbn [lookup list_lookup].
  - reflexivity.
  - rewrite IH by lia. rewrite Z.add_mod_idemp_l by lia.
    do 3 f_equal. lia.
Qed.

Lemma draws_range n x : Forall (λ z, 0 ≤ z < 2 ^ 64) (draws n x).
Proof.
  revert x. induction n as [|n IH]; intros x; [constructor|].
  cbn [draws]. pose proof (splitmix64_next_range x) as [Hz _].
  destruct (splitmix64_next x) as [z x']. constructor; [done|apply IH].
Qed.

(** X1. Whatever integer seeds it, negative or beyond 64 bits, the
    generator yields unsigned 64-bit values only, and the [x] it keeps
    between two resumptions is an unsigned 64-bit value as well. *)
Theorem splitmix64_values_64bit seed n :
  Forall (λ z, 0 ≤ z < 2 ^ 64) (draws n (splitmix64 seed)) ∧
  0 ≤ advance n (splitmix64 seed) < 2 ^ 64.
Proof.
  split; [apply draws_range|].
  rewrite advance_closed_form by apply splitmix64_range.
  apply Z.mod_pos_bound. lia.
Qed.

(** X2. The generator can be jumped ahead: after [n] resumptions its [x]
    is [seed + n * 0x9E3779B97F4A7C15] modulo [2^64], and the value of
    the resumption of index [i] is the mixing of lines 23-25 applied to
    [seed + (i + 1) * 0x9E3779B97F4A7C15] modulo [2^64]. *)
Theorem splitmix64_jump_ahead seed n :
  advance n (splitmix64 seed)
  = (seed + Z.of_nat n * 0x9E3779B97F4A7C15) mod 2 ^ 64 ∧
  ∀ i, (i < n)%nat →
    draws n (splitmix64 seed) !! i
    = Some (splitmix64_mix
              ((seed + (Z.of_nat i + 1) * 0x9E3779B97F4A7C15) mod 2 ^ 64)).
Proof.
  split.
  - rewrite advance_closed_form by apply splitmix64_range.
    unfold splitmix64. rewrite land_mask64.
    by rewrite Z.add_mod_idemp_l by lia.
  - intros i Hi. rewrite draws_lookup by done.
    unfold splitmix64. rewrite land_mask64.
    by rewrite Z.add_mod_idemp_l by lia.
Qed.

(** X3. The mixing of lines 23-25 is a permutation of the unsigned 64-bit
    values: one yielded value determines the [x] of the generator (so
    every later value can be computed from it), and every unsigned
    64-bit value is yielded from exactly one [x]. *)
Theorem splitmix64_output_invertible :
  (∀ x, splitmix64_unmix (splitmix64_next x).1 = (splitmix64_next x).2) ∧
  (∀ z, 0 ≤ z < 2 ^ 64 →
     ∃ x, 0 ≤ x < 2 ^ 64 ∧ (splitmix64_next x).1 = z ∧
       ∀ x', 0 ≤ x' < 2 ^ 64 → (splitmix64_next x').1 = z → x' = x).
Proof.
  split.
  - intros x. rewrite splitmix64_next_mix. cbn [fst snd].
    apply splitmix64_unmix_mix. rewrite land_mask64.
    apply Z.mod_pos_bound. lia.
  - intros z Hz.
    pose proof (splitmix64_unmix_range z Hz) as Hu.
    exists ((splitmix64_unmix z - 0x9E3779B97F4A7C15) mod 2 ^ 64).
    split; [apply Z.mod_pos_bound; lia|]. split.
    + rewrite splitmix64_next_mix. cbn [fst]. rewrite land_mask64.
      rewrite Z.add_mod_idemp_l by lia.
      replace (splitmix64_unmix z - 0x9E3779B97F4A7C15 + 0x9E3779B97F4A7C15)
        with (splitmix64_unmix z) by lia.
      rewrite Z.mod_small by lia. by apply splitmix64_mix_unmix.
    + intros x' Hx' Hz'. rewrite splitmix64_next_mix in Hz'. cbn [fst] in Hz'.
      rewrite land_mask64 in Hz'. rewrite <- Hz'.
      rewrite splitmix64_unmix_mix by (apply Z.mod_pos_bound; lia).
      rewrite Zminus_mod_idemp_l.
      replace (x' + 0x9E3779B97F4A7C15 - 0x9E3779B97F4A7C15) with x' by lia.
      by rewrite Z.mod_small by lia.
Qed.

Lemma splitmix64_mix_inj x y :
  0 ≤ x < 2 ^ 64 → 0 ≤ y < 2 ^ 64 →
  splitmix64_mix x = splitmix64_mix y → x = y.
Proof.
  intros Hx Hy Heq.
  rewrite <- (splitmix64_unmix_mix x Hx), <- (splitmix64_unmix_mix y Hy).
  by rewrite Heq.
Qed.

Lemma gamma_cancel d :
  (d * 0x9E3779B97F4A7C15) mod 2 ^ 64 = 0 → d mod 2 ^ 64 = 0.
Proof.
  intros Hd.
  assert (Hinv : (0x9E3779B97F4A7C15 * 0xF1DE83E19937733D) mod 2 ^ 64 = 1)
    by reflexivity.
  rewrite <- (Z.mul_1_r d), <- Hinv.
  rewrite Z.mul_mod_idemp_r, Z.mul_assoc by lia.
  by rewrite <- Z.mul_mod_idemp_l, Hd by lia.
Qed.

(** X4. The generator has period [2^64]: within [2^64] consecutive
    resumptions no value is yielded twice, and after [2^64] resumptions
    the generator is back where it was. *)
Theorem splitmix64_period seed :
  (∀ n i j, (i < j < n)%nat → Z.of_nat (j - i) < 2 ^ 64 →
     draws n (splitmix64 seed) !! i ≠ draws n (splitmix64 seed) !! j) ∧
  (∀ n, advance (n + Z.to_nat (2 ^ 64)) (splitmix64 seed)
        = advance n (splitmix64 seed)).
Proof.
  split.
  - intros n i j Hij Hd. rewrite !draws_lookup by lia. intros [= Heq].
    apply splitmix64_mix_inj in Heq; [|apply Z.mod_pos_bound; lia..].
    assert (Hz : Z.of_nat (j - i) mod 2 ^ 64 = 0).
    { apply gamma_cancel.
      replace (Z.of_nat (j - i) * 0x9E3779B97F4A7C15)
        with ((splitmix64 seed + (Z.of_nat j + 1) * 0x9E3779B97F4A7C15)
              - (splitmix64 seed + (Z.of_nat i + 1) * 0x9E3779B97F4A7C15))
        by lia.
      rewrite Zminus_mod, Heq, Z.sub_diag. reflexivity. }
    rewrite Z.mod_small in Hz by lia. lia.
  - intros n. rewrite !advance_closed_form by apply splitmix64_range.
    rewrite Nat2Z.inj_add, Z2Nat.id by lia.
    rewrite Z.mul_add_distr_r, Z.add_assoc, (Z.mul_comm (2 ^ 64)).
    apply Z.mod_add. lia.
Qed.

(** ** Invariants of the store, in either model *)

Lemma run_state_invariant (R : Z → Prop)
    (P : list (gmap Z Z) → list event → Prop) args per sh log :
  (∀ reads, reads_of (arg_read_ratio args) = Ok reads → R reads) →
  (∀ sh, prefill (new_shards (arg_shards args)) (arg_keys args)
           (arg_shards args) = Ok sh → P sh []) →
  body_preserves (arg_keys args) (arg_shards args) R P →
  run_state args per sh log → P sh log.
Proof.
  intros HR Hinit Hbody [Hst|(job & Hjob & Hrun)].
  - apply threads_state_reach in Hst as (c & Hc & -> & ->).
    by eapply threads_reach_invariant.
  - apply process_jobs_elem in Hjob as [i ->].
    by eapply worker_process_run_invariant.
Qed.

Lemma run_state_keys_routed args per sh log :
  1 ≤ arg_keys args → 1 ≤ arg_shards args →
  run_state args per sh log →
  keys_routed (arg_keys args) (arg_shards args) sh.
Proof.
  intros HK HS Hst.
  enough (keys_routed (arg_keys args) (arg_shards args) sh ∧
          Forall (ev_found_in (arg_keys args)) log) as [? _]; [done|].
  revert Hst. apply run_state_invariant with (R := λ _, True)
    (P := λ sh log, keys_routed (arg_keys args) (arg_shards args) sh ∧
                    Forall (ev_found_in (arg_keys args)) log); [done| |].
  - intros sh0 Hsh0.
    destruct (prefill_prefilled (arg_keys args) (arg_shards args) HS)
      as (sh1 & Hsh1 & Hpre).
    assert (sh0 = sh1) as -> by congruence.
    split; [by apply prefilled_keys_routed|done].
  - by apply body_preserves_keys.
Qed.

(** ** The sizes of the shards *)

Lemma keys_routed_dom K S sh (j : nat) d :
  1 ≤ S → keys_routed K S sh → sh !! j = Some d →
  dom d
  = list_to_set ((λ q, Z.of_nat j + q * S)
                   <$> seqZ 0 ((K + S - 1 - Z.of_nat j) / S)).
Proof.
  intros HS [Hlen Hkeys] Hd.
  assert (Hj : Z.of_nat j < S).
  { apply lookup_lt_Some in Hd. lia. }
  set (n := (K + S - 1 - Z.of_nat j) / S).
  assert (Hn : S * n ≤ K + S - 1 - Z.of_nat j < S * n + S).
  { unfold n. pose proof (Z.mul_div_le (K + S - 1 - Z.of_nat j) S).
    pose proof (Z.mul_succ_div_gt (K + S - 1 - Z.of_nat j) S). lia. }
  apply set_eq. intros k.
  rewrite elem_of_dom, (Hkeys j d k Hd), elem_of_list_to_set,
    list_elem_of_fmap.
  split.
  - intros [Hk Hmod]. exists (k / S).
    pose proof (Z.div_mod k S ltac:(lia)) as Hdm. rewrite Hmod in Hdm.
    split; [lia|]. apply elem_of_seqZ.
    assert (0 ≤ k / S) by (apply Z.div_pos; lia). nia.
  - intros (q & -> & [Hq0 Hq]%elem_of_seqZ). split; [nia|].
    rewrite Z.mod_add by lia. apply Z.mod_small. lia.
Qed.

Lemma keys_routed_size K S sh (j : nat) d :
  1 ≤ S → keys_routed K S sh → sh !! j = Some d →
  size d = Z.to_nat ((K + S - 1 - Z.of_nat j) / S).
Proof.
  intros HS Hkeys Hd.
  rewrite <- (size_dom (D := gset Z)), (keys_routed_dom K S sh j d) by done.
  rewrite size_list_to_set, length_fmap, length_seqZ; [done|].
  apply NoDup_fmap_2_strong; [|apply NoDup_seqZ].
  intros q q' _ _ Heq. nia.
Qed.

Lemma size_union_list_disjoint (l : list (gset Z)) :
  (∀ i j X Y, i ≠ j → l !! i = Some X → l !! j = Some Y → X ## Y) →
  size (⋃ l) = sum_list (size <$> l).
Proof.
  induction l as [|X l IH]; intros Hdisj; [done|].
  cbn [union_list foldr fmap list_fmap sum_list sum_list_with].
  rewrite size_union.
  - f_equal. apply IH. intros i j Y Z Hij HY HZ.
    apply (Hdisj (S i) (S j)); [lia|done..].
  - intros k Hk (Y & [j HY]%list_elem_of_lookup & HkY)%elem_of_union_list.
    by apply (Hdisj O (S j) X Y ltac:(lia) eq_refl HY k).
Qed.

Lemma keys_routed_total K S sh :
  1 ≤ S → keys_routed K S sh → sum_list (size <$> sh) = Z.to_nat K.
Proof.
  intros HS Hkeys.
  assert (sum_list (size <$> sh) = size (store_keys sh)) as ->.
  { unfold store_keys. rewrite size_union_list_disjoint.
    - f_equal. rewrite <- list_fmap_compose. apply list_fmap_ext.
      intros _ d _. cbn. by rewrite size_dom.
    - intros i j X Y Hij HX HY k HkX HkY.
      apply list_lookup_fmap_Some in HX as (dX & -> & HX).
      apply list_lookup_fmap_Some in HY as (dY & -> & HY).
      destruct Hkeys as [_ Hkeys].
      apply elem_of_dom, (Hkeys i dX k HX) in HkX.
      apply elem_of_dom, (Hkeys j dY k HY) in HkY. lia. }
  rewrite (keys_routed_store_keys K S) by done.
  rewrite size_list_to_set by apply NoDup_seqZ. apply length_seqZ.
Qed.

(** X5. The keys are spread evenly over the shards and stay so: with
    [K ≥ 1] keys and [S ≥ 1] shards, in every state of a run in either
    model shard [j] holds [(K + S - 1 - j) // S] keys, so that two shards
    differ by one key at most and the shards hold [K] keys together. *)
Theorem shards_balanced args per sh log :
  1 ≤ arg_keys args → 1 ≤ arg_shards args →
  run_state args per sh log →
  let K := arg_keys args in
  let S := arg_shards args in
  (∀ (j : nat) d, sh !! j = Some d →
     Z.of_nat (size d) = (K + S - 1 - Z.of_nat j) / S) ∧
  (∀ (j j' : nat) d d', sh !! j = Some d → sh !! j' = Some d' →
     (size d ≤ size d' + 1)%nat) ∧
  Z.of_nat (sum_list (size <$> sh)) = K.
Proof.
  intros HK HS Hst K S.
  pose proof (run_state_keys_routed args per sh log HK HS Hst) as Hkeys.
  fold K S in Hkeys.
  assert (Hsize : ∀ (j : nat) d, sh !! j = Some d →
            Z.of_nat (size d) = (K + S - 1 - Z.of_nat j) / S).
  { intros j d Hd. rewrite (keys_routed_size K S sh j d) by done.
    apply Z2Nat.id, Z.div_pos; [|lia].
    apply lookup_lt_Some in Hd. destruct Hkeys as [Hlen _]. lia. }
  split; [exact Hsize|]. split.
  - intros j j' d d' Hd Hd'.
    pose proof (Hsize j d Hd) as Hj. pose proof (Hsize j' d' Hd') as Hj'.
    apply lookup_lt_Some in Hd, Hd'. destruct Hkeys as [Hlen _].
    assert ((K + S - 1 - Z.of_nat j) / S ≤ (K + S - 1) / S)
      by (apply Z.div_le_mono; lia).
    assert (K / S ≤ (K + S - 1 - Z.of_nat j') / S)
      by (apply Z.div_le_mono; lia).
    assert ((K + S - 1) / S ≤ K / S + 1).
    { replace (K / S + 1) with ((K + 1 * S) / S)
        by (rewrite Z.div_add by lia; lia).
      apply Z.div_le_mono; lia. }
    lia.
  - rewrite (keys_routed_total K S) by done. lia.
Qed.

(** ** Counters and writes *)

Lemma run_state_count args per sh log k :
  1 ≤ arg_shards args → run_state args per sh log →
  default 0 (store_get (arg_shards args) sh k) = Z.of_nat (writes_to k log).
Proof.
  intros HS Hst. revert k.
  apply (run_state_invariant (λ _, True)
           (λ sh log, ∀ k, default 0 (store_get (arg_shards args) sh k)
                           = 0 + Z.of_nat (writes_to k log))
           args per sh log); [done| | |exact Hst].
  - intros sh0 Hsh0 k.
    destruct (prefill_prefilled (arg_keys args) (arg_shards args) HS)
      as (sh1 & Hsh1 & Hpre).
    assert (sh0 = sh1) as -> by congruence.
    by rewrite (prefilled_store_get_default (arg_keys args)).
  - apply (body_preserves_count _ _ (λ _, 0)).
Qed.

Lemma run_state_counted args per sh log :
  1 ≤ arg_keys args → 1 ≤ arg_shards args → run_state args per sh log →
  counted (arg_keys args) (arg_shards args) sh log.
Proof.
  intros HK HS Hst.
  apply (run_state_invariant (λ _, True)
           (counted (arg_keys args) (arg_shards args)) args per sh log);
    [done| | |exact Hst].
  - intros sh0 Hsh0. by apply prefill_counted.
  - by apply body_preserves_counted.
Qed.

(** X6. No update is lost, whatever the read ratio, the number of
    workers, the key count and the interleaving of the threads, down to
    the steps the locks allow: with [S ≥ 1] shards, in every state of a
    run the counter of a key (0 for a key the store does not hold) is
    the number of writes to this key made so far; with [K ≥ 1] keys the
    store holds every key of [[0, K)]. *)
Theorem no_lost_update args per sh log :
  1 ≤ arg_shards args → run_state args per sh log →
  let K := arg_keys args in
  let S := arg_shards args in
  (∀ k, default 0 (store_get S sh k) = Z.of_nat (writes_to k log)) ∧
  (1 ≤ K → ∀ k, 0 ≤ k < K →
     store_get S sh k = Some (Z.of_nat (writes_to k log))).
Proof.
  intros HS Hst K S. split.
  - intros k. by apply (run_state_count args per).
  - intros HK k Hk. apply (counted_store_get K S); [done| |done].
    by apply (run_state_counted args per).
Qed.

(** ** The accesses of a run, thread by thread *)

Lemma py_range_seq n : py_range n = Z.of_nat <$> seq 0 (Z.to_nat n).
Proof.
  unfold py_range, seqZ. apply list_fmap_ext. intros _ i _. lia.
Qed.

Lemma writes_to_ops k log : writes_to k log = op_writes k (ev_op <$> log).
Proof.
  unfold writes_to, op_writes. induction log as [|ev log IH]; [done|].
  rewrite fmap_cons, !filter_cons.
  destruct (decide (ev_kind ev = Write ∧ ev_key ev = k)) as [[Hk Hw]|Hn],
    (decide (ev_op ev = (Write, k))) as [Hop|Hop]; cbn [length].
  - by rewrite IH.
  - destruct Hop. unfold ev_op. by rewrite Hk, Hw.
  - destruct Hn. unfold ev_op in Hop. by injection Hop.
  - done.
Qed.

Lemma sum_list_single (j a : nat) (f : nat → nat) s n :
  sum_list ((λ i, f i + if decide (j = i) then a else 0)%nat <$> seq s n)
  = (sum_list (f <$> seq s n)
     + if decide (s ≤ j < s + n)%nat then a else 0)%nat.
Proof.
  revert s. induction n as [|n IH]; intros s.
  - cbn. destruct (decide _); lia.
  - cbn [seq fmap list_fmap sum_list sum_list_with]. rewrite IH. unfold id.
    repeat destruct (decide _); lia.
Qed.

Lemma filter_thread_log (P : event → Prop) `{!∀ ev, Decision (P ev)} n
    (log : list (nat * event)) :
  Forall (λ p, (p.1 < n)%nat) log →
  length (filter P log.*2)
  = sum_list ((λ i, length (filter P (thread_log i log))) <$> seq 0 n).
Proof.
  induction log as [|[j ev] log IH] using rev_ind; intros Hlog.
  - cbn. by rewrite sum_list_fmap_const, Nat.mul_0_r.
  - apply Forall_app in Hlog as [Hlog [Hj _]%Forall_cons]. cbn in Hj.
    rewrite fmap_app, filter_app, length_app, IH by done.
    rewrite (list_fmap_ext
               (λ i, length (filter P (thread_log i (log ++ [(j, ev)]))))
               (λ i, (length (filter P (thread_log i log))
                     + if decide (j = i) then length (filter P [ev]) else 0)%nat)).
    + rewrite sum_list_single. by rewrite decide_True by lia.
    + intros _ i _. rewrite thread_log_snoc.
      destruct (decide (j = i)).
      * by rewrite filter_app, length_app.
      * by rewrite app_nil_r, Nat.add_0_r.
Qed.

Lemma main_threads_tids args per sched c :
  main_threads args per sched = Ok c →
  Forall (λ p, (p.1 < Z.to_nat (arg_threads args))%nat) (c_log c).
Proof.
  unfold main_threads. intros (sh & Hsh & [= <-])%bind_Ok_inv.
  rewrite <- (threads_init_length args per sh).
  apply run_threads_tids; [|done]. cbn [threads_init c_shards].
  apply prefill_length in Hsh.
  by rewrite Hsh, new_shards_length, new_locks_length.
Qed.

(** ** The state the threads are joined in *)

Lemma main_threads_final args per sched reads :
  arg_keys args ≠ 0 → 1 ≤ arg_shards args →
  reads_of (arg_read_ratio args) = Ok reads →
  ∃ c, main_threads args per sched = Ok c ∧
    c_threads c
    = (λ i, Running (advance (2 * Z.to_nat per) (splitmix64 (arg_seed args + i)))
              reads O) <$> py_range (arg_threads args) ∧
    ∀ i : nat, Z.of_nat i < arg_threads args →
      ev_op <$> thread_log i (c_log c) = worker_ops args per reads (Z.of_nat i).
Proof.
  intros HK HS Hint. unfold main_threads.
  destruct (prefill_prefilled (arg_keys args) _ HS) as (sh & -> & Hlen & _).
  rewrite bind_Ok. eexists. split; [done|].
  set (locks := new_locks (arg_shards args)).
  set (c0 := threads_init args per sh).
  set (c := run_threads locks (arg_keys args) sched c0).
  assert (Hlocks : length locks = Z.to_nat (arg_shards args))
    by apply new_locks_length.
  assert (Hinv : trace_inv locks (arg_keys args) reads reads (Z.to_nat per)
                   (arg_seed args) c ∧ alive_inv (arg_shards args) c).
  { apply run_threads_invariant.
    - intros c' i [Htr Hal]. split.
      + by apply trace_inv_step.
      + by apply alive_inv_step.
    - split; split; cbn [c0 threads_init c_shards c_log]; try congruence.
      + intros i rnd reads' todo [Hstart _]%threads_init_lookup.
        rewrite (worker_thread_start_Running _ _ _ _ reads Hint) in Hstart.
        injection Hstart as <- <- <-. rewrite Nat.sub_diag.
        repeat split; (done || lia).
      + intros i e [Hstart _]%threads_init_lookup.
        by rewrite (worker_thread_start_Running _ _ _ _ reads Hint) in Hstart. }
  destruct Hinv as [[_ Htr] [_ Hal]].
  assert (Hthreads : length (c_threads c) = Z.to_nat (arg_threads args)).
  { unfold c. rewrite run_threads_threads_length.
    unfold c0. apply threads_init_length. }
  assert (Hfinal : ∀ i : nat, Z.of_nat i < arg_threads args →
            c_threads c !! i
            = Some (Running (advance (2 * Z.to_nat per)
                               (splitmix64 (arg_seed args + Z.of_nat i)))
                      reads O) ∧
            ev_op <$> thread_log i (c_log c)
            = worker_ops args per reads (Z.of_nat i)).
  { intros i Hi.
    destruct (lookup_lt_is_Some_2 (c_threads c) i) as [t Ht]; [lia|].
    pose proof (run_threads_finished _ _ _ _ _ _ Ht) as Hfin.
    destruct t as [rnd reads' todo|e]; [|by destruct (Hal i e)].
    cbn in Hfin. subst todo.
    destruct (Htr i rnd reads' O Ht) as (-> & _ & Hrnd & Hlog).
    rewrite Nat.sub_0_r in Hlog, Hrnd. subst rnd. split; [exact Ht|].
    rewrite Hlog. unfold worker_ops, splitmix64. by rewrite land_mask64. }
  split; [|intros i Hi; by apply Hfinal].
  apply list_eq. intros i. rewrite list_lookup_fmap.
  destruct (decide (Z.of_nat i < arg_threads args)) as [Hi|Hi].
  - rewrite (proj1 (Hfinal i Hi)).
    by rewrite (proj2 (py_range_lookup _ i (Z.of_nat i))).
  - rewrite (lookup_ge_None_2 (c_threads c)) by lia.
    rewrite (lookup_ge_None_2 (py_range _)); [done|].
    rewrite py_range_length. lia.
Qed.

Lemma main_threads_run_state args per sched c :
  main_threads args per sched = Ok c →
  run_state args per (c_shards c) (c_log c).*2.
Proof. intros Hc. left. right. left. exists sched, c. by split. Qed.

Lemma main_threads_totals args per sched reads c k :
  1 ≤ arg_keys args → 1 ≤ arg_shards args →
  reads_of (arg_read_ratio args) = Ok reads →
  main_threads args per sched = Ok c → 0 ≤ k < arg_keys args →
  store_get (arg_shards args) (c_shards c) k
  = Some (total_writes args per reads k).
Proof.
  intros HK HS Hint Hc Hk.
  destruct (main_threads_final args per sched reads ltac:(lia) HS Hint)
    as (c' & Hc' & _ & Hops).
  assert (c' = c) as -> by congruence.
  rewrite (counted_store_get (arg_keys args) (arg_shards args) _
             (c_log c).*2) by
    (done || by apply (run_state_counted args per), main_threads_run_state
                        with sched).
  f_equal. unfold total_writes, writes_to. f_equal.
  rewrite (filter_thread_log _ (Z.to_nat (arg_threads args)))
    by by apply main_threads_tids with per sched.
  rewrite py_range_seq, <- list_fmap_compose. f_equal.
  apply list_fmap_ext. intros j i [-> Hi]%lookup_seq. cbn.
  rewrite <- Hops by lia. apply writes_to_ops.
Qed.

Lemma keys_routed_ext K S sh sh' :
  1 ≤ S → keys_routed K S sh → keys_routed K S sh' →
  (∀ k, 0 ≤ k < K → store_get S sh k = store_get S sh' k) → sh = sh'.
Proof.
  intros HS [Hlen Hkeys] [Hlen' Hkeys'] Hget.
  apply (list_eq_same_length _ _ (Z.to_nat S)); [done..|].
  intros j d d' Hj Hd Hd'. apply map_eq. intros k.
  destruct (decide (0 ≤ k < K ∧ k mod S = Z.of_nat j)) as [[Hk Hmod]|Hn].
  - specialize (Hget k Hk). unfold store_get in Hget.
    by rewrite Hmod, Nat2Z.id, Hd, Hd' in Hget.
  - assert (d !! k = None) as ->
      by (apply eq_None_not_Some; by rewrite (Hkeys j d k Hd)).
    symmetry. apply eq_None_not_Some. by rewrite (Hkeys' j d' k Hd').
Qed.

Lemma worker_process_run_final args per reads i :
  1 ≤ arg_keys args → 1 ≤ arg_shards args →
  reads_of (arg_read_ratio args) = Ok reads →
  ∃ sh log,
    worker_process_run (arg_keys args, per, arg_read_ratio args,
                        arg_seed args, i, arg_shards args) = Ok (sh, log) ∧
    ev_op <$> log = worker_ops args per reads i ∧
    counted (arg_keys args) (arg_shards args) sh log.
Proof.
  intros HK HS Hint.
  pose proof (worker_process_run_Ok (arg_keys args) per (arg_read_ratio args)
                (arg_seed args) i (arg_shards args) reads
                ltac:(lia) HS Hint) as Hok.
  destruct (worker_process_run _) as [[sh log]|e] eqn:Hrun; [|done].
  exists sh, log. split; [done|]. split.
  - apply worker_process_run_inv in Hrun
      as (sh0 & reads' & rnd' & _ & Hint' & Hloop).
    assert (reads' = reads) as -> by congruence.
    rewrite (worker_process_loop_operations _ _ _ _ reads _ _ _ _ _
               ltac:(done) Hloop).
    unfold worker_ops, splitmix64. by rewrite py_range_length, land_mask64.
  - revert Hrun. apply worker_process_run_invariant with (R := λ _, True);
      [done| |by apply body_preserves_counted].
    intros sh0 Hsh0. by apply prefill_counted.
Qed.

(** X7. The interleaving of the threads does not show in the result of
    the thread model: with [K ≥ 1] keys, [S ≥ 1] shards and a finite
    threshold, any two schedules end in the same store and the same
    generators, every thread has made the same operations in the same
    order, and the counter of a key is the number of writes to it in the
    workloads of all the workers. *)
Theorem final_store_schedule_independent args per reads sched sched' :
  1 ≤ arg_keys args → 1 ≤ arg_shards args →
  reads_of (arg_read_ratio args) = Ok reads →
  ∃ c c', main_threads args per sched = Ok c ∧
    main_threads args per sched' = Ok c' ∧
    c_shards c = c_shards c' ∧ c_threads c = c_threads c' ∧
    (∀ i : nat, Z.of_nat i < arg_threads args →
       ev_op <$> thread_log i (c_log c) = ev_op <$> thread_log i (c_log c')) ∧
    ∀ k, 0 ≤ k < arg_keys args →
      store_get (arg_shards args) (c_shards c) k
      = Some (total_writes args per reads k).
Proof.
  intros HK HS Hint.
  destruct (main_threads_final args per sched reads ltac:(lia) HS Hint)
    as (c & Hc & Hthreads & Hops).
  destruct (main_threads_final args per sched' reads ltac:(lia) HS Hint)
    as (c' & Hc' & Hthreads' & Hops').
  exists c, c'. split; [exact Hc|]. split; [exact Hc'|].
  assert (Htotal : ∀ k, 0 ≤ k < arg_keys args →
            store_get (arg_shards args) (c_shards c) k
            = Some (total_writes args per reads k))
    by (intros k Hk; by apply main_threads_totals with sched).
  split; [|split; [congruence|split; [|exact Htotal]]].
  - apply (keys_routed_ext (arg_keys args) (arg_shards args)); [done|..].
    + apply (run_state_keys_routed args per _ (c_log c).*2); [done..|].
      by apply main_threads_run_state with sched.
    + apply (run_state_keys_routed args per _ (c_log c').*2); [done..|].
      by apply main_threads_run_state with sched'.
    + intros k Hk. rewrite Htotal by done. symmetry.
      by apply main_threads_totals with sched'.
  - intros i Hi. by rewrite Hops, Hops'.
Qed.

Lemma counter_sum_processes args per reads k (l : list Z) :
  1 ≤ arg_keys args → 1 ≤ arg_shards args →
  reads_of (arg_read_ratio args) = Ok reads →
  counter_sum (arg_shards args)
    ((λ i, match worker_process_run
                   (arg_keys args, per, arg_read_ratio args, arg_seed args, i,
                    arg_shards args) with
           | Ok (sh, _) => sh
           | Raise _ => []
           end) <$> l) k
  = Z.of_nat (sum_list ((λ i, op_writes k (worker_ops args per reads i)) <$> l)).
Proof.
  intros HK HS Hint. induction l as [|i l IH]; [done|].
  rewrite !fmap_cons.
  change (counter_sum ?S (?sh :: ?l) k)
    with (default 0 (store_get S sh k) + counter_sum S l k).
  rewrite IH. cbn [sum_list sum_list_with].
  destruct (worker_process_run_final args per reads i HK HS Hint)
    as (sh & log & -> & Hops & _ & Hcount).
  rewrite Hcount, writes_to_ops, Hops. unfold id. lia.
Qed.

(** X8. The two models do the same work: with [K ≥ 1] keys, [S ≥ 1]
    shards and a finite threshold, every worker process returns, and the
    counter a key has in the shared store of the thread model, after the
    join and whatever the schedule, is the sum of the counters the key
    has in the private stores of the worker processes; with a single
    worker the two stores are equal. *)
Theorem threads_store_sums_process_stores args per reads sched :
  1 ≤ arg_keys args → 1 ≤ arg_shards args →
  reads_of (arg_read_ratio args) = Ok reads →
  ∃ c stores, main_threads args per sched = Ok c ∧
    Forall2 (λ job sh, ∃ log, worker_process_run job = Ok (sh, log))
      (process_jobs args per) stores ∧
    (∀ k, 0 ≤ k < arg_keys args →
       store_get (arg_shards args) (c_shards c) k
       = Some (counter_sum (arg_shards args) stores k)) ∧
    (arg_threads args = 1 → stores = [c_shards c]).
Proof.
  intros HK HS Hint.
  destruct (main_threads_final args per sched reads ltac:(lia) HS Hint)
    as (c & Hc & _ & _).
  set (store_of := λ i,
         match worker_process_run
                 (arg_keys args, per, arg_read_ratio args, arg_seed args, i,
                  arg_shards args) with
         | Ok (sh, _) => sh
         | Raise _ => []
         end).
  exists c, (store_of <$> py_range (arg_threads args)).
  split; [exact Hc|].
  assert (Htotal : ∀ k, 0 ≤ k < arg_keys args →
            store_get (arg_shards args) (c_shards c) k
            = Some (counter_sum (arg_shards args)
                      (store_of <$> py_range (arg_threads args)) k)).
  { intros k Hk. rewrite (main_threads_totals args per sched reads) by done.
    f_equal. symmetry. by apply counter_sum_processes. }
  split; [|split; [exact Htotal|]].
  - unfold process_jobs. apply Forall2_fmap, Forall_Forall2_diag, Forall_forall.
    intros i _. unfold store_of.
    destruct (worker_process_run_final args per reads i HK HS Hint)
      as (sh & log & -> & _). by exists log.
  - intros HT. rewrite HT in Htotal |- *.
    change (py_range 1) with [0] in *. cbn [fmap list_fmap] in *. f_equal.
    unfold store_of in *.
    destruct (worker_process_run_final args per reads 0 HK HS Hint)
      as (sh & log & Hrun & _ & Hkeys & Hcount).
    rewrite Hrun in *.
    apply (keys_routed_ext (arg_keys args) (arg_shards args)); [done..| |].
    + apply (run_state_keys_routed args per _ (c_log c).*2); [done..|].
      by apply main_threads_run_state with sched.
    + intros k Hk. rewrite (Htotal k Hk). cbn [counter_sum foldr].
      pose proof (keys_routed_store_get _ _ _ k HS Hkeys Hk) as [v Hv].
      rewrite Hv. cbn. f_equal. lia.
Qed.

(** ** What [main] prints *)

Lemma thread_tracebacks_snoc ts t :
  thread_tracebacks (ts ++ [t])
  = thread_tracebacks ts
    ++ match t with
       | Crashed e => [ThreadTraceback (length ts) e]
       | Running _ _ _ => []
       end.
Proof.
  unfold thread_tracebacks. rewrite imap_app, omap_app. f_equal.
  cbn. rewrite Nat.add_0_r. by destruct t.
Qed.

Lemma thread_tracebacks_alive ts :
  (∀ i e, ts !! i ≠ Some (Crashed e)) → thread_tracebacks ts = [].
Proof.
  induction ts as [|t ts IH] using rev_ind; intros Hal; [done|].
  rewrite thread_tracebacks_snoc, IH.
  - destruct t as [| e]; [done|].
    destruct (Hal (length ts) e). by rewrite lookup_app_r, Nat.sub_diag.
  - intros i e Hi. apply (Hal i e).
    rewrite lookup_app_l; [done|]. by apply lookup_lt_Some in Hi.
Qed.

Lemma thread_tracebacks_crashed n e :
  thread_tracebacks (replicate n (Crashed e))
  = (λ i, ThreadTraceback i e) <$> seq 0 n.
Proof.
  induction n as [|n IH]; [done|].
  rewrite replicate_S_end, thread_tracebacks_snoc, IH, seq_S, fmap_app.
  by rewrite length_replicate.
Qed.

Lemma reads_of_Raise ρ e :
  reads_of ρ = Raise e → e = ValueError ∨ e = OverflowError.
Proof.
  unfold reads_of, py_int_of_float.
  destruct (Prim2SF _); intros [= <-]; auto.
Qed.

Lemma prefill_Ok K S :
  1 ≤ S ∨ K ≤ 0 → ∃ sh, prefill (new_shards S) K S = Ok sh ∧
                         length sh = Z.to_nat S.
Proof.
  intros [HS|HK].
  - destruct (prefill_prefilled K S HS) as (sh & Hsh & Hlen & _). eauto.
  - exists (new_shards S). split; [|apply new_shards_length].
    unfold prefill. by rewrite py_range_nonpos.
Qed.

Lemma worker_thread_body_no_keys sh locks K reads rnd :
  K = 0 ∨ sh = [] →
  worker_thread_body sh locks K reads rnd = Raise ZeroDivisionError.
Proof.
  intros Hno. unfold worker_thread_body.
  destruct (splitmix64_next rnd) as [x1 rnd1].
  destruct (decide (K = 0)) as [->|HK]; [by rewrite py_mod_zero|].
  destruct Hno as [?| ->]; [done|].
  rewrite py_mod_Ok, bind_Ok by done.
  destruct (splitmix64_next rnd1) as [x2 rnd2].
  rewrite (py_mod_Ok x2 1000), bind_Ok by lia.
  cbn [length Z.of_nat]. by rewrite py_mod_zero.
Qed.

(** The threads of a run in which no iteration can succeed: each one is
    still before its first iteration, or dead. *)
Lemma thread_step_no_keys locks K sh reads todo c i :
  K = 0 ∨ sh = [] →
  (c_shards c = sh ∧ c_log c = [] ∧
   ∀ j t, c_threads c !! j = Some t →
     t = Crashed ZeroDivisionError ∨ ∃ rnd, t = Running rnd reads todo) →
  let c' := thread_step locks K c i in
  c_shards c' = sh ∧ c_log c' = [] ∧
  ∀ j t, c_threads c' !! j = Some t →
    t = Crashed ZeroDivisionError ∨ ∃ rnd, t = Running rnd reads todo.
Proof.
  intros Hno (Hsh & Hlog & Hts). cbn zeta. unfold thread_step.
  destruct (c_threads c !! i) as [[rnd reads' [|todo']|e]|] eqn:Hi; [done| |done..].
  rewrite Hsh, worker_thread_body_no_keys by done. cbn.
  split; [done|]. split; [done|]. intros j t.
  destruct (decide (i = j)) as [->|Hij].
  - rewrite list_lookup_insert_eq by by apply lookup_lt_Some in Hi.
    intros [= <-]. by left.
  - rewrite list_lookup_insert_ne by done. apply Hts.
Qed.

Lemma run_threads_no_keys locks K sh reads todo sched ts :
  K = 0 ∨ sh = [] →
  Forall (λ t, ∃ rnd, t = Running rnd reads (S todo)) ts →
  run_threads locks K sched (Config sh ts [])
  = Config sh (replicate (length ts) (Crashed ZeroDivisionError)) [].
Proof.
  intros Hno Hts.
  set (c := run_threads locks K sched (Config sh ts [])).
  assert (Hinv : c_shards c = sh ∧ c_log c = [] ∧
            ∀ j t, c_threads c !! j = Some t →
              t = Crashed ZeroDivisionError
              ∨ ∃ rnd, t = Running rnd reads (S todo)).
  { apply (run_threads_invariant locks K
             (λ c, c_shards c = sh ∧ c_log c = [] ∧
                ∀ j t, c_threads c !! j = Some t →
                  t = Crashed ZeroDivisionError
                  ∨ ∃ rnd, t = Running rnd reads (S todo))).
    - intros c' i Hc'. by apply thread_step_no_keys.
    - split; [done|]. split; [done|]. intros j t Hj. right.
      by apply (Forall_lookup_1 _ _ _ _ Hts Hj). }
  destruct Hinv as (Hsh & Hlog & Hinv).
  assert (Hthreads : c_threads c
            = replicate (length ts) (Crashed ZeroDivisionError)).
  { symmetry. apply replicate_as_elem_of. split.
    - unfold c. by rewrite run_threads_threads_length.
    - intros t [j Hj]%list_elem_of_lookup.
      pose proof (run_threads_finished _ _ _ _ _ _ Hj) as Hfin.
      by destruct (Hinv j t Hj) as [->|[rnd ->]]. }
  destruct c as [sh' ts' log']. cbn in *. congruence.
Qed.

Lemma run_threads_idle locks K sched c :
  (∀ j t, c_threads c !! j = Some t → remaining t = O) →
  run_threads locks K sched c = c.
Proof.
  intros Hdone. unfold run_threads.
  by rewrite !exec_schedule_done by by rewrite ?exec_schedule_done.
Qed.

Lemma threads_init_threads_Raise args per sh e :
  reads_of (arg_read_ratio args) = Raise e →
  c_threads (threads_init args per sh)
  = replicate (Z.to_nat (arg_threads args)) (Crashed e).
Proof.
  intros Hint. cbn [threads_init c_threads].
  rewrite <- py_range_length. apply const_fmap. intros _ i _.
  unfold worker_thread_start. by rewrite Hint.
Qed.

Lemma threads_init_threads_Ok args per sh reads :
  reads_of (arg_read_ratio args) = Ok reads →
  Forall (λ t, ∃ rnd, t = Running rnd reads (Z.to_nat per))
    (c_threads (threads_init args per sh)).
Proof.
  intros Hint. cbn [threads_init c_threads]. apply Forall_fmap, Forall_forall.
  intros i _. cbn. rewrite (worker_thread_start_Running _ _ _ _ reads Hint).
  eauto.
Qed.

Lemma pool_map_Ok {A B} (f : A → res B) (l : list A) :
  Forall (λ a, is_ok (f a) = true) l → is_ok (pool_map f l) = true.
Proof.
  unfold pool_map. intros Hl.
  enough (∀ acc, is_ok (for_each l (λ acc a, b ← f a; Ok (acc ++ [b])) acc)
                 = true) by done.
  induction l as [|a l IH]; intros acc; [done|].
  apply Forall_cons in Hl as [Ha Hl]. cbn [for_each].
  destruct (f a) as [b|e]; [|done]. rewrite !bind_Ok. by apply IH.
Qed.

Lemma main_threads_prefill args per sched c :
  main_threads args per sched = Ok c →
  ∃ sh, prefill (new_shards (arg_shards args)) (arg_keys args)
          (arg_shards args) = Ok sh ∧
        length sh = Z.to_nat (arg_shards args) ∧
        c = run_threads (new_locks (arg_shards args)) (arg_keys args) sched
              (threads_init args per sh).
Proof.
  unfold main_threads. intros (sh & Hsh & [= <-])%bind_Ok_inv.
  exists sh. split; [done|]. split; [|done].
  apply prefill_length in Hsh. by rewrite Hsh, new_shards_length.
Qed.

Lemma main_threads_of_prefill args per sched sh :
  prefill (new_shards (arg_shards args)) (arg_keys args) (arg_shards args)
  = Ok sh →
  main_threads args per sched
  = Ok (run_threads (new_locks (arg_shards args)) (arg_keys args) sched
          (threads_init args per sh)).
Proof. intros Hsh. unfold main_threads. by rewrite Hsh. Qed.

Lemma main_threads_Raise args per sched sched' e :
  main_threads args per sched = Raise e →
  main_threads args per sched' = Raise e.
Proof. unfold main_threads. by destruct (prefill _ _ _). Qed.

(** The threshold cannot be computed: every thread dies on line 31. *)
Lemma main_threads_crashed_start args per sched sh e :
  reads_of (arg_read_ratio args) = Raise e →
  prefill (new_shards (arg_shards args)) (arg_keys args) (arg_shards args)
  = Ok sh →
  main_threads args per sched
  = Ok (Config sh (replicate (Z.to_nat (arg_threads args)) (Crashed e)) []).
Proof.
  intros Hint Hsh. rewrite (main_threads_of_prefill _ _ _ sh Hsh). f_equal.
  rewrite run_threads_idle.
  - unfold threads_init at 1. f_equal.
    apply (threads_init_threads_Raise args per sh e Hint).
  - intros j t. rewrite (threads_init_threads_Raise args per sh e Hint).
    by intros [-> _]%lookup_replicate.
Qed.

(** No key, or no shard: every thread dies in its first iteration. *)
Lemma main_threads_no_keys args per sched sh reads :
  reads_of (arg_read_ratio args) = Ok reads → 1 ≤ per →
  prefill (new_shards (arg_shards args)) (arg_keys args) (arg_shards args)
  = Ok sh →
  arg_keys args = 0 ∨ sh = [] →
  main_threads args per sched
  = Ok (Config sh (replicate (Z.to_nat (arg_threads args))
                     (Crashed ZeroDivisionError)) []).
Proof.
  intros Hint Hper Hsh Hno. rewrite (main_threads_of_prefill _ _ _ sh Hsh).
  f_equal.
  pose proof (threads_init_threads_Ok args per sh reads Hint) as Hts.
  replace (Z.to_nat per) with (S (Z.to_nat per - 1)) in Hts by lia.
  change (threads_init args per sh)
    with (Config sh (c_threads (threads_init args per sh)) []).
  rewrite (run_threads_no_keys _ _ _ _ _ _ _ Hno Hts).
  by rewrite threads_init_length.
Qed.

(** No iteration to run: the threads end where they start. *)
Lemma main_threads_idle args per sched sh :
  per ≤ 0 →
  prefill (new_shards (arg_shards args)) (arg_keys args) (arg_shards args)
  = Ok sh →
  main_threads args per sched = Ok (threads_init args per sh).
Proof.
  intros Hper Hsh. rewrite (main_threads_of_prefill _ _ _ sh Hsh). f_equal.
  apply run_threads_idle. intros j t. by apply threads_init_done.
Qed.

Lemma main_threads_threads_eq args per sched sched' c c' :
  main_threads args per sched = Ok c →
  main_threads args per sched' = Ok c' →
  c_threads c = c_threads c'.
Proof.
  intros Hc Hc'.
  destruct (main_threads_prefill _ _ _ _ Hc) as (sh & Hsh & Hlen & _).
  destruct (reads_of (arg_read_ratio args)) as [reads|e] eqn:Hint.
  - destruct (decide (per ≤ 0)) as [Hper|Hper].
    { rewrite (main_threads_idle _ _ sched sh Hper Hsh) in Hc.
      rewrite (main_threads_idle _ _ sched' sh Hper Hsh) in Hc'. congruence. }
    destruct (decide (arg_keys args = 0 ∨ sh = [])) as [Hno|Hkeys].
    { rewrite (main_threads_no_keys _ _ sched sh reads) in Hc by (done || lia).
      rewrite (main_threads_no_keys _ _ sched' sh reads) in Hc'
        by (done || lia).
      congruence. }
    assert (arg_keys args ≠ 0 ∧ 1 ≤ arg_shards args) as [HK HS].
    { split; [tauto|]. destruct sh; [tauto|]. cbn in Hlen. lia. }
    destruct (main_threads_final args per sched reads HK HS Hint)
      as (c1 & Hc1 & Hts1 & _).
    destruct (main_threads_final args per sched' reads HK HS Hint)
      as (c2 & Hc2 & Hts2 & _).
    congruence.
  - rewrite (main_threads_crashed_start _ _ sched sh e Hint Hsh) in Hc.
    rewrite (main_threads_crashed_start _ _ sched' sh e Hint Hsh) in Hc'.
    congruence.
Qed.

(** X9. A run with at least one worker, a key count other than zero, at
    least one shard and a threshold that can be computed never fails,
    in either model and under every schedule: [main] prints the record,
    nothing on the error stream, and exits with status 0. *)
Theorem main_valid_configuration args env sched reads :
  1 ≤ arg_threads args → arg_keys args ≠ 0 → 1 ≤ arg_shards args →
  reads_of (arg_read_ratio args) = Ok reads →
  arg_model args = "threads" ∨ arg_model args = "processes" →
  main args env sched
  = report args env (arg_iterations args / arg_threads args) [].
Proof.
  intros HT HK HS Hint Hmodel. unfold main. rewrite py_floordiv_Ok by lia.
  set (per := arg_iterations args / arg_threads args).
  destruct Hmodel as [-> | ->]; cbn [String.eqb Ascii.eqb Bool.eqb].
  - destruct (main_threads_final args per sched reads HK HS Hint)
      as (c & -> & Hts & _).
    rewrite thread_tracebacks_alive; [done|].
    intros i e. rewrite Hts, list_lookup_fmap.
    by destruct (py_range _ !! i).
  - unfold main_processes.
    destruct (Z.ltb_spec (arg_threads args) 1) as [|_]; [lia|].
    assert (Hok : is_ok (pool_map worker_process (process_jobs args per))
                  = true).
    { apply pool_map_Ok, Forall_forall.
      intros job [i ->]%process_jobs_elem. unfold worker_process.
      pose proof (worker_process_run_Ok (arg_keys args) per
                    (arg_read_ratio args) (arg_seed args) i (arg_shards args)
                    reads HK HS Hint) as Hrun.
      by destruct (worker_process_run _). }
    by destruct (pool_map _ _).
Qed.

(** X10. The interleaving of the threads shows in nothing [main] prints
    but the measurements. For all arguments and any two runs, whatever
    their schedules and whatever the clock and the memory reading gave
    in each: the threads that died, with their exceptions, the exit
    status and the presence of the record are the same, and the two
    records agree on model, threads, iterations, keys, read ratio and
    seed; [runtime], [duration_ms] and [rss_bytes] are what each run read
    from its interpreter, its clock and its memory, and may differ. *)
Theorem main_schedule_independent args env env' sched sched' :
  let o := main args env sched in
  let o' := main args env' sched' in
  stderr o = stderr o' ∧ exit_status o = exit_status o' ∧
  match stdout o, stdout o' with
  | Some r, Some r' =>
      res_model r = res_model r' ∧ res_threads r = res_threads r' ∧
      res_iterations r = res_iterations r' ∧ res_keys r = res_keys r' ∧
      res_read_ratio r = res_read_ratio r' ∧ res_seed r = res_seed r' ∧
      res_runtime r = "python" +:+ env_version env ∧
      res_runtime r' = "python" +:+ env_version env' ∧
      res_duration_ms r = env_duration_ms env ∧
      res_duration_ms r' = env_duration_ms env' ∧
      res_rss_bytes r = env_rss_bytes env ∧
      res_rss_bytes r' = env_rss_bytes env'
  | None, None => True
  | _, _ => False
  end.
Proof.
  cbn zeta. unfold main. destruct (py_floordiv _ _) as [per|e]; [|done].
  destruct (String.eqb _ "threads").
  - destruct (main_threads args per sched) as [c|e] eqn:Hc.
    + destruct (main_threads args per sched') as [c'|e'] eqn:Hc'.
      * rewrite (main_threads_threads_eq _ _ _ _ _ _ Hc Hc'). cbn.
        by repeat split.
      * apply (main_threads_Raise _ _ _ sched) in Hc'. congruence.
    + by rewrite (main_threads_Raise _ _ _ sched' _ Hc).
  - destruct (String.eqb _ "processes"); [|done].
    destruct (main_processes args per); [|done]. cbn. by repeat split.
Qed.

(** X11. A key count of zero is not an error of the thread model: with
    at least one iteration per worker and a threshold that can be
    computed, every thread dies of [ZeroDivisionError] in its first
    iteration, before any access to the store, and [main] still prints
    the record, with the iterations it was asked for, and exits with
    status 0, under every schedule. The same holds with a negative key
    count and no shard. *)
Theorem threads_without_keys args env sched reads :
  arg_model args = "threads" →
  arg_keys args = 0 ∨ (arg_keys args < 0 ∧ arg_shards args ≤ 0) →
  1 ≤ arg_threads args ≤ arg_iterations args →
  reads_of (arg_read_ratio args) = Ok reads →
  let per := arg_iterations args / arg_threads args in
  main args env sched
  = report args env per
      ((λ i, ThreadTraceback i ZeroDivisionError)
         <$> seq 0 (Z.to_nat (arg_threads args))) ∧
  ∃ c, main_threads args per sched = Ok c ∧
    c_shards c = new_shards (arg_shards args) ∧ c_log c = [] ∧
    ∀ i : nat, Z.of_nat i < arg_threads args →
      c_threads c !! i = Some (Crashed ZeroDivisionError).
Proof.
  intros Hmodel Hno [HT Hit] Hint per.
  assert (Hper : 1 ≤ per) by (apply Z.div_le_lower_bound; lia).
  assert (Hsh : prefill (new_shards (arg_shards args)) (arg_keys args)
                  (arg_shards args) = Ok (new_shards (arg_shards args))).
  { unfold prefill. rewrite py_range_nonpos; [done|lia]. }
  assert (Hc : main_threads args per sched
               = Ok (Config (new_shards (arg_shards args))
                       (replicate (Z.to_nat (arg_threads args))
                          (Crashed ZeroDivisionError)) [])).
  { apply (main_threads_no_keys _ _ _ _ reads); [done..|].
    destruct Hno as [?|[_ HS]]; [by left|right].
    unfold new_shards. by rewrite py_range_nonpos. }
  split.
  - unfold main. rewrite py_floordiv_Ok, Hmodel by lia.
    cbn [String.eqb Ascii.eqb Bool.eqb]. fold per. rewrite Hc.
    cbn [c_threads]. by rewrite thread_tracebacks_crashed.
  - eexists. split; [exact Hc|]. split; [done|]. split; [done|].
    intros i Hi. cbn [c_threads]. apply lookup_replicate. split; [done|lia].
Qed.

(** X12. A read ratio whose threshold cannot be computed (NaN, or a
    product with 1000 that overflows to an infinity) is not rejected:
    [int] raises [ValueError] or [OverflowError] in every worker. In the
    thread model every thread dies on line 31, no access is made, and
    [main] prints the record and exits with status 0; in the process
    model the exception of the first worker reaches [main], which ends
    with a traceback and status 1. *)
Theorem ratio_without_threshold args env sched e :
  reads_of (arg_read_ratio args) = Raise e →
  1 ≤ arg_threads args → 1 ≤ arg_shards args ∨ arg_keys args ≤ 0 →
  let per := arg_iterations args / arg_threads args in
  (e = ValueError ∨ e = OverflowError) ∧
  (arg_model args = "threads" →
   main args env sched
   = report args env per
       ((λ i, ThreadTraceback i e) <$> seq 0 (Z.to_nat (arg_threads args))) ∧
   ∃ c, main_threads args per sched = Ok c ∧ c_log c = [] ∧
     prefill (new_shards (arg_shards args)) (arg_keys args) (arg_shards args)
     = Ok (c_shards c)) ∧
  (arg_model args = "processes" → main args env sched = uncaught e).
Proof.
  intros Hint HT Hpre per. split; [by apply (reads_of_Raise _ _ Hint)|].
  destruct (prefill_Ok (arg_keys args) (arg_shards args) Hpre)
    as (sh & Hsh & _).
  split.
  - intros Hmodel.
    pose proof (main_threads_crashed_start args per sched sh e Hint Hsh) as Hc.
    split.
    + unfold main. rewrite py_floordiv_Ok, Hmodel by lia.
      cbn [String.eqb Ascii.eqb Bool.eqb]. fold per. rewrite Hc.
      cbn [c_threads]. by rewrite thread_tracebacks_crashed.
    + eexists. split; [exact Hc|]. by split.
  - intros Hmodel. unfold main. rewrite py_floordiv_Ok, Hmodel by lia.
    cbn [String.eqb Ascii.eqb Bool.eqb]. fold per. unfold main_processes.
    destruct (Z.ltb_spec (arg_threads args) 1) as [|_]; [lia|].
    destruct (process_jobs_first args per HT) as [l ->].
    rewrite (pool_map_Raise _ _ _ e); [done|].
    unfold worker_process, worker_process_run. by rewrite Hsh, bind_Ok, Hint.
Qed.

(** X13. A negative worker count is not rejected by the thread model:
    [range(threads)] is empty, so no thread is started and no access is
    made, and [main] prints the record and exits with status 0. The
    record reports [(iterations // threads) * threads] iterations, which
    is at least the number asked for and exceeds it by less than the
    absolute value of the worker count. *)
Theorem threads_negative_count args env sched :
  arg_model args = "threads" → arg_threads args < 0 →
  1 ≤ arg_shards args ∨ arg_keys args ≤ 0 →
  let per := arg_iterations args / arg_threads args in
  main args env sched = report args env per [] ∧
  (∃ c, main_threads args per sched = Ok c ∧ c_threads c = [] ∧ c_log c = []) ∧
  arg_iterations args ≤ per * arg_threads args
    < arg_iterations args - arg_threads args.
Proof.
  intros Hmodel HT Hpre per.
  destruct (prefill_Ok (arg_keys args) (arg_shards args) Hpre)
    as (sh & Hsh & _).
  assert (Hinit : threads_init args per sh = Config sh [] []).
  { unfold threads_init. by rewrite py_range_nonpos by lia. }
  assert (Hc : main_threads args per sched = Ok (Config sh [] [])).
  { rewrite (main_threads_of_prefill _ _ _ sh Hsh). f_equal.
    rewrite Hinit. by apply run_threads_idle. }
  split; [|split].
  - unfold main. rewrite py_floordiv_Ok, Hmodel by lia.
    cbn [String.eqb Ascii.eqb Bool.eqb]. fold per. by rewrite Hc.
  - eexists. split; [exact Hc|]. by split.
  - pose proof (Z.div_mod (arg_iterations args) (arg_threads args)
                  ltac:(lia)) as Hdm.
    pose proof (Z.mod_neg_bound (arg_iterations args) (arg_threads args) HT).
    fold per in Hdm. lia.
Qed.

Lemma filter_all {A} (l : list A) : filter (λ _, True) l = l.
Proof.
  induction l as [|a l IH]; [done|]. by rewrite filter_cons_True, IH.
Qed.

Lemma main_threads_log_length args per sched reads c :
  arg_keys args ≠ 0 → 1 ≤ arg_shards args →
  reads_of (arg_read_ratio args) = Ok reads →
  main_threads args per sched = Ok c →
  length (c_log c) = (Z.to_nat (arg_threads args) * Z.to_nat per)%nat.
Proof.
  intros HK HS Hint Hc.
  destruct (main_threads_final args per sched reads HK HS Hint)
    as (c' & Hc' & _ & Hops).
  assert (c' = c) as -> by congruence.
  rewrite <- (length_fmap snd (c_log c)), <- (filter_all (c_log c).*2).
  rewrite (filter_thread_log _ (Z.to_nat (arg_threads args)))
    by by apply main_threads_tids with per sched.
  rewrite (sum_list_fmap_same (Z.to_nat per)), length_seq; [done|].
  apply Forall_forall. intros i [_ Hi]%elem_of_seq.
  rewrite filter_all, <- (length_fmap ev_op), Hops by lia.
  apply operations_length.
Qed.

(** X14. On a run that cannot fail the count the record reports is the
    number of accesses made: with at least one worker, a non-negative
    iteration count, a key count other than zero, at least one shard and
    a threshold that can be computed, the threads make
    [(iterations // threads) * threads] accesses to the store between
    them, under every schedule, and each worker process makes
    [iterations // threads] accesses. *)
Theorem reported_iterations_performed args env sched reads :
  1 ≤ arg_threads args → 0 ≤ arg_iterations args →
  arg_keys args ≠ 0 → 1 ≤ arg_shards args →
  reads_of (arg_read_ratio args) = Ok reads →
  let per := arg_iterations args / arg_threads args in
  (∃ c, main_threads args per sched = Ok c ∧
     (arg_model args = "threads" →
      ∃ r, stdout (main args env sched) = Some r ∧
           res_iterations r = Z.of_nat (length (c_log c)))) ∧
  (Z.of_nat (length (process_jobs args per)) = arg_threads args ∧
   ∀ job, job ∈ process_jobs args per →
     ∃ sh log, worker_process_run job = Ok (sh, log) ∧
               Z.of_nat (length log) = per).
Proof.
  intros HT Hit HK HS Hint per.
  assert (Hper : 0 ≤ per) by (apply Z.div_pos; lia).
  split.
  - destruct (main_threads_final args per sched reads HK HS Hint)
      as (c & Hc & _ & _).
    exists c. split; [exact Hc|]. intros Hmodel.
    unfold main. rewrite py_floordiv_Ok, Hmodel by lia.
    cbn [String.eqb Ascii.eqb Bool.eqb]. fold per. rewrite Hc.
    eexists. split; [reflexivity|]. cbn [res_iterations report stdout].
    rewrite (main_threads_log_length args per sched reads c) by done.
    lia.
  - split.
    { unfold process_jobs. rewrite length_fmap, py_range_length. lia. }
    intros job [i ->]%process_jobs_elem.
    pose proof (worker_process_run_Ok (arg_keys args) per (arg_read_ratio args)
                  (arg_seed args) i (arg_shards args) reads HK HS Hint) as Hok.
    destruct (worker_process_run _) as [[sh log]|e'] eqn:Hrun; [|done].
    exists sh, log. split; [done|].
    apply worker_process_run_inv in Hrun
      as (sh0 & reads' & rnd' & _ & _ & Hloop).
    apply worker_process_loop_length in Hloop.
    rewrite Hloop, py_range_length. cbn [length]. lia.
Qed.

(** ** The locks *)

Lemma main_threads_fine_rel args per fsched f :
  main_threads_fine args per fsched = Ok f →
  ∃ sh sched,
    prefill (new_shards (arg_shards args)) (arg_keys args) (arg_shards args)
    = Ok sh ∧
    fine_rel (new_locks (arg_shards args)) (arg_keys args) f
      (exec_schedule (new_locks (arg_shards args)) (arg_keys args) sched
         (threads_init args per sh)).
Proof.
  unfold main_threads_fine. intros (sh & Hsh & [= <-])%bind_Ok_inv.
  set (locks := new_locks (arg_shards args)).
  set (c0 := threads_init args per sh).
  assert (Hlen : length locks = length (c_shards c0)).
  { unfold locks, c0. cbn. apply prefill_length in Hsh.
    by rewrite Hsh, new_shards_length, new_locks_length. }
  destruct (fine_exec_simulation locks (arg_keys args) fsched _ _
              (fine_init_rel locks (arg_keys args) c0 Hlen)) as [sched Hrel].
  by exists sh, sched.
Qed.

Lemma fine_rel_owner locks keys f c p i :
  fine_rel locks keys f c →
  f_locks f !! p = Some (Some i)
  ↔ ∃ ft, f_threads f !! i = Some ft ∧ in_section ft p.
Proof.
  intros (_ & _ & _ & _ & Hth & Hown). split; [apply Hown|].
  intros (ft & Hft & Hin). destruct (Hth i ft Hft) as (ct & _ & Hrel).
  destruct ft as [| rnd reads todo k r s p' | rnd reads todo k s p' v found |];
    cbn in Hin; try done; subst p'.
  - by destruct Hrel as (rnd0 & _ & _ & _ & Hlock).
  - by destruct Hrel as (rnd0 & r & d & _ & _ & _ & _ & Hlock & _).
Qed.

Lemma fine_rel_free locks keys f c p :
  fine_rel locks keys f c → (p < length (f_shards f))%nat →
  (∀ i ft, f_threads f !! i = Some ft → ¬ in_section ft p) →
  f_locks f !! p = Some None.
Proof.
  intros Hrel Hp Hout. pose proof Hrel as (_ & _ & Hll & _).
  destruct (lookup_lt_is_Some_2 (f_locks f) p) as [[i|] Hl]; [lia| |done].
  apply (fine_rel_owner _ _ _ _ _ _ Hrel) in Hl as (ft & Hft & Hin).
  by destruct (Hout i ft Hft).
Qed.

(** X15. The locks do what they are there for. In every state of the
    thread model taken apart into the acquisition of [locks[s]], the
    read and the assignment: no two threads are inside [with locks[s]]
    for the same shard; a lock is held exactly when its holder is inside
    its [with]; a lock nobody is inside of is free, so none is left
    held; and store and log are those of a run in which every iteration
    takes effect in one step. *)
Theorem locks_discipline args per fsched f :
  main_threads_fine args per fsched = Ok f →
  (∀ i j fi fj p,
     f_threads f !! i = Some fi → f_threads f !! j = Some fj →
     in_section fi p → in_section fj p → i = j) ∧
  (∀ p i, f_locks f !! p = Some (Some i)
          ↔ ∃ ft, f_threads f !! i = Some ft ∧ in_section ft p) ∧
  (∀ p, (p < length (f_shards f))%nat →
     (∀ i ft, f_threads f !! i = Some ft → ¬ in_section ft p) →
     f_locks f !! p = Some None) ∧
  (∃ sched c, main_threads_at args per sched = Ok c ∧
     f_shards f = c_shards c ∧ f_log f = c_log c).
Proof.
  intros (sh & sched & Hsh & Hrel)%main_threads_fine_rel.
  split; [|split; [|split]].
  - intros i j fi fj p. by eapply fine_rel_exclusion.
  - intros p i. by eapply fine_rel_owner.
  - intros p. by eapply fine_rel_free.
  - eexists sched, _. split.
    + unfold main_threads_at. rewrite Hsh. reflexivity.
    + by destruct Hrel as (<- & <- & _).
Qed.

Lemma fine_step_other keys f i j :
  i ≠ j → f_threads (fine_step keys f i) !! j = f_threads f !! j.
Proof.
  intros Hij. unfold fine_step, fine_crash.
  repeat (case_match; cbn [f_threads]; try done);
    by rewrite list_lookup_insert_ne.
Qed.

Lemma fine_step_todo keys f i :
  fine_step keys f i = f ∨
  ∃ ft ft', f_threads f !! i = Some ft ∧
    f_threads (fine_step keys f i) !! i = Some ft' ∧
    (fine_todo ft' < fine_todo ft)%nat.
Proof.
  unfold fine_step, fine_crash.
  destruct (f_threads f !! i) as [ft|] eqn:Hft; [|by left].
  pose proof (lookup_lt_Some _ _ _ Hft) as Hi.
  destruct ft as [rnd reads [|todo] | rnd reads todo k r s p
                 | rnd reads todo k s p v found | e]; [by left| | | |by left].
  - destruct (worker_thread_draw _ _ _) as [[[[k r] s] rnd']|e].
    + destruct (py_index _ _) as [p|e].
      * destruct (f_locks f !! p) as [[j|]|]; [by left| |by left].
        right. eexists _, _. split; [done|]. cbn [f_threads].
        rewrite list_lookup_insert_eq by done. split; [done|]. cbn. lia.
      * right. eexists _, _. split; [done|]. cbn [f_threads].
        rewrite list_lookup_insert_eq by done. split; [done|]. cbn. lia.
    + right. eexists _, _. split; [done|]. cbn [f_threads].
      rewrite list_lookup_insert_eq by done. split; [done|]. cbn. lia.
  - destruct (py_getitem _ _) as [d|e]; [destruct (r <? reads)|];
      right; eexists _, _; (split; [done|]); cbn [f_threads];
      rewrite list_lookup_insert_eq by done; (split; [done|]); cbn; lia.
  - destruct (py_setitem2 _ _ _ _) as [shards|e];
      right; eexists _, _; (split; [done|]); cbn [f_threads];
      rewrite list_lookup_insert_eq by done; (split; [done|]); cbn; lia.
Qed.

Lemma fine_step_changes keys f i ft ft' :
  f_threads f !! i = Some ft →
  f_threads (fine_step keys f i) !! i = Some ft' →
  (fine_todo ft' < fine_todo ft)%nat →
  fine_step keys f i ≠ f.
Proof. intros Hft Hft' Hlt Heq. rewrite Heq in Hft'. simplify_eq. lia. Qed.

(** A thread inside [with] is never blocked. *)
Lemma fine_step_in_section keys f i ft p :
  f_threads f !! i = Some ft → in_section ft p →
  fine_step keys f i ≠ f.
Proof.
  intros Hft Hin.
  destruct (fine_step_todo keys f i) as [Heq|(ft0 & ft' & Hft0 & Hft' & Hlt)];
    [|by eapply fine_step_changes].
  exfalso. pose proof (lookup_lt_Some _ _ _ Hft) as Hi.
  unfold fine_step, fine_crash in Heq. rewrite Hft in Heq.
  destruct ft as [| rnd reads todo k r s p' | rnd reads todo k s p' v found |];
    cbn in Hin; try done.
  - assert (f_threads f !! i ≠ Some (FHolding rnd reads todo k r s p'));
      [|done].
    rewrite <- Heq.
    destruct (py_getitem _ _) as [d|e]; [destruct (r <? reads)|];
      cbn [f_threads]; by rewrite list_lookup_insert_eq by done.
  - assert (f_threads f !! i ≠ Some (FFetched rnd reads todo k s p' v found));
      [|done].
    rewrite <- Heq.
    destruct (py_setitem2 _ _ _ _) as [shards|e];
      cbn [f_threads]; by rewrite list_lookup_insert_eq by done.
Qed.

(** No deadlock: while a thread has work left, some thread can take a
    step. *)
Lemma fine_rel_progress locks keys f c i ft :
  fine_rel locks keys f c →
  f_threads f !! i = Some ft → fine_todo ft ≠ O →
  ∃ j, fine_step keys f j ≠ f.
Proof.
  intros Hrel Hft Htodo. pose proof Hrel as (_ & _ & Hll & _ & _ & Hown).
  pose proof (lookup_lt_Some _ _ _ Hft) as Hi.
  destruct ft as [rnd reads [|todo] | rnd reads todo k r s p
                 | rnd reads todo k s p v found | e]; [done| | | |done].
  - destruct (worker_thread_draw (length (f_shards f)) keys rnd)
      as [[[[k r] s] rnd']|e] eqn:Hdraw.
    + destruct (py_index (length (f_locks f)) s) as [p|e] eqn:Hp.
      * pose proof (py_index_Ok_inv _ _ _ Hp) as Hlt.
        destruct (lookup_lt_is_Some_2 (f_locks f) p Hlt) as [[j|] Hl].
        -- destruct (Hown p j Hl) as (fj & Hfj & Hin).
           exists j. by eapply fine_step_in_section.
        -- exists i. intros Heq.
           assert (f_threads f !! i
                   ≠ Some (FRunning rnd reads (S todo))); [|done].
           rewrite <- Heq. unfold fine_step. rewrite Hft, Hdraw, Hp, Hl.
           cbn [f_threads]. by rewrite list_lookup_insert_eq by done.
      * exists i. intros Heq.
        assert (f_threads f !! i ≠ Some (FRunning rnd reads (S todo)));
          [|done].
        rewrite <- Heq. unfold fine_step, fine_crash. rewrite Hft, Hdraw, Hp.
        cbn [f_threads]. by rewrite list_lookup_insert_eq by done.
    + exists i. intros Heq.
      assert (f_threads f !! i ≠ Some (FRunning rnd reads (S todo)));
        [|done].
      rewrite <- Heq. unfold fine_step, fine_crash. rewrite Hft, Hdraw.
      cbn [f_threads]. by rewrite list_lookup_insert_eq by done.
  - exists i. by eapply (fine_step_in_section _ _ _ _ p).
  - exists i. by eapply (fine_step_in_section _ _ _ _ p).
Qed.

Lemma sum_list_insert {A} (g : A → nat) (l : list A) i x y :
  l !! i = Some x →
  (sum_list (g <$> <[i := y]> l) + g x = sum_list (g <$> l) + g y)%nat.
Proof.
  revert i. induction l as [|a l IH]; intros [|i] Hi; try done.
  - injection Hi as ->. cbn. lia.
  - specialize (IH i Hi).
    change (<[S i:=y]> (a :: l)) with (a :: <[i:=y]> l).
    rewrite !fmap_cons. cbn [sum_list sum_list_with]. lia.
Qed.

Lemma fine_step_sum keys f i :
  fine_step keys f i ≠ f →
  (sum_list (fine_todo <$> f_threads (fine_step keys f i))
   < sum_list (fine_todo <$> f_threads f))%nat.
Proof.
  intros Hne.
  destruct (fine_step_todo keys f i) as [Heq|(ft & ft' & Hft & Hft' & Hlt)];
    [done|].
  assert (f_threads (fine_step keys f i) = <[i := ft']> (f_threads f)) as ->.
  { apply list_eq. intros j. destruct (decide (i = j)) as [<-|Hij].
    - rewrite list_lookup_insert_eq by by apply lookup_lt_Some in Hft. done.
    - by rewrite list_lookup_insert_ne, fine_step_other. }
  pose proof (sum_list_insert fine_todo _ _ _ ft' Hft). lia.
Qed.

(** Termination: the threads can always be run to the end of their
    loops. *)
Lemma fine_rel_finish locks keys n f c :
  fine_rel locks keys f c →
  (sum_list (fine_todo <$> f_threads f) ≤ n)%nat →
  ∃ fsched, Forall (λ ft, fine_todo ft = O)
              (f_threads (fine_exec keys fsched f)).
Proof.
  revert f c. induction n as [|n IH]; intros f c Hrel Hn.
  - exists []. cbn. apply Forall_forall. intros ft Hin.
    pose proof (sum_list_with_in (fine_todo ft) id (fine_todo <$> f_threads f)
                  (list_elem_of_fmap_2 _ _ _ Hin)) as Hle.
    change (id (fine_todo ft)) with (fine_todo ft) in Hle. lia.
  - destruct (decide (Forall (λ ft, fine_todo ft = O) (f_threads f)))
      as [Hall|Hex]; [by exists []|].
    apply not_Forall_Exists in Hex; [|apply _].
    apply Exists_exists in Hex as (ft & [i Hft]%list_elem_of_lookup & Htodo).
    destruct (fine_rel_progress _ _ _ _ _ _ Hrel Hft Htodo) as [j Hj].
    pose proof (fine_step_sum keys f j Hj) as Hlt.
    destruct (fine_step_simulation locks keys f c j Hrel) as (c' & _ & Hrel').
    destruct (IH _ _ Hrel' ltac:(lia)) as [fsched Hfin].
    by exists (j :: fsched).
Qed.

Lemma main_threads_fine_app args per fsched fsched' f :
  main_threads_fine args per fsched = Ok f →
  main_threads_fine args per (fsched ++ fsched')
  = Ok (fine_exec (arg_keys args) fsched' f).
Proof.
  unfold main_threads_fine. intros (sh & -> & [= <-])%bind_Ok_inv.
  rewrite bind_Ok. unfold fine_exec. by rewrite foldl_app.
Qed.

(** X16. The locks cannot deadlock, and [join] returns. In every state
    of the thread model with the locks in it: while some thread has not
    left its loop, some thread can take a step; a step that changes the
    state brings down the number of steps still to take; and the run can
    be continued to a state in which every thread has left its loop or
    died, with every lock free. *)
Theorem locks_no_deadlock args per fsched f :
  main_threads_fine args per fsched = Ok f →
  (∀ i ft, f_threads f !! i = Some ft → fine_todo ft ≠ O →
     ∃ j, fine_step (arg_keys args) f j ≠ f) ∧
  (∀ j, fine_step (arg_keys args) f j ≠ f →
     (sum_list (fine_todo <$> f_threads (fine_step (arg_keys args) f j))
      < sum_list (fine_todo <$> f_threads f))%nat) ∧
  (∃ fsched' f', main_threads_fine args per (fsched ++ fsched') = Ok f' ∧
     Forall (λ ft, fine_todo ft = O) (f_threads f') ∧
     Forall (λ o, o = None) (f_locks f')).
Proof.
  intros Hf.
  destruct (main_threads_fine_rel _ _ _ _ Hf) as (sh & sched & Hsh & Hrel).
  split; [|split].
  - intros i ft. by eapply fine_rel_progress.
  - intros j. apply fine_step_sum.
  - destruct (fine_rel_finish _ _ _ _ _ Hrel (Nat.le_refl _))
      as [fsched' Hfin].
    exists fsched', (fine_exec (arg_keys args) fsched' f).
    pose proof (main_threads_fine_app _ _ _ fsched' _ Hf) as Hf'.
    split; [exact Hf'|]. split; [exact Hfin|].
    destruct (main_threads_fine_rel _ _ _ _ Hf') as (sh' & sched' & _ & Hrel').
    apply Forall_forall. intros o [p Hp]%list_elem_of_lookup.
    pose proof Hrel' as (_ & _ & Hll & _).
    rewrite (fine_rel_free _ _ _ _ p Hrel') in Hp.
    + by injection Hp.
    + apply lookup_lt_Some in Hp. lia.
    + intros i ft Hft Hin.
      pose proof (Forall_lookup_1 _ _ _ _ Hfin Hft) as Hz.
      destruct ft; cbn in Hin, Hz; (done || lia).
Qed.

(** ** A negative key count *)

Lemma new_shards_store_get S k : store_get S (new_shards S) k = None.
Proof.
  unfold store_get.
  destruct (new_shards S !! Z.to_nat (k mod S)) as [d|] eqn:Hd; [|done].
  apply new_shards_lookup in Hd as ->. done.
Qed.

Lemma body_preserves_written K S :
  K < 0 →
  body_preserves K S (λ _, True)
    (λ sh log,
       Forall (λ ev, K < ev_key ev ≤ 0) log ∧
       ∀ k, store_get S sh k
            = if decide (0 < writes_to k log)%nat
              then Some (Z.of_nat (writes_to k log)) else None).
Proof.
  intros HK sh log rnd reads sh' rnd' ev HS Hlen _ [Hlog Hget] Hbody. split.
  - apply Forall_app. split; [done|]. apply Forall_singleton.
    pose proof (worker_process_body_effect _ _ _ _ _ _ _ _ HS Hlen Hbody)
      as Heff.
    cbv zeta in Heff. destruct Heff as (-> & _).
    apply Z.mod_neg_bound. lia.
  - intros k.
    rewrite (worker_process_body_get _ _ _ _ _ _ _ _ k HS Hlen Hbody).
    rewrite writes_to_snoc.
    destruct (ev_kind ev) eqn:Hkind.
    + rewrite (decide_False (P := Read = Write ∧ ev_key ev = k))
        by (by intros [? _]).
      rewrite Nat.add_0_r. apply Hget.
    + destruct (decide (ev_key ev = k)) as [Hk|Hk].
      * rewrite (decide_True (P := Write = Write ∧ ev_key ev = k)) by done.
        rewrite Hget. rewrite (decide_True (P := (0 < _ + 1)%nat)) by lia.
        destruct (decide (0 < writes_to k log)%nat); cbn; f_equal; lia.
      * rewrite (decide_False (P := Write = Write ∧ ev_key ev = k))
          by (by intros [_ ?]).
        rewrite Nat.add_0_r. apply Hget.
Qed.

Lemma run_state_routed args per sh log :
  1 ≤ arg_shards args → run_state args per sh log →
  routed (arg_shards args) sh.
Proof.
  intros HS Hst.
  enough (routed (arg_shards args) sh ∧
          Forall (ev_routed (arg_shards args)) log) as [? _]; [done|].
  apply (run_state_invariant (λ _, True)
           (λ sh log, routed (arg_shards args) sh ∧
                      Forall (ev_routed (arg_shards args)) log)
           args per sh log); [done| | |exact Hst].
  - intros sh0 Hsh0.
    destruct (prefill_prefilled (arg_keys args) (arg_shards args) HS)
      as (sh1 & Hsh1 & Hpre).
    assert (sh0 = sh1) as -> by congruence.
    split; [by eapply prefilled_routed|done].
  - apply body_preserves_routed.
Qed.

(** X17. A negative key count is not rejected either, and with at least
    one shard and a threshold that can be computed it makes nothing
    fail. With [K < 0] keys prefill leaves the store empty; under every
    schedule every thread runs to the end of its loop, every worker
    process returns, and with at least one worker [main] prints the
    record, nothing on the error stream, and exits with status 0. In
    every state of a run, in either model, the workers have drawn their
    keys from [(K, 0]], and the dictionary of shard [j] holds exactly the
    keys written so far that are [j] modulo [S], each with the number of
    writes made to it (the first write to a key goes through the default
    of [get]). *)
Theorem negative_key_count args per reads :
  arg_keys args < 0 → 1 ≤ arg_shards args →
  reads_of (arg_read_ratio args) = Ok reads →
  let K := arg_keys args in
  let S := arg_shards args in
  prefill (new_shards S) K S = Ok (new_shards S) ∧
  (∀ sched, ∃ c, main_threads args per sched = Ok c ∧
     length (c_threads c) = Z.to_nat (arg_threads args) ∧
     Forall (λ t, ∃ rnd, t = Running rnd reads O) (c_threads c)) ∧
  (∀ job, job ∈ process_jobs args per → worker_process job = Ok 0) ∧
  (1 ≤ arg_threads args →
   arg_model args = "threads" ∨ arg_model args = "processes" →
   ∀ env sched,
     main args env sched
     = report args env (arg_iterations args / arg_threads args) []) ∧
  (∀ sh log, run_state args per sh log →
     Forall (λ ev, K < ev_key ev ≤ 0) log ∧
     ∀ (j : nat) d k, sh !! j = Some d →
       d !! k = if decide (k mod S = Z.of_nat j ∧ (0 < writes_to k log)%nat)
                then Some (Z.of_nat (writes_to k log)) else None).
Proof.
  intros HK HS Hint K S.
  assert (HK0 : arg_keys args ≠ 0) by lia.
  assert (Hpre : prefill (new_shards S) K S = Ok (new_shards S)).
  { unfold prefill. rewrite py_range_nonpos; [done|]. unfold K. lia. }
  assert (Hthreads : ∀ per' sched, ∃ c, main_threads args per' sched = Ok c ∧
            length (c_threads c) = Z.to_nat (arg_threads args) ∧
            Forall (λ t, ∃ rnd, t = Running rnd reads O) (c_threads c)).
  { intros per' sched.
    destruct (main_threads_final args per' sched reads HK0 HS Hint)
      as (c & Hc & Hts & _).
    exists c. split; [exact Hc|]. rewrite Hts. split.
    - by rewrite length_fmap, py_range_length.
    - apply Forall_fmap, Forall_forall. intros i _. cbn. eauto. }
  assert (Hjobs : ∀ per' job, job ∈ process_jobs args per' →
            worker_process job = Ok 0).
  { intros per' job [i ->]%process_jobs_elem. unfold worker_process.
    pose proof (worker_process_run_Ok (arg_keys args) per'
                  (arg_read_ratio args) (arg_seed args) i (arg_shards args)
                  reads HK0 HS Hint) as Hrun.
    by destruct (worker_process_run _). }
  split; [exact Hpre|]. split; [apply Hthreads|]. split; [apply Hjobs|]. split.
  - intros HT Hmodel env sched. unfold main. rewrite py_floordiv_Ok by lia.
    set (per' := arg_iterations args / arg_threads args).
    destruct Hmodel as [-> | ->]; cbn [String.eqb Ascii.eqb Bool.eqb].
    + destruct (Hthreads per' sched) as (c & -> & _ & Hts).
      rewrite thread_tracebacks_alive; [done|].
      intros i e Hi.
      by destruct (Forall_lookup_1 _ _ _ _ Hts Hi) as [rnd ?].
    + unfold main_processes.
      destruct (Z.ltb_spec (arg_threads args) 1) as [|_]; [lia|].
      assert (Hok : is_ok (pool_map worker_process (process_jobs args per'))
                    = true).
      { apply pool_map_Ok, Forall_forall. intros job Hjob.
        by rewrite (Hjobs per' job Hjob). }
      by destruct (pool_map _ _).
  - intros sh log Hst.
    pose proof (run_state_routed args per sh log HS Hst) as Hrouted.
    fold S in Hrouted.
    assert (Hinv : Forall (λ ev, K < ev_key ev ≤ 0) log ∧
              ∀ k, store_get S sh k
                   = if decide (0 < writes_to k log)%nat
                     then Some (Z.of_nat (writes_to k log)) else None).
    { apply (run_state_invariant (λ _, True)
               (λ sh log,
                  Forall (λ ev, K < ev_key ev ≤ 0) log ∧
                  ∀ k, store_get S sh k
                       = if decide (0 < writes_to k log)%nat
                         then Some (Z.of_nat (writes_to k log)) else None)
               args per sh log); [done| | |exact Hst].
      - intros sh0 Hsh0. fold K S in Hsh0.
        assert (sh0 = new_shards S) as -> by congruence.
        split; [done|]. intros k. by rewrite new_shards_store_get.
      - by apply body_preserves_written. }
    destruct Hinv as [Hkeys Hget]. split; [exact Hkeys|].
    intros j d k Hd.
    destruct (decide (k mod S = Z.of_nat j)) as [Hmod|Hmod].
    + specialize (Hget k). unfold store_get in Hget.
      rewrite Hmod, Nat2Z.id, Hd in Hget. cbn in Hget. rewrite Hget.
      destruct (decide (0 < writes_to k log)%nat).
      * by rewrite decide_True.
      * by rewrite decide_False by tauto.
    + rewrite decide_False by tauto.
      apply eq_None_not_Some. intros Hsome.
      by apply Hmod, (Hrouted j d k Hd).
Qed.

(** ** When [main] fails *)

Lemma worker_process_body_no_shards K S reads rnd :
  S ≤ 0 → ∃ e, worker_process_body [] K S reads rnd = Raise e.
Proof.
  intros HS. unfold worker_process_body.
  destruct (splitmix64_next rnd) as [x1 rnd1].
  destruct (py_mod x1 K) as [k|e]; [|by eexists]. rewrite bind_Ok.
  destruct (splitmix64_next rnd1) as [x2 rnd2].
  rewrite (py_mod_Ok x2 1000), bind_Ok by lia.
  destruct (py_mod k S) as [s|e]; [|by eexists]. rewrite bind_Ok.
  assert (py_getitem (@nil (gmap Z Z)) s = Raise IndexError) as ->.
  { unfold py_getitem, py_index. cbn [length].
    by repeat (case_match; try lia). }
  destruct (_ <? _); by eexists.
Qed.

Lemma worker_process_run_ok K per ρ seed i S :
  is_ok (worker_process_run (K, per, ρ, seed, i, S)) = true
  ↔ (1 ≤ S ∨ K ≤ 0) ∧ is_ok (reads_of ρ) = true ∧
    (per ≤ 0 ∨ (K ≠ 0 ∧ 1 ≤ S)).
Proof.
  split.
  - intros Hok.
    destruct (decide (1 ≤ S ∨ K ≤ 0)) as [Hpre|Hpre].
    2:{ destruct (prefill_no_shards K S) as [e He]; [lia..|].
        unfold worker_process_run in Hok. by rewrite He in Hok. }
    split; [done|].
    destruct (prefill_Ok K S Hpre) as (sh & Hsh & Hlen).
    unfold worker_process_run in Hok. rewrite Hsh, bind_Ok in Hok.
    destruct (reads_of ρ) as [reads|e]; [|done]. split; [done|].
    rewrite bind_Ok in Hok.
    destruct (decide (per ≤ 0)) as [|Hper]; [by left|right].
    destruct (py_range_first per ltac:(lia)) as [l Hl].
    rewrite Hl in Hok. cbn [for_each] in Hok.
    unfold worker_process_iteration at 2 in Hok.
    destruct (decide (K = 0)) as [->|HK].
    { unfold worker_process_body in Hok.
      destruct (splitmix64_next _) as [x1 rnd1].
      by rewrite py_mod_zero in Hok. }
    split; [done|]. destruct (decide (1 ≤ S)) as [|HS]; [done|].
    assert (sh = []) as -> by (apply nil_length_inv; lia).
    destruct (worker_process_body_no_shards K S reads (splitmix64 (seed + i)))
      as [e He]; [lia|].
    by rewrite He in Hok.
  - intros (Hpre & Hint & Hloop).
    destruct (reads_of ρ) as [reads|e] eqn:Hreads; [|done].
    destruct Hloop as [Hper|[HK HS]]; [|by eapply worker_process_run_Ok].
    destruct (prefill_Ok K S Hpre) as (sh & Hsh & _).
    unfold worker_process_run.
    by rewrite Hsh, bind_Ok, Hreads, bind_Ok, py_range_nonpos.
Qed.

Lemma main_processes_ok args per :
  is_ok (main_processes args per) = true
  ↔ 1 ≤ arg_threads args ∧
    (1 ≤ arg_shards args ∨ arg_keys args ≤ 0) ∧
    is_ok (reads_of (arg_read_ratio args)) = true ∧
    (per ≤ 0 ∨ (arg_keys args ≠ 0 ∧ 1 ≤ arg_shards args)).
Proof.
  unfold main_processes.
  destruct (Z.ltb_spec (arg_threads args) 1) as [HT|HT].
  { split; [done|]. intros [? _]. lia. }
  split.
  - intros Hok. split; [done|].
    apply (worker_process_run_ok _ per _ (arg_seed args) 0).
    destruct (process_jobs_first args per HT) as [l Hl].
    rewrite Hl in Hok.
    destruct (worker_process_run _) as [r|e] eqn:Hrun; [done|].
    rewrite (pool_map_Raise _ _ _ e) in Hok; [done|].
    unfold worker_process. by rewrite Hrun.
  - intros [_ Hcond]. apply pool_map_Ok, Forall_forall.
    intros job [i ->]%process_jobs_elem. unfold worker_process.
    apply (worker_process_run_ok _ per _ (arg_seed args) i) in Hcond.
    by destruct (worker_process_run _).
Qed.

Lemma main_threads_ok args per sched :
  is_ok (main_threads args per sched) = true
  ↔ 1 ≤ arg_shards args ∨ arg_keys args ≤ 0.
Proof.
  split.
  - intros Hok. destruct (decide (1 ≤ arg_shards args ∨ arg_keys args ≤ 0))
      as [|Hpre]; [done|].
    destruct (prefill_no_shards (arg_keys args) (arg_shards args))
      as [e He]; [lia..|].
    unfold main_threads in Hok. by rewrite He in Hok.
  - intros Hpre.
    destruct (prefill_Ok _ _ Hpre) as (sh & Hsh & _).
    by rewrite (main_threads_of_prefill _ _ _ sh Hsh).
Qed.

Lemma per_positive iterations threads :
  1 ≤ threads → (1 ≤ iterations / threads ↔ threads ≤ iterations).
Proof.
  intros HT. split.
  - intros Hper.
    pose proof (Z.div_mod iterations threads ltac:(lia)).
    pose proof (Z.mod_pos_bound iterations threads ltac:(lia)). nia.
  - intros Hit. apply Z.div_le_lower_bound; lia.
Qed.

Lemma report_not_fatal args env per err : ¬ fatal (report args env per err).
Proof. by intros [? _]. Qed.

(** X18. When [main] fails, exactly. The run is fatal (no record, a
    diagnostic, a non-zero status) if and only if the worker count is
    zero, or the model is unknown, or there are keys to prefill and no
    shard, or, in the process model only, the worker count is below one,
    the threshold cannot be computed, or there is an iteration to run
    with no key or no shard. A fatal run exits with status 1; every other
    run prints the record and exits with status 0, whatever happened to
    the threads. *)
Theorem main_fatal_iff args env sched :
  let o := main args env sched in
  (fatal o ↔
     arg_threads args = 0 ∨
     (arg_model args ≠ "threads" ∧ arg_model args ≠ "processes") ∨
     (1 ≤ arg_keys args ∧ arg_shards args ≤ 0) ∨
     (arg_model args = "processes" ∧
      (arg_threads args < 1 ∨
       is_ok (reads_of (arg_read_ratio args)) = false ∨
       (arg_threads args ≤ arg_iterations args ∧
        (arg_keys args = 0 ∨ arg_shards args ≤ 0))))) ∧
  (fatal o → exit_status o = 1) ∧
  (¬ fatal o →
   ∃ err, o = report args env (arg_iterations args / arg_threads args) err).
Proof.
  cbn zeta. unfold main.
  destruct (decide (arg_threads args = 0)) as [H0|H0].
  { rewrite H0. cbn. split; [|split].
    - split; [by left|]. intros _. apply uncaught_fatal.
    - done.
    - intros []. apply uncaught_fatal. }
  rewrite py_floordiv_Ok by done.
  set (per := arg_iterations args / arg_threads args).
  destruct (String.eqb_spec (arg_model args) "threads") as [Hm|Hm].
  - pose proof (main_threads_ok args per sched) as Hok.
    destruct (main_threads args per sched) as [c|e]; cbn [is_ok] in Hok.
    + split; [|split].
      * split; [by intros []%report_not_fatal|].
        intros [?|[[? _]|[[? ?]|[Hp _]]]]; [done..| |].
        -- destruct Hok as [[?|?] _]; [done|lia..].
        -- by rewrite Hm in Hp.
      * by intros []%report_not_fatal.
      * eauto.
    + split; [|split].
      * split; [|intros _; apply uncaught_fatal].
        intros _. right. right. left.
        destruct (decide (1 ≤ arg_shards args ∨ arg_keys args ≤ 0))
          as [Hpre|Hpre]; [|lia].
        by apply Hok in Hpre.
      * done.
      * intros []. apply uncaught_fatal.
  - destruct (String.eqb_spec (arg_model args) "processes") as [Hp|Hp].
    + pose proof (main_processes_ok args per) as Hok.
      destruct (main_processes args per) as [r|e]; cbn [is_ok] in Hok.
      * destruct Hok as [(HT & Hpre & Hint & Hloop) _]; [done|].
        split; [|split].
        -- split; [by intros []%report_not_fatal|].
           intros [?|[[_ ?]|[[? ?]|[_ [?|[Hno|[Hit Hkeys]]]]]]];
             [done|done|lia|lia| |].
           ++ by rewrite Hint in Hno.
           ++ apply per_positive in Hit; [|done]. fold per in Hit. lia.
        -- by intros []%report_not_fatal.
        -- eauto.
      * split; [|split].
        -- split; [|intros _; apply uncaught_fatal].
           intros _.
           destruct (decide (1 ≤ arg_threads args)) as [HT|HT];
             [|right; right; right; split; [done|left; lia]].
           destruct (decide (1 ≤ arg_shards args ∨ arg_keys args ≤ 0))
             as [Hpre|Hpre]; [|right; right; left; lia].
           destruct (is_ok (reads_of (arg_read_ratio args))) eqn:Hint;
             [|right; right; right; split; [done|right; by left]].
           destruct (decide (per ≤ 0 ∨ (arg_keys args ≠ 0 ∧ 1 ≤ arg_shards args)))
             as [Hloop|Hloop];
             [assert (false = true) by (by apply Hok); done|].
           right. right. right. split; [done|]. right. right. split.
           ++ apply per_positive; [done|]. fold per. lia.
           ++ lia.
        -- done.
        -- intros []. apply uncaught_fatal.
    + split; [|split].
      * split; [tauto|]. intros _. by repeat split.
      * done.
      * intros []. by repeat split.
Qed.

(** ** Thresholds out of range *)

(** X19. A read ratio outside [[0, 1]] is accepted and saturates. When
    the threshold [int(read_ratio * 1000)] is 1000 or more, every access
    of a run, in either model, is a read and the store stays as prefill
    left it; when it is 0 or less, every access is a write. *)
Theorem threshold_saturates args per reads sh log :
  reads_of (arg_read_ratio args) = Ok reads →
  run_state args per sh log →
  (1000 ≤ reads →
   Forall (λ ev, ev_kind ev = Read) log ∧
   prefill (new_shards (arg_shards args)) (arg_keys args) (arg_shards args)
   = Ok sh) ∧
  (reads ≤ 0 → Forall (λ ev, ev_kind ev = Write) log).
Proof.
  intros Hint Hst. split.
  - intros Hreads.
    enough (prefill (new_shards (arg_shards args)) (arg_keys args)
              (arg_shards args) = Ok sh ∧
            Forall (λ ev, ev_kind ev = Read) log) by tauto.
    apply (run_state_invariant (λ reads, 1000 ≤ reads)
             (λ sh log,
                prefill (new_shards (arg_shards args)) (arg_keys args)
                  (arg_shards args) = Ok sh ∧
                Forall (λ ev, ev_kind ev = Read) log)
             args per sh log); [| | |exact Hst].
    + intros reads' Hreads'. congruence.
    + done.
    + intros sh1 log1 rnd reads1 sh' rnd' ev HS Hlen Hreads1 [Hsh1 Hlog] Hb.
      destruct (body_preserves_reads (arg_keys args) (arg_shards args)
                  sh1 sh1 log1 rnd reads1 sh' rnd' ev)
        as [-> ?]; done.
  - intros Hreads.
    apply (run_state_invariant (λ reads, reads ≤ 0)
             (λ sh log, Forall (λ ev, ev_kind ev = Write) log)
             args per sh log); [| | |exact Hst].
    + intros reads' Hreads'. congruence.
    + done.
    + apply body_preserves_writes.
Qed.

(** ** A thread on its own *)

Lemma worker_loops_agree l locks K S reads sh rnd log :
  1 ≤ S → length sh = Z.to_nat S → length locks = Z.to_nat S →
  for_each l (worker_thread_iteration locks K reads) (sh, rnd, log)
  = for_each l (worker_process_iteration K S reads) (sh, rnd, log).
Proof.
  intros HS. revert sh rnd log.
  induction l as [|a l IH]; intros sh rnd log Hsh Hlocks; [done|].
  cbn [for_each]. unfold worker_thread_iteration at 2.
  unfold worker_process_iteration at 2.
  rewrite worker_thread_body_process by congruence.
  rewrite Hsh, Z2Nat.id by lia.
  destruct (worker_process_body sh K S reads rnd) as [[[sh' rnd'] ev]|e]
    eqn:Hbody; [|done].
  rewrite !bind_Ok. apply IH; [|done].
  apply worker_process_body_length in Hbody. congruence.
Qed.

(** X20. A thread that runs alone is a worker process: with [S ≥ 1]
    shards, [worker_thread] started on the store that prefill builds,
    with one lock per shard, makes the accesses [worker_process] makes
    on its private store and leaves the same store, and raises the same
    exception where [worker_process] raises. *)
Theorem worker_thread_is_worker_process K per ρ seed i S sh0 :
  1 ≤ S → prefill (new_shards S) K S = Ok sh0 →
  worker_thread sh0 (new_locks S) K per ρ seed i
  = worker_process_run (K, per, ρ, seed, i, S).
Proof.
  intros HS Hsh0. unfold worker_thread, worker_process_run.
  rewrite Hsh0, bind_Ok. destruct (reads_of ρ) as [reads|e]; [|done].
  rewrite !bind_Ok. rewrite (worker_loops_agree _ _ _ S); [done..| |].
  - apply prefill_length in Hsh0. by rewrite Hsh0, new_shards_length.
  - apply new_locks_length.
Qed.

(** ** The streams of the workers *)

Lemma mod_shift_neq a b d :
  0 < d < 2 ^ 64 → b = a + d → a mod 2 ^ 64 ≠ b mod 2 ^ 64.
Proof.
  intros Hd -> Heq.
  assert (Hz : d mod 2 ^ 64 = 0).
  { replace d with (a + d - a) by lia.
    by rewrite Zminus_mod, Heq, Z.sub_diag. }
  rewrite Z.mod_small in Hz by lia. lia.
Qed.

(** X21. No two workers replay the same random stream: worker [i] seeds
    its generator with [seed + i], and for two workers whose indices
    differ by less than [2^64] the values drawn at every position
    differ. *)
Theorem workers_streams_differ seed i j n m :
  i < j → j - i < 2 ^ 64 → (m < n)%nat →
  draws n (splitmix64 (seed + i)) !! m ≠ draws n (splitmix64 (seed + j)) !! m.
Proof.
  intros Hij Hd Hm. rewrite !draws_lookup by done. intros [= Heq].
  apply splitmix64_mix_inj in Heq; [|apply Z.mod_pos_bound; lia..].
  unfold splitmix64 in Heq. rewrite !land_mask64 in Heq.
  rewrite !Z.add_mod_idemp_l in Heq by lia.
  revert Heq. apply (mod_shift_neq _ _ (j - i)); lia.
Qed.

(** * Further runs on concrete inputs *)

Lemma main_threads_state args per sched :
  1 ≤ arg_shards args ∨ arg_keys args ≤ 0 →
  ∃ c, main_threads args per sched = Ok c ∧
       run_state args per (c_shards c) (c_log c).*2.
Proof.
  intros Hpre. destruct (prefill_Ok _ _ Hpre) as (sh & Hsh & _).
  eexists. split; [by apply main_threads_of_prefill|].
  eapply main_threads_run_state. by apply main_threads_of_prefill.
Qed.

Lemma main_threads_fine_state args per fsched :
  1 ≤ arg_shards args ∨ arg_keys args ≤ 0 →
  ∃ f, main_threads_fine args per fsched = Ok f.
Proof.
  intros Hpre. destruct (prefill_Ok _ _ Hpre) as (sh & Hsh & _).
  unfold main_threads_fine. rewrite Hsh. by eexists.
Qed.

Lemma splitmix64_jump_ahead_witness :
  (2 < 3)%nat ∧ draws 3 (splitmix64 0) !! 2%nat = Some 0x06C45D188009454F.
Proof.
  split; [lia|].
  rewrite (proj2 (splitmix64_jump_ahead 0 3) 2%nat) by lia.
  vm_compute. reflexivity.
Defined.

Lemma splitmix64_output_invertible_witness :
  splitmix64_unmix (splitmix64_next 0).1 = 0x9E3779B97F4A7C15 ∧
  ∃ x, 0 ≤ x < 2 ^ 64 ∧ (splitmix64_next x).1 = 0xE220A8397B1DCDAF.
Proof.
  split.
  - rewrite (proj1 splitmix64_output_invertible 0). vm_compute. reflexivity.
  - destruct (proj2 splitmix64_output_invertible 0xE220A8397B1DCDAF)
      as (x & Hx & Hz & _); [lia|].
    exists x. split; [exact Hx|exact Hz].
Defined.

Lemma splitmix64_period_witness :
  (0 < 2 < 3)%nat ∧
  draws 3 (splitmix64 0) !! 0%nat ≠ draws 3 (splitmix64 0) !! 2%nat.
Proof.
  split; [lia|].
  apply (proj1 (splitmix64_period 0) 3 0 2)%nat; [lia|]. vm_compute. reflexivity.
Defined.

Lemma shards_balanced_witness :
  ∃ c, main_threads demo_args 4 [1; 0; 0; 1]%nat = Ok c ∧
    Z.of_nat (sum_list (size <$> c_shards c)) = 10 ∧
    ∀ (j : nat) d, c_shards c !! j = Some d →
      Z.of_nat (size d) = (10 + 2 - 1 - Z.of_nat j) / 2.
Proof.
  destruct (main_threads_state demo_args 4 [1; 0; 0; 1]%nat) as (c & Hc & Hst);
    [left; vm_compute; discriminate|].
  exists c. split; [exact Hc|].
  destruct (shards_balanced demo_args 4 _ _ ltac:(vm_compute; discriminate)
              ltac:(vm_compute; discriminate) Hst) as (Hsize & _ & Htotal).
  split; [exact Htotal|exact Hsize].
Defined.

Lemma no_lost_update_witness :
  ∃ c, main_threads demo_args 4 [1; 0; 0; 1]%nat = Ok c ∧
    ∀ k, 0 ≤ k < 10 →
      store_get 2 (c_shards c) k
      = Some (Z.of_nat (writes_to k (c_log c).*2)).
Proof.
  destruct (main_threads_state demo_args 4 [1; 0; 0; 1]%nat) as (c & Hc & Hst);
    [left; vm_compute; discriminate|].
  exists c. split; [exact Hc|].
  destruct (no_lost_update demo_args 4 _ _ ltac:(vm_compute; discriminate) Hst)
    as [_ Hget].
  apply Hget. vm_compute. discriminate.
Defined.

Lemma final_store_schedule_independent_witness :
  ∃ c c', main_threads demo_args 4 [1; 0; 0; 1]%nat = Ok c ∧
    main_threads demo_args 4 [0; 0; 1; 0; 0; 1; 1]%nat = Ok c' ∧
    c_shards c = c_shards c' ∧ c_threads c = c_threads c'.
Proof.
  destruct (final_store_schedule_independent demo_args 4 500
              [1; 0; 0; 1]%nat [0; 0; 1; 0; 0; 1; 1]%nat)
    as (c & c' & Hc & Hc' & Hsh & Hts & _);
    [vm_compute; discriminate | vm_compute; discriminate
    | vm_compute; reflexivity |].
  exists c, c'. split; [exact Hc|]. split; [exact Hc'|].
  split; [exact Hsh|exact Hts].
Defined.

Lemma threads_store_sums_process_stores_witness :
  ∃ c stores, main_threads demo_args 4 [1; 0; 0; 1]%nat = Ok c ∧
    Forall2 (λ job sh, ∃ log, worker_process_run job = Ok (sh, log))
      (process_jobs demo_args 4) stores ∧
    ∀ k, 0 ≤ k < 10 →
      store_get 2 (c_shards c) k = Some (counter_sum 2 stores k).
Proof.
  destruct (threads_store_sums_process_stores demo_args 4 500
              [1; 0; 0; 1]%nat)
    as (c & stores & Hc & Hstores & Hsum & _);
    [vm_compute; discriminate | vm_compute; discriminate
    | vm_compute; reflexivity |].
  exists c, stores. split; [exact Hc|]. split; [exact Hstores|exact Hsum].
Defined.

Lemma main_valid_configuration_witness :
  main demo_args demo_env [1; 0; 0; 1]%nat = report demo_args demo_env 4 [].
Proof.
  apply (main_valid_configuration demo_args demo_env [1; 0; 0; 1]%nat 500);
    [vm_compute; discriminate | vm_compute; discriminate
    | vm_compute; discriminate | vm_compute; reflexivity | left; reflexivity].
Defined.

Lemma threads_without_keys_witness :
  main no_keys_args demo_env [0; 0]%nat
  = report no_keys_args demo_env 1 [ThreadTraceback 0 ZeroDivisionError].
Proof.
  destruct (threads_without_keys no_keys_args demo_env [0; 0]%nat 500)
    as [Hmain _];
    [reflexivity | left; reflexivity
    | split; vm_compute; discriminate | vm_compute; reflexivity |].
  exact Hmain.
Defined.

Lemma ratio_without_threshold_witness :
  main nan_args demo_env [1; 0]%nat
  = report nan_args demo_env 4
      [ThreadTraceback 0 ValueError; ThreadTraceback 1 ValueError].
Proof.
  destruct (ratio_without_threshold nan_args demo_env [1; 0]%nat ValueError)
    as (_ & Hthreads & _);
    [vm_compute; reflexivity | vm_compute; discriminate
    | left; vm_compute; discriminate |].
  destruct Hthreads as [Hmain _]; [reflexivity|]. exact Hmain.
Defined.

Lemma threads_negative_count_witness :
  main negative_threads_args demo_env []
  = report negative_threads_args demo_env (-13) [] ∧
  100 ≤ -13 * -8 < 100 - -8.
Proof.
  destruct (threads_negative_count negative_threads_args demo_env [])
    as (Hmain & _ & Hbounds);
    [reflexivity | vm_compute; reflexivity | left; vm_compute; discriminate |].
  split; [exact Hmain|exact Hbounds].
Defined.

Lemma reported_iterations_performed_witness :
  ∃ c r, main_threads demo_args 4 [1; 0; 0; 1]%nat = Ok c ∧
    stdout (main demo_args demo_env [1; 0; 0; 1]%nat) = Some r ∧
    res_iterations r = Z.of_nat (length (c_log c)).
Proof.
  destruct (reported_iterations_performed demo_args demo_env
              [1; 0; 0; 1]%nat 500)
    as [(c & Hc & Hrec) _];
    [vm_compute; discriminate | vm_compute; discriminate
    | vm_compute; discriminate | vm_compute; discriminate
    | vm_compute; reflexivity |].
  destruct Hrec as (r & Hr & Hit); [reflexivity|].
  exists c, r. split; [exact Hc|]. split; [exact Hr|exact Hit].
Defined.

Lemma locks_discipline_witness :
  ∃ f, main_threads_fine two_writers_args 1 [0; 1; 0]%nat = Ok f ∧
    (∀ p i, f_locks f !! p = Some (Some i)
            ↔ ∃ ft, f_threads f !! i = Some ft ∧ in_section ft p) ∧
    ∃ sched c, main_threads_at two_writers_args 1 sched = Ok c ∧
      f_shards f = c_shards c ∧ f_log f = c_log c.
Proof.
  destruct (main_threads_fine_state two_writers_args 1 [0; 1; 0]%nat)
    as [f Hf]; [left; vm_compute; discriminate|].
  exists f. split; [exact Hf|].
  destruct (locks_discipline two_writers_args 1 _ f Hf)
    as (_ & Hown & _ & Hlin).
  split; [exact Hown|exact Hlin].
Defined.

Lemma locks_no_deadlock_witness :
  ∃ f fsched' f',
    main_threads_fine two_writers_args 1 [0; 1; 0]%nat = Ok f ∧
    main_threads_fine two_writers_args 1 ([0; 1; 0]%nat ++ fsched') = Ok f' ∧
    Forall (λ ft, fine_todo ft = O) (f_threads f') ∧
    Forall (λ o, o = None) (f_locks f').
Proof.
  destruct (main_threads_fine_state two_writers_args 1 [0; 1; 0]%nat)
    as [f Hf]; [left; vm_compute; discriminate|].
  destruct (locks_no_deadlock two_writers_args 1 _ f Hf)
    as (_ & _ & fsched' & f' & Hf' & Hdone & Hfree).
  exists f, fsched', f'. split; [exact Hf|]. split; [exact Hf'|].
  split; [exact Hdone|exact Hfree].
Defined.

Lemma negative_key_count_witness :
  main negative_keys_args demo_env [1; 0; 0; 1]%nat
  = report negative_keys_args demo_env 4 [] ∧
  ∃ c, main_threads negative_keys_args 4 [1; 0; 0; 1]%nat = Ok c ∧
    Forall (λ t, ∃ rnd, t = Running rnd 0 O) (c_threads c) ∧
    Forall (λ ev, -10 < ev_key ev ≤ 0) (c_log c).*2.
Proof.
  destruct (negative_key_count negative_keys_args 4 0)
    as (_ & Hthreads & _ & Hmain & Hstate);
    [vm_compute; reflexivity | vm_compute; discriminate
    | vm_compute; reflexivity |].
  split.
  - apply Hmain; [vm_compute; discriminate | left; reflexivity].
  - destruct (Hthreads [1; 0; 0; 1]%nat) as (c & Hc & _ & Hts).
    exists c. split; [exact Hc|]. split; [exact Hts|].
    apply (Hstate (c_shards c) (c_log c).*2).
    left. right. left. exists [1; 0; 0; 1]%nat, c.
    split; [exact Hc|]. split; reflexivity.
Defined.

Lemma main_fatal_iff_witness :
  fatal (main no_keys_processes_args demo_env []) ∧
  exit_status (main no_keys_processes_args demo_env []) = 1.
Proof.
  destruct (main_fatal_iff no_keys_processes_args demo_env [])
    as (Hiff & Hexit & _).
  assert (Hfatal : fatal (main no_keys_processes_args demo_env [])).
  { apply Hiff. right. right. right. split; [reflexivity|].
    right. right. split; [vm_compute; discriminate|left; reflexivity]. }
  split; [exact Hfatal|exact (Hexit Hfatal)].
Defined.

Lemma threshold_saturates_witness :
  ∃ c, main_threads saturated_args 4 [1; 0; 0; 1]%nat = Ok c ∧
    Forall (λ ev, ev_kind ev = Read) (c_log c).*2 ∧
    prefill (new_shards 2) 10 2 = Ok (c_shards c).
Proof.
  destruct (main_threads_state saturated_args 4 [1; 0; 0; 1]%nat)
    as (c & Hc & Hst); [left; vm_compute; discriminate|].
  exists c. split; [exact Hc|].
  destruct (threshold_saturates saturated_args 4 2000 _ _
              ltac:(vm_compute; reflexivity) Hst) as [Hreads _].
  apply Hreads. vm_compute. discriminate.
Defined.

Lemma worker_thread_is_worker_process_witness :
  ∃ sh0, prefill (new_shards 2) 10 2 = Ok sh0 ∧
    worker_thread sh0 (new_locks 2) 10 4 0%float 1 0
    = worker_process_run (10, 4, 0%float, 1, 0, 2).
Proof.
  destruct (prefill_Ok 10 2) as (sh0 & Hsh0 & _);
    [left; vm_compute; discriminate|].
  exists sh0. split; [exact Hsh0|].
  apply worker_thread_is_worker_process; [vm_compute; discriminate|exact Hsh0].
Defined.

Lemma workers_streams_differ_witness :
  0 < 1 ∧
  draws 2 (splitmix64 (42 + 0)) !! 1%nat
  ≠ draws 2 (splitmix64 (42 + 1)) !! 1%nat.
Proof.
  split; [lia|].
  apply workers_streams_differ; [lia | vm_compute; reflexivity | lia].
Defined.
